(** * kuberctl: the node bootstrap command and the task convergence engine

    A shallow embedding of
    - [KubeconfigBuilder.BuildRestConfig]  (upup/pkg/kutil/kubecfg_builder.go),
    - [NodeUpCommand.Run], [evaluateSpec] and [evaluateHostnameOverride]
      (package nodeup),
    - the run loop [Context.RunTasks] of package fi, whose source is not in
      this source tree and is modelled from the specification.

    Go strings are byte strings ([string]); a [[]byte] that may be nil is an
    [option (list Byte.byte)]; a [*string] is an [option string]; a Go
    [map[string]T] is a [gmap string T] and a set of names a [gset string]. *)

From Stdlib Require Import ZArith Ascii.
From stdpp Require Import base option list relations gmap strings pretty.

Set Warnings "-clear-no-such-hyp".

(** ** Package kutil *)

Module Kutil.

(** [type KubeconfigBuilder struct]. *)
Record KubeconfigBuilder := {
  KubectlPath : string;
  KubeconfigPath : string;
  KubeMasterIP : string;
  Context : string;
  Namespace : string;
  KubeBearerToken : string;
  KubeUser : string;
  KubePassword : string;
  CACert : option (list Byte.byte);
  ClientCert : option (list Byte.byte);
  ClientKey : option (list Byte.byte)
}.

(** The fields of [restclient.Config] that [BuildRestConfig] touches; the
    struct is declared in the client library, every other field keeps its
    zero value. *)
Record Config := {
  Host : string;
  CAData : option (list Byte.byte);
  CertData : option (list Byte.byte);
  KeyData : option (list Byte.byte);
  BearerToken : string;
  Username : string;
  Password : string
}.

(** [&restclient.Config{Host: host}]: all other fields zero. *)
Definition newConfig (host : string) : Config :=
  {| Host := host; CAData := None; CertData := None; KeyData := None;
     BearerToken := ""; Username := ""; Password := "" |}.

Definition setCAData (v : option (list Byte.byte)) (r : Config) : Config :=
  {| Host := Host r; CAData := v; CertData := CertData r; KeyData := KeyData r;
     BearerToken := BearerToken r; Username := Username r; Password := Password r |}.
Definition setCertData (v : option (list Byte.byte)) (r : Config) : Config :=
  {| Host := Host r; CAData := CAData r; CertData := v; KeyData := KeyData r;
     BearerToken := BearerToken r; Username := Username r; Password := Password r |}.
Definition setKeyData (v : option (list Byte.byte)) (r : Config) : Config :=
  {| Host := Host r; CAData := CAData r; CertData := CertData r; KeyData := v;
     BearerToken := BearerToken r; Username := Username r; Password := Password r |}.
Definition setBearerToken (v : string) (r : Config) : Config :=
  {| Host := Host r; CAData := CAData r; CertData := CertData r; KeyData := KeyData r;
     BearerToken := v; Username := Username r; Password := Password r |}.
Definition setUsername (v : string) (r : Config) : Config :=
  {| Host := Host r; CAData := CAData r; CertData := CertData r; KeyData := KeyData r;
     BearerToken := BearerToken r; Username := v; Password := Password r |}.
Definition setPassword (v : string) (r : Config) : Config :=
  {| Host := Host r; CAData := CAData r; CertData := CertData r; KeyData := KeyData r;
     BearerToken := BearerToken r; Username := Username r; Password := v |}.

(** [func (c *KubeconfigBuilder) BuildRestConfig()], returning a pointer to
    a [restclient.Config] and an error; the second component is the returned
    error, [None] for nil. *)
Definition BuildRestConfig (c : KubeconfigBuilder) : Config * option string :=
  let restConfig := newConfig ("https://" +:+ KubeMasterIP c) in
  let restConfig := setCAData (CACert c) restConfig in
  let restConfig := setCertData (ClientCert c) restConfig in
  let restConfig := setKeyData (ClientKey c) restConfig in
  (* username/password or bearer token may be set, but not both *)
  let restConfig :=
    if bool_decide (KubeBearerToken c ≠ "") then
      setBearerToken (KubeBearerToken c) restConfig
    else
      setPassword (KubePassword c) (setUsername (KubeUser c) restConfig) in
  (restConfig, None).

End Kutil.

(** ** Package nodeup *)

Module Nodeup.

(** *** The string helpers of the Go library that the package calls *)

(** [strings.LastIndex(s, sep)] for a one-byte separator: the index of the
    last occurrence, [-1] when there is none. [i] is the index of the first
    byte of [s]. *)
Fixpoint LastIndexFrom (i : Z) (s : string) (sep : ascii) : Z :=
  match s with
  | EmptyString => (-1)%Z
  | String a s' =>
      let r := LastIndexFrom (i + 1)%Z s' sep in
      if (r =? -1)%Z then (if Ascii.eqb a sep then i else (-1)%Z) else r
  end.
Definition LastIndex (s : string) (sep : ascii) : Z := LastIndexFrom 0%Z s sep.

(** The slice [s[0:hi]]. *)
Definition slice0 (s : string) (hi : Z) : string :=
  String.substring 0 (Z.to_nat hi) s.

(** The UTF-8 encodings of the code points that [unicode.IsSpace] holds of:
    tab, line feed, vertical tab, form feed, carriage return, space, U+0085,
    U+00A0, U+1680, U+2000 to U+200A, U+2028, U+2029, U+202F, U+205F and
    U+3000. *)
Definition whiteSpace : list string :=
  String.string_of_list_byte <$>
    [[Byte.x09]; [Byte.x0a]; [Byte.x0b]; [Byte.x0c]; [Byte.x0d]; [Byte.x20];
     [Byte.xc2; Byte.x85]; [Byte.xc2; Byte.xa0]; [Byte.xe1; Byte.x9a; Byte.x80];
     [Byte.xe2; Byte.x80; Byte.x80]; [Byte.xe2; Byte.x80; Byte.x81];
     [Byte.xe2; Byte.x80; Byte.x82]; [Byte.xe2; Byte.x80; Byte.x83];
     [Byte.xe2; Byte.x80; Byte.x84]; [Byte.xe2; Byte.x80; Byte.x85];
     [Byte.xe2; Byte.x80; Byte.x86]; [Byte.xe2; Byte.x80; Byte.x87];
     [Byte.xe2; Byte.x80; Byte.x88]; [Byte.xe2; Byte.x80; Byte.x89];
     [Byte.xe2; Byte.x80; Byte.x8a]; [Byte.xe2; Byte.x80; Byte.xa8];
     [Byte.xe2; Byte.x80; Byte.xa9]; [Byte.xe2; Byte.x80; Byte.xaf];
     [Byte.xe2; Byte.x81; Byte.x9f]; [Byte.xe3; Byte.x80; Byte.x80]].

(** The rest of [s] after the bytes [p], when [s] starts with them. *)
Fixpoint stripPrefix (p s : string) : option string :=
  match p, s with
  | EmptyString, _ => Some s
  | String a p', String b s' => if Ascii.eqb a b then stripPrefix p' s' else None
  | String _ _, EmptyString => None
  end.

(** The rest of [s] after the code point that it starts with, when that is
    one of [codes]. *)
Definition stripOne (codes : list string) (s : string) : option string :=
  head (omap (λ p, stripPrefix p s) codes).

(** [s] without the code points of [codes] that it starts with, at most [n]
    of them. *)
Fixpoint trimStart (codes : list string) (n : nat) (s : string) : string :=
  match n with
  | O => s
  | S n' =>
      match stripOne codes s with
      | Some s' => trimStart codes n' s'
      | None => s
      end
  end.

(** [strings.TrimLeftFunc(s, unicode.IsSpace)]: the code points are decoded
    from the start of [s]. Bytes that are not valid UTF-8 decode to U+FFFD,
    one byte wide, which is not white space: the trimming stops there, as it
    does at any other code point. *)
Definition trimLeft (s : string) : string :=
  trimStart whiteSpace (String.length s) s.

(** [strings.TrimRightFunc(s, unicode.IsSpace)]: the code points are decoded
    from the end of [s]; the last code point is white space when [s] ends
    with the encoding of one. *)
Definition trimRight (s : string) : string :=
  String.rev (trimStart (String.rev <$> whiteSpace) (String.length s) (String.rev s)).

(** [strings.TrimSpace]: the white space, as Unicode defines it, at both
    ends of [s] is removed. *)
Definition TrimSpace (s : string) : string := trimRight (trimLeft s).

Definition toLowerByte (a : ascii) : ascii :=
  let n := Ascii.N_of_ascii a in
  if ((65 <=? n)%N && (n <=? 90)%N) then Ascii.ascii_of_N (n + 32) else a.

(** [strings.ToLower] on one-byte code points; the letters of the multi-byte
    code points are kept as they are. *)
Fixpoint ToLower (s : string) : string :=
  match s with
  | EmptyString => EmptyString
  | String a s' => String (toLowerByte a) (ToLower s')
  end.

(** [fi.StringValue]: the string behind a [*string], empty for nil. *)
Definition StringValue (p : option string) : string := default "" p.

(** *** Data *)

(** A call into a collaborator returns a value or an error, of which only
    the text is kept. *)
Inductive Result (A : Type) : Type :=
  | Ok (a : A)
  | Err (cause : string).
Arguments Ok {A} a.
Arguments Err {A} cause.

(** [vfs.Path], by its location. *)
Definition Path := string.

(** [const MaxAttemptsWithNoProgress = 100]:
    we should probably retry for a long time. *)
Definition MaxAttemptsWithNoProgress : Z := 100.

(** [type NodeUpCommand struct]; the fields [config], [cluster] and
    [instancegroup] are filled in by [Run] and are locals of the model. *)
Record NodeUpCommand := {
  ConfigLocation : string;
  ModelDir : Path;
  CacheDir : string;
  Target : string;
  FSRoot : string
}.

(** [Image], an element of [NodeUpConfig.Images]. *)
Record Image := { Source : string; Hash : string }.

(** The fields of [NodeUpConfig] that [Run] reads. *)
Record NodeUpConfig := {
  Assets : list string;
  ConfigBase : option string;
  ClusterLocation : option string;
  InstanceGroupName : string;
  Tags : list string;
  Images : list Image
}.

(** The fields of [api.Cluster] that [evaluateSpec] reads and writes:
    [Spec.Kubelet.HostnameOverride] and [Spec.MasterKubelet.HostnameOverride];
    [rest] stands for all the others. *)
Record Cluster := {
  KubeletHostnameOverride : string;
  MasterKubeletHostnameOverride : string;
  rest : string
}.

(** [api.InstanceGroup], opaque to [Run]. *)
Definition InstanceGroup := string.

(** A task of the task map: one built by the loader from the model, or a
    [nodetasks.LoadImageTask]. *)
Inductive Task :=
  | ModelTask (body : string)
  | LoadImageTask (source hash : string).

(** The three execution targets: [local.LocalTarget], the dry-run target and
    the cloud-init target. *)
Inductive TargetImpl :=
  | LocalTarget (cacheDir : string)
  | DryRunTarget
  | CloudInitTarget.

(** One constructor per error that [Run] builds; the first lines are the
    [fmt.Errorf] returns in source order, the last three the messages of
    [glog.Exitf]. *)
Inductive Error :=
  | ErrFSRootRequired
  | ErrLoadingConfiguration (location cause : string)
  | ErrParsingConfiguration (location cause : string)
  | ErrConfigLocationRequired
  | ErrCacheDirRequired
  | ErrAddingAsset (asset cause : string)
  | ErrParseConfigBase (configBase cause : string)
  | ErrParseInferredConfigBase (basePath cause : string)
  | ErrConfigBaseRequired
  | ErrParsingClusterLocation (location cause : string)
  | ErrLoadingCluster (p : Path) (cause : string)
  | ErrParsingCluster (location : option string) (cause : string)
  | ErrLoadingInstanceGroup (p : Path) (cause : string)
  | ErrParsingInstanceGroup (p : Path) (cause : string)
  | ErrReadingLocalHostname (cause : string)
  | ErrDeterminingOSTags (cause : string)
  | ErrInitializing (cause : string)
  | ErrBuildingLoader (cause : string)
  | ErrUnsupportedTargetType (target : string)
  | ErrBuildingContext (cause : string)
  | ErrRunningTasks (cause : string)
  | ErrClosingTarget (cause : string).

(** What [Run] does to the engine, in order. *)
Inductive Event :=
  | EvNewContext (target : TargetImpl) (checkExisting : bool)
  | EvRunTasks (taskMap : gmap string Task) (maxAttemptsWithNoProgress : Z)
  | EvFinish (target : TargetImpl) (taskMap : gmap string Task)
  | EvClose.

(** How a call of [Run] ends: it returns ([None] is the nil error), or
    [glog.Exitf] ends the process, and then no deferred call runs. *)
Inductive Outcome :=
  | Returned (err : option Error)
  | Exited (msg : Error).

(** The collaborators of [Run], each a function of the arguments it is
    called with. *)
Record World := {
  vfs_ReadFile : string → Result (list Byte.byte);
  YamlUnmarshalConfig : list Byte.byte → Result NodeUpConfig;
  assets_Add : string → option string;
  vfs_BuildVfsPath : string → Result Path;
  Path_Join : Path → list string → Path;
  PathClusterCompleted : string;
  Path_ReadFile : Path → Result (list Byte.byte);
  YamlUnmarshalCluster : list Byte.byte → Result Cluster;
  YamlUnmarshalInstanceGroup : list Byte.byte → Result InstanceGroup;
  FindOSTags : string → Result (list string);
  newTemplateFunctions :
    NodeUpConfig → Cluster → option InstanceGroup → gset string → option string;
  loader_Build :
    NodeUpConfig → Cluster → gset string → Path → Result (gmap string Task);
  fi_NewContext : TargetImpl → bool → option string;
  context_RunTasks : gmap string Task → Z → option string;
  target_Finish : TargetImpl → gmap string Task → option string
}.

(** *** Control flow: early return, process exit, the event log *)

Inductive Flow (A : Type) : Type :=
  | Next (a : A)
  | Stop (o : Outcome).
Arguments Next {A} a.
Arguments Stop {A} o.

Definition M (A : Type) : Type := list Event * Flow A.

Global Instance M_ret : MRet M := λ A a, ([], Next a).
Global Instance M_bind : MBind M := λ A B k m,
  match m with
  | (tr, Next a) => let '(tr', r) := k a in (tr ++ tr', r)
  | (tr, Stop o) => (tr, Stop o)
  end.

(** [return err]. *)
Definition return_ {A} (err : option Error) : M A := ([], Stop (Returned err)).
(** [glog.Exitf(...)]. *)
Definition exitf {A} (msg : Error) : M A := ([], Stop (Exited msg)).
Definition emit (e : Event) : M unit := ([e], Next tt).

(** [v, err := call; if err != nil { return wrap(err) }]. *)
Definition try {A} (r : Result A) (wrap : string → Error) : M A :=
  match r with
  | Ok a => mret a
  | Err cause => return_ (Some (wrap cause))
  end.

(** [defer f()] in front of the rest of the function body: [f] runs when the
    body returns, not when the process exits. *)
Definition defer {A} (e : Event) (body : M A) : M A :=
  match body with
  | (tr, Stop (Exited msg)) => (tr, Stop (Exited msg))
  | (tr, r) => (tr ++ [e], r)
  end.

(** The function body as a whole: falling through to the end is the final
    [return nil]. *)
Definition complete (m : M unit) : list Event * Outcome :=
  match m with
  | (tr, Next _) => (tr, Returned None)
  | (tr, Stop o) => (tr, o)
  end.

(** *** The functions of the package *)

(** [func evaluateHostnameOverride(hostnameOverride string) (string, error)].
    [k] is computed and never read again: the comparison is on the argument
    itself. *)
Definition evaluateHostnameOverride (w : World) (hostnameOverride : string)
    : string * option Error :=
  let k := TrimSpace hostnameOverride in
  let k := ToLower k in
  if bool_decide (hostnameOverride ≠ "@aws") then
    (hostnameOverride, None)
  else
    (* We recognize @aws as meaning the local-hostname from the aws metadata service *)
    match vfs_ReadFile w "metadata://aws/meta-data/local-hostname" with
    | Err cause => ("", Some (ErrReadingLocalHostname cause))
    | Ok vBytes =>
        let v := TrimSpace (String.string_of_list_byte vBytes) in
        (v, None)
    end.

(** The copy [k] that [evaluateHostnameOverride] computes in its first two
    lines. *)
Definition normalizedKey (hostnameOverride : string) : string :=
  ToLower (TrimSpace hostnameOverride).

Definition setKubeletHostnameOverride (v : string) (c : Cluster) : Cluster :=
  {| KubeletHostnameOverride := v;
     MasterKubeletHostnameOverride := MasterKubeletHostnameOverride c;
     rest := rest c |}.
Definition setMasterKubeletHostnameOverride (v : string) (c : Cluster) : Cluster :=
  {| KubeletHostnameOverride := KubeletHostnameOverride c;
     MasterKubeletHostnameOverride := v;
     rest := rest c |}.

(** [func evaluateSpec(c *api.Cluster) error]: the cluster as it is left,
    and the error. Both results of [evaluateHostnameOverride] are assigned
    before the error is looked at. *)
Definition evaluateSpec (w : World) (c : Cluster) : Cluster * option Error :=
  let '(v, err) := evaluateHostnameOverride w (KubeletHostnameOverride c) in
  let c := setKubeletHostnameOverride v c in
  match err with
  | Some e => (c, Some e)
  | None =>
      let '(v, err) := evaluateHostnameOverride w (MasterKubeletHostnameOverride c) in
      let c := setMasterKubeletHostnameOverride v c in
      match err with
      | Some e => (c, Some e)
      | None => (c, None)
      end
  end.

(** [for _, asset := range c.config.Assets { err := assets.Add(asset) ... }]. *)
Fixpoint addAssets (w : World) (assets : list string) : M unit :=
  match assets with
  | [] => mret tt
  | asset :: assets' =>
      match assets_Add w asset with
      | Some cause => return_ (Some (ErrAddingAsset asset cause))
      | None => addAssets w assets'
      end
  end.

(** [for i, image := range c.config.Images { taskMap[key] = task }], with the
    key [LoadImage.] followed by [strconv.Itoa(i)]; [i] is the index of the
    first image of the list. *)
Fixpoint addImages (i : nat) (images : list Image) (taskMap : gmap string Task)
    : gmap string Task :=
  match images with
  | [] => taskMap
  | image :: images' =>
      addImages (S i) images'
        (<["LoadImage." +:+ pretty i := LoadImageTask (Source image) (Hash image)]> taskMap)
  end.

(** [switch c.Target]: the target and the value of [checkExisting] after the
    switch, which starts as [true]. *)
Definition selectTarget (c : NodeUpCommand) : M (TargetImpl * bool) :=
  let checkExisting := true in
  if bool_decide (Target c = "direct") then
    mret (LocalTarget (CacheDir c), checkExisting)
  else if bool_decide (Target c = "dryrun") then
    mret (DryRunTarget, checkExisting)
  else if bool_decide (Target c = "cloudinit") then
    let checkExisting := false in
    mret (CloudInitTarget, checkExisting)
  else
    return_ (Some (ErrUnsupportedTargetType (Target c))).

(** The part of [Run] up to the switch: it loads the configuration, the
    cluster and the instance group and builds the task map. *)
Definition buildTaskMap (w : World) (c : NodeUpCommand) : M (gmap string Task) :=
  (if bool_decide (FSRoot c = "") then return_ (Some ErrFSRootRequired) else mret tt);;
  config ←
    (if bool_decide (ConfigLocation c ≠ "") then
       config ← try (vfs_ReadFile w (ConfigLocation c))
                    (ErrLoadingConfiguration (ConfigLocation c));
       try (YamlUnmarshalConfig w config) (ErrParsingConfiguration (ConfigLocation c))
     else return_ (Some ErrConfigLocationRequired));
  (if bool_decide (CacheDir c = "") then return_ (Some ErrCacheDirRequired) else mret tt);;
  addAssets w (Assets config);;
  configBase ←
    (if bool_decide (StringValue (ConfigBase config) ≠ "") then
       try (vfs_BuildVfsPath w (StringValue (ConfigBase config)))
           (ErrParseConfigBase (StringValue (ConfigBase config)))
     else if bool_decide (StringValue (ClusterLocation config) ≠ "") then
       let basePath := StringValue (ClusterLocation config) in
       let lastSlash := LastIndex basePath "/" in
       let basePath :=
         if bool_decide (lastSlash ≠ (-1)%Z) then slice0 basePath lastSlash else basePath in
       try (vfs_BuildVfsPath w basePath) (ErrParseInferredConfigBase basePath)
     else return_ (Some ErrConfigBaseRequired));
  cluster ←
    (p ← (if bool_decide (StringValue (ClusterLocation config) ≠ "") then
            try (vfs_BuildVfsPath w (StringValue (ClusterLocation config)))
                (ErrParsingClusterLocation (StringValue (ClusterLocation config)))
          else mret (Path_Join w configBase [PathClusterCompleted w]));
     b ← try (Path_ReadFile w p) (ErrLoadingCluster p);
     try (YamlUnmarshalCluster w b) (ErrParsingCluster (ClusterLocation config)));
  instancegroup ←
    (if bool_decide (InstanceGroupName config ≠ "") then
       let instanceGroupLocation :=
         Path_Join w configBase ["instancegroup"; InstanceGroupName config] in
       b ← try (Path_ReadFile w instanceGroupLocation)
               (ErrLoadingInstanceGroup instanceGroupLocation);
       ig ← try (YamlUnmarshalInstanceGroup w b)
                (ErrParsingInstanceGroup instanceGroupLocation);
       mret (Some ig)
     else mret None);
  cluster ←
    (let '(cluster, err) := evaluateSpec w cluster in
     match err with
     | Some e => return_ (Some e)
     | None => mret cluster
     end);
  osTags ← try (FindOSTags w (FSRoot c)) ErrDeterminingOSTags;
  let tags : gset string := list_to_set osTags ∪ list_to_set (Tags config) in
  match newTemplateFunctions w config cluster instancegroup tags with
  | Some cause => return_ (Some (ErrInitializing cause))
  | None =>
      taskMap ← try (loader_Build w config cluster tags (ModelDir c)) ErrBuildingLoader;
      mret (addImages 0 (Images config) taskMap)
  end.

(** The part of [Run] from the switch on: target, context, run loop,
    finalization. [cloud], [caStore] and [secretStore] are nil. *)
Definition converge (w : World) (c : NodeUpCommand) (taskMap : gmap string Task)
    : M unit :=
  '(target, checkExisting) ← selectTarget c;
  emit (EvNewContext target checkExisting);;
  match fi_NewContext w target checkExisting with
  | Some cause => exitf (ErrBuildingContext cause)
  | None =>
      defer EvClose (
        emit (EvRunTasks taskMap MaxAttemptsWithNoProgress);;
        match context_RunTasks w taskMap MaxAttemptsWithNoProgress with
        | Some cause => exitf (ErrRunningTasks cause)
        | None =>
            emit (EvFinish target taskMap);;
            match target_Finish w target taskMap with
            | Some cause => exitf (ErrClosingTarget cause)
            | None => return_ None
            end
        end)
  end.

(** [func (c *NodeUpCommand) Run(out io.Writer) error]: the calls into the
    engine, in order, and how the call ends. *)
Definition Run (w : World) (c : NodeUpCommand) : list Event * Outcome :=
  complete (taskMap ← buildTaskMap w c; converge w c taskMap).

End Nodeup.

(** ** Package fi: the task convergence engine *)

Module Fi.

(** Modelled from the spec: the result of one call of a task's [Run], as the
    run loop classifies it (sections 4.1 and 4.3): success, a transient
    error that a later pass retries, a permanent error that aborts the run.
    The Task contract and the run loop [Context.RunTasks] are called by
    [NodeUpCommand.Run]; their source is not in this source tree. *)
Inductive RunResult :=
  | Succeeded
  | TransientError
  | PermanentError.

Global Instance RunResult_eq_dec : EqDecision RunResult.
Proof. solve_decision. Defined.

(** Modelled from the spec: a Task (section 3), whose source is missing. It
    is identified by its key in the task collection and carries the names of
    the tasks it refers to. *)
Record Task := { references : list string }.

(** Modelled from the spec: [Dependencies(all tasks)] of the missing Task
    contract (section 4.1): the subset of the task collection that the task
    must wait on. *)
Definition Dependencies (all : gmap string Task) (t : Task) : gset string :=
  list_to_set (references t) ∩ dom all.

(** Modelled from the spec: the dependency set, by the missing Task
    contract, of the task named [k]; empty when there is no such
    task. *)
Definition dependenciesOf (all : gmap string Task) (k : string) : gset string :=
  from_option (Dependencies all) ∅ (all !! k).

(** Modelled from the spec: the dependency relation of the missing Task
    contract, restricted to the tasks of the run (section 3): [x] must
    wait on [y]. *)
Definition depends (all : gmap string Task) (x y : string) : Prop :=
  y ∈ dependenciesOf all x.

(** Modelled from the spec: what a task's [Run] does when it is called; the
    task implementations are external to the engine. [run k i] is the result
    of the call number [i] (from 0) of the [Run] of the task named [k]. *)
Definition Behaviour := string → nat → RunResult.

(** Modelled from the spec: the terminal errors of a run (section 7), whose
    source is missing. A configuration error names the tasks found on a
    cycle; a permanent error names the task; a stagnation error lists the
    tasks still pending, each with its dependencies that are not done. *)
Inductive RunError :=
  | Configuration (cycle : list string)
  | Permanent (task : string)
  | Stagnation (unresolved : list (string * list string)).

(** Modelled from the spec: the state of the missing run loop (section 4.3,
    step 2): the tasks that are done, the number of calls of each task's
    [Run] so far, the counter of consecutive passes without a newly done
    task, the remaining budget, the number of passes, and the calls of [Run]
    in order, each with its result. *)
Record State := {
  done : gset string;
  attempts : gmap string nat;
  noProgress : nat;
  budget : nat;
  passes : nat;
  log : list (string * RunResult)
}.

(** Modelled from the spec: the state in which the missing run loop starts:
    nothing done, nothing called, the full budget (section 4.3, step 2). *)
Definition initial (maxAttemptsWithNoProgress : nat) : State :=
  {| done := ∅; attempts := ∅; noProgress := 0;
     budget := maxAttemptsWithNoProgress; passes := 0; log := [] |}.

(** Modelled from the spec: one round of the dependency closure of the
    missing run loop: the set and what its tasks depend on. *)
Definition expand (all : gmap string Task) (X : gset string) : gset string :=
  X ∪ ⋃ (dependenciesOf all <$> elements X).

(** Modelled from the spec: the dependency closure of a task (section 4.3,
    step 1), part of the missing run loop: the tasks reached through one or
    more dependencies. *)
Definition closure (all : gmap string Task) (k : string) : gset string :=
  Nat.iter (size all) (expand all) (dependenciesOf all k).

(** Modelled from the spec: cycle detection (section 4.3, step 1), part of
    the missing run loop: the tasks whose dependency closure includes
    themselves. *)
Definition cyclic (all : gmap string Task) : list string :=
  filter (λ k, k ∈ closure all k) (elements (dom all)).

(** Modelled from the spec: the test of the missing run loop for a task to be
    attempted (section 4.3, step 3): it is pending and its dependencies are
    all done. *)
Definition ready (all : gmap string Task) (doneAtStart : gset string)
    (kt : string * Task) : Prop :=
  (kt.1 ∉ doneAtStart) ∧ (Dependencies all kt.2 ⊆ doneAtStart).

Global Instance ready_dec all doneAtStart kt : Decision (ready all doneAtStart kt).
Proof. unfold ready. apply _. Defined.

(** Modelled from the spec: the tasks that a pass of the missing run loop
    attempts: those ready as of the start of the pass
    (section 5). *)
Definition runnable (all : gmap string Task) (doneAtStart : gset string)
    : list string :=
  (filter (ready all doneAtStart) (map_to_list all)).*1.

(** Modelled from the spec: one call, by the missing run loop, of the [Run]
    of task [k] (section 4.3, step 3): the call is counted and logged, and
    on success the task is marked done. *)
Definition attempt (run : Behaviour) (k : string) (st : State) : State * RunResult :=
  let i := default 0 (attempts st !! k) in
  let r := run k i in
  ({| done := if bool_decide (r = Succeeded) then {[k]} ∪ done st else done st;
      attempts := <[k := S i]> (attempts st);
      noProgress := noProgress st;
      budget := budget st;
      passes := passes st;
      log := log st ++ [(k, r)] |}, r).

(** Modelled from the spec: the attempts of one pass of the missing run
    loop, in order (section 4.3, step 3). A permanent error stops the pass;
    the name of the task that failed is returned. *)
Fixpoint attemptAll (run : Behaviour) (ks : list string) (st : State)
    : State * option string :=
  match ks with
  | [] => (st, None)
  | k :: ks' =>
      let '(st', r) := attempt run k st in
      match r with
      | PermanentError => (st', Some k)
      | _ => attemptAll run ks' st'
      end
  end.

(** Modelled from the spec: the report of a stagnation error of the missing
    run loop (section 7): every pending task with those of its
    dependencies that are not done. *)
Definition unresolved (all : gmap string Task) (st : State)
    : list (string * list string) :=
  fmap (λ kt : string * Task, (kt.1, elements (Dependencies all kt.2 ∖ done st)))
       (filter (λ kt : string * Task, kt.1 ∉ done st) (map_to_list all)).

(** Modelled from the spec: the end of a pass of the missing run loop: the
    two counters are set and the pass is counted. *)
Definition endPass (st : State) (noProgress' budget' : nat) : State :=
  {| done := done st; attempts := attempts st; noProgress := noProgress';
     budget := budget'; passes := S (passes st); log := log st |}.

(** Modelled from the spec: what a turn of the missing run loop comes to: it
    goes on to another pass or ends, with success
    ([None]) or with an error. *)
Inductive Step :=
  | Continue (st : State)
  | Finished (st : State) (err : option RunError).

(** Modelled from the spec: one turn of the missing run loop (section 4.3,
    steps 3 to 5). It stops with success when no pending task remains;
    otherwise it makes a pass over the tasks that are ready. A permanent
    error aborts the run. After the pass, when the set of done tasks grew
    the no-progress counter is reset, and with it the budget of consecutive
    passes without progress; otherwise the budget is decremented, and
    when it reaches zero the run is aborted with the unresolved tasks. *)
Definition pass (all : gmap string Task) (maxAttemptsWithNoProgress : nat)
    (run : Behaviour) (st : State) : Step :=
  if bool_decide (dom all ⊆ done st) then Finished st None
  else
    let doneAtStart := done st in
    let '(st', failed) := attemptAll run (runnable all doneAtStart) st in
    match failed with
    | Some k => Finished (endPass st' (noProgress st') (budget st')) (Some (Permanent k))
    | None =>
        if bool_decide (size doneAtStart < size (done st')) then
          Continue (endPass st' 0 maxAttemptsWithNoProgress)
        else
          let budget' := budget st' - 1 in
          if bool_decide (budget' = 0) then
            Finished (endPass st' (S (noProgress st')) budget')
                     (Some (Stagnation (unresolved all st')))
          else
            Continue (endPass st' (S (noProgress st')) budget')
    end.

(** Modelled from the spec: the missing run loop itself (section 4.3): turn
    after turn, with a bound on the number of turns; [None] when the bound is
    reached. *)
Fixpoint loop (fuel : nat) (all : gmap string Task) (maxAttemptsWithNoProgress : nat)
    (run : Behaviour) (st : State) : option (State * option RunError) :=
  match fuel with
  | 0 => None
  | S fuel' =>
      match pass all maxAttemptsWithNoProgress run st with
      | Finished st' err => Some (st', err)
      | Continue st' => loop fuel' all maxAttemptsWithNoProgress run st'
      end
  end.

(** Modelled from the spec: a number of turns that the missing run loop
    never exceeds (the budget is finite, section 4.3): a turn that goes on
    either marks a task done or uses up one unit of the budget. *)
Definition turns (all : gmap string Task) (maxAttemptsWithNoProgress : nat) : nat :=
  S (size all * S maxAttemptsWithNoProgress + maxAttemptsWithNoProgress).

(** Modelled from the spec: [Context.RunTasks(taskMap, maxAttemptsWithNoProgress)]
    (section 4.3), whose source is missing: cycle detection first, with a
    configuration error before any task runs, then the run loop. The result
    is the final state and the error, [None] for success. *)
Definition RunTasks (all : gmap string Task) (maxAttemptsWithNoProgress : nat)
    (run : Behaviour) : option (State * option RunError) :=
  match cyclic all with
  | [] => loop (turns all maxAttemptsWithNoProgress) all maxAttemptsWithNoProgress run
            (initial maxAttemptsWithNoProgress)
  | names => Some (initial maxAttemptsWithNoProgress, Some (Configuration names))
  end.

(** Modelled from the spec: a dependency chain of the task collection
    (section 8), over the missing Task contract: each task of the list
    depends on the one after
    it. *)
Fixpoint chain (all : gmap string Task) (c : list string) : Prop :=
  match c with
  | [] => True
  | x :: c' =>
      x ∈ dom all ∧
      match c' with
      | [] => True
      | y :: _ => depends all x y
      end ∧ chain all c'
  end.

(** Modelled from the spec: the dependency relation of the missing Task
    contract has no cycle (section 3). *)
Definition acyclic (all : gmap string Task) : Prop :=
  ∀ x, ¬ tc (depends all) x x.

End Fi.

(** ** Package awsup: the machine type catalog *)

Module Awsup.

(** [type AWSMachineTypeInfo struct]. The fields [MemoryGB] and [ECU] are
    [float32] and are left out: [EphemeralDevices] and [GetMachineTypeInfo]
    read neither. [Cores] and the disk sizes are Go [int]s. *)
Record AWSMachineTypeInfo := {
  Name : string;
  Cores : Z;
  EphemeralDisks : list Z;
  Burstable : bool
}.

Global Instance AWSMachineTypeInfo_eq_dec : EqDecision AWSMachineTypeInfo.
Proof. solve_decision. Defined.

(** [type EphemeralDevice struct]. *)
Record EphemeralDevice := {
  DeviceName : string;
  VirtualName : string;
  SizeGB : Z
}.

(** How a call of [EphemeralDevices] ends: it returns the devices, or
    [glog.Fatalf] ends the process. *)
Inductive Devices :=
  | Returned (disks : list EphemeralDevice)
  | Fatal.

(** [string('c'+i)]: the letter [i] places after [c]; one byte for the [i]
    below 20 that reach the conversion. *)
Definition driveLetter (i : nat) : string :=
  String (Ascii.ascii_of_nat (99 + i)) EmptyString.

(** The body of the loop of [EphemeralDevices] from index [i] on, with the
    devices appended so far. *)
Fixpoint ephemeralDevicesFrom (i : nat) (sizes : list Z) (disks : list EphemeralDevice)
    : Devices :=
  match sizes with
  | [] => Returned disks
  | sizeGB :: sizes' =>
      if bool_decide (20 ≤ i) then
        (* TODO: What drive letters do we use? *)
        Fatal
      else
        let d := {| DeviceName := "/dev/sd" +:+ driveLetter i;
                    VirtualName := "ephemeral" +:+ pretty i;
                    SizeGB := sizeGB |} in
        ephemeralDevicesFrom (S i) sizes' (disks ++ [d])
  end.

(** [func (m *AWSMachineTypeInfo) EphemeralDevices() []*EphemeralDevice]. *)
Definition EphemeralDevices (m : AWSMachineTypeInfo) : Devices :=
  ephemeralDevicesFrom 0 (EphemeralDisks m) [].

(** The loop of [GetMachineTypeInfo] over a table: the first entry with the
    name. *)
Fixpoint lookupMachineType (table : list AWSMachineTypeInfo) (machineType : string)
    : option AWSMachineTypeInfo :=
  match table with
  | [] => None
  | m :: table' =>
      if bool_decide (Name m = machineType) then Some m
      else lookupMachineType table' machineType
  end.

(** [var MachineTypes []AWSMachineTypeInfo], as the source initializes it. *)
Definition MachineTypes : list AWSMachineTypeInfo := [
  {| Name := "t2.nano"; Cores := 1%Z; EphemeralDisks := []; Burstable := true |};
  {| Name := "t2.micro"; Cores := 1%Z; EphemeralDisks := []; Burstable := true |};
  {| Name := "t2.small"; Cores := 1%Z; EphemeralDisks := []; Burstable := true |};
  {| Name := "t2.medium"; Cores := 2%Z; EphemeralDisks := []; Burstable := true |};
  {| Name := "t2.large"; Cores := 2%Z; EphemeralDisks := []; Burstable := true |};
  {| Name := "m3.medium"; Cores := 1%Z; EphemeralDisks := [4%Z]; Burstable := false |};
  {| Name := "m3.large"; Cores := 2%Z; EphemeralDisks := [32%Z]; Burstable := false |};
  {| Name := "m3.xlarge"; Cores := 4%Z; EphemeralDisks := [40%Z; 40%Z]; Burstable := false |};
  {| Name := "m3.2xlarge"; Cores := 8%Z; EphemeralDisks := [80%Z; 80%Z]; Burstable := false |};
  {| Name := "m4.large"; Cores := 2%Z; EphemeralDisks := []; Burstable := false |};
  {| Name := "m4.xlarge"; Cores := 4%Z; EphemeralDisks := []; Burstable := false |};
  {| Name := "m4.2xlarge"; Cores := 8%Z; EphemeralDisks := []; Burstable := false |};
  {| Name := "m4.4xlarge"; Cores := 16%Z; EphemeralDisks := []; Burstable := false |};
  {| Name := "m4.10xlarge"; Cores := 40%Z; EphemeralDisks := []; Burstable := false |};
  {| Name := "c3.large"; Cores := 2%Z; EphemeralDisks := [16%Z; 16%Z]; Burstable := false |};
  {| Name := "c3.xlarge"; Cores := 4%Z; EphemeralDisks := [40%Z; 40%Z]; Burstable := false |};
  {| Name := "c3.2xlarge"; Cores := 8%Z; EphemeralDisks := [80%Z; 80%Z]; Burstable := false |};
  {| Name := "c3.4xlarge"; Cores := 16%Z; EphemeralDisks := [160%Z; 160%Z]; Burstable := false |};
  {| Name := "c3.8xlarge"; Cores := 32%Z; EphemeralDisks := [320%Z; 320%Z]; Burstable := false |};
  {| Name := "c4.large"; Cores := 2%Z; EphemeralDisks := []; Burstable := false |};
  {| Name := "c4.xlarge"; Cores := 4%Z; EphemeralDisks := []; Burstable := false |};
  {| Name := "c4.2xlarge"; Cores := 8%Z; EphemeralDisks := []; Burstable := false |};
  {| Name := "c4.4xlarge"; Cores := 16%Z; EphemeralDisks := []; Burstable := false |};
  {| Name := "c4.8xlarge"; Cores := 32%Z; EphemeralDisks := []; Burstable := false |};
  {| Name := "g2.2xlarge"; Cores := 8%Z; EphemeralDisks := [60%Z]; Burstable := false |};
  {| Name := "g2.8xlarge"; Cores := 32%Z; EphemeralDisks := [120%Z; 120%Z]; Burstable := false |};
  {| Name := "i2.xlarge"; Cores := 4%Z; EphemeralDisks := [800%Z]; Burstable := false |};
  {| Name := "i2.2xlarge"; Cores := 8%Z; EphemeralDisks := [800%Z; 800%Z]; Burstable := false |};
  {| Name := "i2.4xlarge"; Cores := 16%Z; EphemeralDisks := [800%Z; 800%Z; 800%Z; 800%Z]; Burstable := false |};
  {| Name := "i2.8xlarge"; Cores := 32%Z; EphemeralDisks := [800%Z; 800%Z; 800%Z; 800%Z; 800%Z; 800%Z; 800%Z; 800%Z]; Burstable := false |};
  {| Name := "r3.large"; Cores := 2%Z; EphemeralDisks := [32%Z]; Burstable := false |};
  {| Name := "r3.xlarge"; Cores := 4%Z; EphemeralDisks := [80%Z]; Burstable := false |};
  {| Name := "r3.2xlarge"; Cores := 8%Z; EphemeralDisks := [160%Z]; Burstable := false |};
  {| Name := "r3.4xlarge"; Cores := 16%Z; EphemeralDisks := [320%Z]; Burstable := false |};
  {| Name := "r3.8xlarge"; Cores := 32%Z; EphemeralDisks := [320%Z; 320%Z]; Burstable := false |};
  {| Name := "x1.32xlarge"; Cores := 128%Z; EphemeralDisks := [1920%Z; 1920%Z]; Burstable := false |}
].

(** The error of [GetMachineTypeInfo]: instance type not handled, with the
    name asked for. *)
Inductive Error :=
  | ErrInstanceTypeNotHandled (machineType : string).

(** [func GetMachineTypeInfo(machineType string) (pointer to AWSMachineTypeInfo, error)]
    over the table [table]; the source reads the package variable
    [MachineTypes]. *)
Definition GetMachineTypeInfoIn (table : list AWSMachineTypeInfo) (machineType : string)
    : AWSMachineTypeInfo + Error :=
  match lookupMachineType table machineType with
  | Some m => inl m
  | None => inr (ErrInstanceTypeNotHandled machineType)
  end.

Definition GetMachineTypeInfo (machineType : string) : AWSMachineTypeInfo + Error :=
  GetMachineTypeInfoIn MachineTypes machineType.

End Awsup.



(** ** Package kutil: writing the kubecfg file *)

Module Kubecfg.
Import Kutil.

(** [strings.Split(s, sep)] for a one-byte separator: the pieces of [s]
    between the occurrences of [sep]; one piece, [s] itself, when there is
    none. *)
Fixpoint Split (s : string) (sep : ascii) : list string :=
  match s with
  | EmptyString => [EmptyString]
  | String a s' =>
      if Ascii.eqb a sep then EmptyString :: Split s' sep
      else match Split s' sep with
           | [] => [String a EmptyString]
           | piece :: pieces => String a piece :: pieces
           end
  end.

(** One constructor per error that [WriteKubecfg] and [execKubectl] return:
    the [fmt.Errorf] returns, and the error of [ioutil.WriteFile], which is
    returned as it is. *)
Inductive Error :=
  | ErrCreatingTempDir (cause : string)
  | ErrCreatingDirectories (kubeconfigPath cause : string)
  | ErrCreatingConfigFile (kubeconfigPath cause : string)
  | ErrWriteFile (cause : string)
  | ErrRunningKubectl (cause : string).

(** What [WriteKubecfg] does to the file system, the processes it runs and
    what it prints, in order. A [kubectl] run is recorded with the program,
    its arguments and the value of [KUBECONFIG] in its environment. *)
Inductive Event :=
  | EvMkdirAll (dir : string)
  | EvCreateFile (path : string)
  | EvWriteFile (path : string) (data : list Byte.byte)
  | EvKubectl (kubectlPath : string) (args : list string) (kubeconfig : string)
  | EvPrintf (context path : string)
  | EvRemoveAll (dir : string).

(** The operating system and the library calls of [WriteKubecfg], each a
    function of the arguments it is called with: [ioutil.TempDir],
    [os.IsNotExist] of the error of [os.Stat], [path.Dir], [path.Join],
    [os.MkdirAll], [os.OpenFile], [ioutil.WriteFile], and the error of
    [cmd.CombinedOutput] for a [kubectl] run. *)
Record World := {
  TempDir : Nodeup.Result string;
  Stat_IsNotExist : string → bool;
  path_Dir : string → string;
  path_Join : string → string → string;
  MkdirAll : string → option string;
  OpenFile : string → option string;
  WriteFile : string → list Byte.byte → option string;
  CombinedOutput : string → list string → string → option string
}.

(** Control flow of a function that returns an error: the event log, and a
    value to go on with or the error returned ([None] is nil). *)
Inductive Flow (A : Type) : Type :=
  | Next (a : A)
  | Return (err : option Error).
Arguments Next {A} a.
Arguments Return {A} err.

Definition M (A : Type) : Type := list Event * Flow A.

Global Instance M_ret : MRet M := λ A a, ([], Next a).
Global Instance M_bind : MBind M := λ A B k m,
  match m with
  | (tr, Next a) => let '(tr', r) := k a in (tr ++ tr', r)
  | (tr, Return err) => (tr, Return err)
  end.

Definition return_ {A} (err : option Error) : M A := ([], Return err).
Definition emit (e : Event) : M unit := ([e], Next tt).

(** [err := call; if err != nil { return wrap(err) }]. *)
Definition check (r : option string) (wrap : string → Error) : M unit :=
  match r with
  | None => mret tt
  | Some cause => return_ (Some (wrap cause))
  end.

(** [defer f()] in front of the rest of the function body: [f] runs when the
    body returns. *)
Definition defer {A} (e : Event) (body : M A) : M A :=
  (body.1 ++ [e], body.2).

Definition complete (m : M unit) : list Event * option Error :=
  match m with
  | (tr, Next _) => (tr, None)
  | (tr, Return err) => (tr, err)
  end.

(** [func NewKubeconfigBuilder() *KubeconfigBuilder]; [kubeconfigEnv] is the
    value of the environment variable named by
    [clientcmd.RecommendedConfigPathEnvVar]. *)
Definition NewKubeconfigBuilder (kubeconfigEnv RecommendedHomeFile : string)
    : KubeconfigBuilder :=
  let kubeconfig := kubeconfigEnv in
  let kubeconfig :=
    if bool_decide (kubeconfig = "") then RecommendedHomeFile else kubeconfig in
  {| KubectlPath := "kubectl"; (* default to in-path *)
     KubeconfigPath := kubeconfig;
     KubeMasterIP := ""; Context := ""; Namespace := "";
     KubeBearerToken := ""; KubeUser := ""; KubePassword := "";
     CACert := None; ClientCert := None; ClientKey := None |}.

(** [func (c *KubeconfigBuilder) execKubectl(args ...string) error]. *)
Definition execKubectl (w : World) (c : KubeconfigBuilder) (args : list string)
    : M unit :=
  emit (EvKubectl (KubectlPath c) args (KubeconfigPath c));;
  check (CombinedOutput w (KubectlPath c) args (KubeconfigPath c)) ErrRunningKubectl.

(** [ioutil.WriteFile(path, data, 0600)], its error returned as it is. *)
Definition writeFile (w : World) (path : string) (data : list Byte.byte) : M unit :=
  emit (EvWriteFile path data);;
  check (WriteFile w path data) ErrWriteFile.

(** [func (c *KubeconfigBuilder) WriteKubecfg() error]: what it does, in
    order, and the error it returns. *)
Definition WriteKubecfg (w : World) (c : KubeconfigBuilder)
    : list Event * option Error :=
  complete (
    match TempDir w with
    | Nodeup.Err cause => return_ (Some (ErrCreatingTempDir cause))
    | Nodeup.Ok tmpdir =>
      defer (EvRemoveAll tmpdir) (
        (if Stat_IsNotExist w (KubeconfigPath c) then
           emit (EvMkdirAll (path_Dir w (KubeconfigPath c)));;
           check (MkdirAll w (path_Dir w (KubeconfigPath c)))
                 (ErrCreatingDirectories (KubeconfigPath c));;
           emit (EvCreateFile (KubeconfigPath c));;
           check (OpenFile w (KubeconfigPath c))
                 (ErrCreatingConfigFile (KubeconfigPath c))
         else mret tt);;
        let clusterArgs : list string := [] in
        let clusterArgs := clusterArgs ++ ["--server=https://" +:+ KubeMasterIP c] in
        clusterArgs ←
          match CACert c with
          | None => mret (clusterArgs ++ ["--insecure-skip-tls-verify=true"])
          | Some data =>
              let caCert := path_Join w tmpdir "ca.crt" in
              writeFile w caCert data;;
              let clusterArgs := clusterArgs ++ ["--certificate-authority=" +:+ caCert] in
              mret (clusterArgs ++ ["--embed-certs=true"])
          end;
        let userArgs : list string := [] in
        let userArgs :=
          if bool_decide (KubeBearerToken c ≠ "") then
            userArgs ++ ["--token=" +:+ KubeBearerToken c]
          else if bool_decide (KubeUser c ≠ "" ∧ KubePassword c ≠ "") then
            (userArgs ++ ["--username=" +:+ KubeUser c])
              ++ ["--password=" +:+ KubePassword c]
          else userArgs in
        userArgs ←
          match ClientCert c, ClientKey c with
          | Some cert, Some key =>
              let clientCert := path_Join w tmpdir "client.crt" in
              writeFile w clientCert cert;;
              let clientKey := path_Join w tmpdir "client.key" in
              writeFile w clientKey key;;
              let userArgs := userArgs ++ ["--client-certificate=" +:+ clientCert] in
              let userArgs := userArgs ++ ["--client-key=" +:+ clientKey] in
              mret (userArgs ++ ["--embed-certs=true"])
          | _, _ => mret userArgs
          end;
        let setClusterArgs := ["config"; "set-cluster"; Context c] in
        let setClusterArgs := setClusterArgs ++ clusterArgs in
        execKubectl w c setClusterArgs;;
        (if bool_decide (length userArgs ≠ 0) then
           let setCredentialsArgs := ["config"; "set-credentials"; Context c] in
           let setCredentialsArgs := setCredentialsArgs ++ userArgs in
           execKubectl w c setCredentialsArgs
         else mret tt);;
        (let args := ["config"; "set-context"; Context c;
                      "--cluster=" +:+ Context c; "--user=" +:+ Context c] in
         let args :=
           if bool_decide (Namespace c ≠ "") then args ++ ["--namespace"; Namespace c]
           else args in
         execKubectl w c args);;
        execKubectl w c ["config"; "use-context"; Context c;
                         "--cluster=" +:+ Context c; "--user=" +:+ Context c];;
        (* If we have a bearer token, also create a credential entry with basic auth *)
        (if bool_decide (KubeUser c ≠ "" ∧ KubePassword c ≠ "") then
           execKubectl w c ["config"; "set-credentials"; Context c +:+ "-basic-auth";
                            "--username=" +:+ KubeUser c;
                            "--password=" +:+ KubePassword c]
         else mret tt);;
        let split := Split (KubeconfigPath c) ":" in
        let path := KubeconfigPath c in
        let path :=
          if bool_decide (1 < length split) then default path (head split) else path in
        emit (EvPrintf (Context c) path);;
        return_ None)
    end).

End Kubecfg.

(** ** Package protokube: tainting the masters *)

Module Protokube.
Import Nodeup.

(** The fields of [api.Node] that [ApplyMasterTaints] reads. *)
Record Node := {
  Name : string;
  Annotations : gmap string string
}.

Record Taint := {
  Key : string;
  Value : string;
  Effect : string
}.

(** [type nodePatchMetadata struct], [type nodePatchSpec struct] and
    [type nodePatch struct]; a nil pointer is [None]. *)
Record nodePatchMetadata := {
  PatchAnnotations : gmap string string
}.

Record nodePatchSpec := {
  Unschedulable : option bool
}.

Record nodePatch := {
  Metadata : option nodePatchMetadata;
  Spec : option nodePatchSpec
}.

(** One constructor per error that [ApplyMasterTaints] returns: the error
    of [KubernetesClient], returned as it is, and the [fmt.Errorf]
    returns. *)
Inductive Error :=
  | ErrKubernetesClient (cause : string)
  | ErrQueryingNodes (cause : string)
  | ErrSerializingTaint (cause : string)
  | ErrBuildingNodePatch (cause : string)
  | ErrApplyingPatch (cause : string).

(** What [ApplyMasterTaints] does, in order: the [glog.Infof] about a node
    with an unexpected taint, and the strategic merge patch sent for a
    node. *)
Inductive Event :=
  | EvInfoUnexpectedTaint (name nodeTaintJSON : string)
  | EvPatch (name nodePatchJson : string).

(** The Kubernetes client and the library calls of [ApplyMasterTaints]: the
    error of [kubeContext.KubernetesClient()], the constant
    [api.TaintsAnnotationKey], the answer of [Nodes().List] for a label
    selector, [json.Marshal] of the taints and of a node patch, and the
    error of [Nodes().Patch] for the node at position [i] of the list. *)
Record World := {
  KubernetesClient : option string;
  TaintsAnnotationKey : string;
  List : gmap string string → Result (list Node);
  Marshal_taint : list Taint → Result string;
  Marshal_nodePatch : nodePatch → Result string;
  Patch : nat → string → string → option string
}.

(** The loop [for i := range nodes.Items] of [ApplyMasterTaints], from
    position [i] on. *)
Fixpoint taintNodes (w : World) (taintJSON : string) (i : nat) (items : list Node)
    : list Event * option Error :=
  match items with
  | [] => ([], None)
  | node :: items' =>
      let nodeTaintJSON := default "" (Annotations node !! TaintsAnnotationKey w) in
      if bool_decide (nodeTaintJSON ≠ "") then
        let '(tr, err) := taintNodes w taintJSON (S i) items' in
        ((if bool_decide (nodeTaintJSON ≠ taintJSON)
          then [EvInfoUnexpectedTaint (Name node) nodeTaintJSON] else []) ++ tr, err)
      else
        let nodePatchMetadata :=
          {| PatchAnnotations := {[ TaintsAnnotationKey w := taintJSON ]} |} in
        let unschedulable := false in
        let nodePatchSpec := {| Unschedulable := Some unschedulable |} in
        let nodePatch :=
          {| Metadata := Some nodePatchMetadata; Spec := Some nodePatchSpec |} in
        match Marshal_nodePatch w nodePatch with
        | Err cause => ([], Some (ErrBuildingNodePatch cause))
        | Ok nodePatchJson =>
            match Patch w i (Name node) nodePatchJson with
            | Some cause =>
                (* TODO: Should we keep going? *)
                ([EvPatch (Name node) nodePatchJson], Some (ErrApplyingPatch cause))
            | None =>
                let '(tr, err) := taintNodes w taintJSON (S i) items' in
                (EvPatch (Name node) nodePatchJson :: tr, err)
            end
        end
  end.

(** [func ApplyMasterTaints(kubeContext *KubernetesContext) error]: what it
    does, in order, and the error it returns ([None] is nil). *)
Definition ApplyMasterTaints (w : World) : list Event * option Error :=
  match KubernetesClient w with
  | Some cause => ([], Some (ErrKubernetesClient cause))
  | None =>
      let options := {[ "kubernetes.io/role" := "master" ]} in
      match List w options with
      | Err cause => ([], Some (ErrQueryingNodes cause))
      | Ok nodes =>
          let taint :=
            [{| Key := "dedicated"; Value := "master"; Effect := "NoSchedule" |}] in
          match Marshal_taint w taint with
          | Err cause => ([], Some (ErrSerializingTaint cause))
          | Ok taintJSON => taintNodes w taintJSON 0 nodes
          end
      end
  end.

End Protokube.

(** ** Package kutil: upgrading a cluster *)

Module Upgrade.
Import Nodeup.

(** The fields of the AWS SDK and kops API values that [Upgrade] reads. A
    [*string] is an [option string]; [aws.StringValue] is
    [Nodeup.StringValue]. The receiver's [Cloud] is an [AWSCloud], and
    [ClusterRegistry], [ClusterConfig] and the [State] of every instance
    are not nil (the Go code panics otherwise). *)
Definition Tag : Type := option string * option string.

Record EbsInstanceBlockDevice := {
  Ebs_VolumeId : option string
}.

Record InstanceBlockDeviceMapping := {
  Ebs : option EbsInstanceBlockDevice
}.

Record Instance := {
  InstanceId : option string;
  Instance_Tags : list Tag;
  State_Name : option string;
  BlockDeviceMappings : list InstanceBlockDeviceMapping
}.

Record Volume := {
  VolumeId : option string;
  Volume_Tags : list Tag;
  AvailabilityZone : option string
}.

Record DhcpOptions := {
  DhcpOptionsId : option string;
  DhcpOptions_Tags : list Tag
}.

Record Group := {
  AutoScalingGroupName : option string
}.

Record LoadBalancerDescription := {
  LoadBalancerName : option string;
  SecurityGroups : list (option string)
}.

Record InternetGatewayAttachment := {
  VpcId : option string
}.

Record InternetGateway := {
  InternetGatewayId : option string;
  Attachments : list InternetGatewayAttachment;
  InternetGateway_Tags : list Tag
}.

Record Cluster := {
  Name : string;
  Spec_NetworkID : string;
  Spec_rest : string
}.

Record CertificatePool := {
  Secondary : list string;
  Primary : option string
}.

(** [type UpgradeCluster struct], without [Cloud] and [ClusterRegistry],
    which are the world below. *)
Record UpgradeCluster := {
  OldClusterName : string;
  NewClusterName : string;
  ClusterConfig : Cluster;
  InstanceGroups : list string
}.

(** One constructor per [return] of an error in [Upgrade]; [ErrQuery] is an
    error of a pre-query that is returned as it is. *)
Inductive Error :=
  | ErrNewClusterNameMissing
  | ErrOldClusterNameMissing
  | ErrFindingInstances (cause : string)
  | ErrQuery (cause : string)
  | ErrNoMasters
  | ErrUpdatingAutoscalingGroup (name cause : string)
  | ErrStoppingMaster (cause : string)
  | ErrDetachingVolume (volumeID masterInstanceID cause : string)
  | ErrGettingVPCTags (cause : string)
  | ErrVPCOtherCluster (clusterTag : string)
  | ErrRetaggingVPC (cause : string)
  | ErrListingGateways (cause : string)
  | ErrRetaggingInternetGateway (cause : string)
  | ErrDHCPOtherCluster (clusterTag : string)
  | ErrRetaggingDHCPOptions (cause : string)
  | ErrRetaggingELB (id cause : string)
  | ErrRetaggingELBSecurityGroup (id cause : string)
  | ErrRetaggingVolume (id cause : string)
  | ErrWritingConfiguration (cause : string)
  | ErrReadingOldCACerts (cause : string)
  | ErrImportingOldCACerts (cause : string).

(** The calls of [Upgrade] that change something, and its sleep between two
    attempts to detach a volume, in order. [EvAddCert] names the cluster of
    the key store that the certificate is added to. *)
Inductive Event :=
  | EvUpdateAutoScalingGroup (name : option string) (desired min max : Z)
  | EvStopInstances (instanceIds : list (option string))
  | EvDetachVolume (volumeId instanceId : option string)
  | EvSleep (seconds : Z)
  | EvCreateTags (id : string) (tags : gmap string string)
  | EvCreateELBTags (id : string) (tags : gmap string string)
  | EvCreateClusterConfig (cluster : Cluster) (groups : list string)
  | EvAddCert (clusterName : string) (cert : string).

(** The cloud, the registry and the helpers of package [awsup] that
    [Upgrade] calls. [Tags] is the map that [awsCloud.Tags()] returns, a
    copy of its own on every call. The pre-queries are made before anything
    is changed;
    the answer to every later call may depend on the calls made before it,
    the list it is given; [respond] is the error of a call that changes
    something, [KeyStore_CertificatePool] the certificate pool of the key
    store of a cluster. *)
Record World := {
  TagClusterName : string;
  Tags : gmap string string;
  FindEC2Tag : list Tag → string → string * bool;
  AWSErrorCode : string → string;
  findInstances : Result (list Instance);
  DescribeVolumes : Result (list Volume);
  DescribeDhcpOptions : Result (list DhcpOptions);
  findAutoscalingGroups : gmap string string → Result (list Group);
  DescribeELBs : Result (list LoadBalancerDescription);
  GetTags : list Event → string → Result (gmap string string);
  DescribeInternetGatewaysIgnoreTags : list Event → Result (list InternetGateway);
  KeyStore_CertificatePool : list Event → string → Result CertificatePool;
  respond : list Event → Event → option string
}.

(** How a run of [Upgrade] ends: it returns an error ([None] is nil), or it
    is still retrying to detach a volume when the attempts that the model
    follows are used up. *)
Inductive Outcome :=
  | Returned (err : option Error)
  | Retrying.

Inductive Flow (A : Type) : Type :=
  | Next (a : A)
  | Stop (o : Outcome).
Arguments Next {A} a.
Arguments Stop {A} o.

(** A computation takes the calls made so far and gives the calls made
    after it. *)
Definition M (A : Type) : Type := list Event → list Event * Flow A.

Global Instance M_ret : MRet M := λ A a tr, (tr, Next a).
Global Instance M_bind : MBind M := λ A B k m tr,
  match m tr with
  | (tr', Next a) => k a tr'
  | (tr', Stop o) => (tr', Stop o)
  end.

Definition return_ {A} (err : option Error) : M A := λ tr, (tr, Stop (Returned err)).

(** [v, err := query; if err != nil { return wrap(err) }]. *)
Definition ask {A} (r : list Event → Result A) (wrap : string → Error) : M A :=
  λ tr, match r tr with
        | Ok a => (tr, Next a)
        | Err cause => (tr, Stop (Returned (Some (wrap cause))))
        end.

(** A call that changes something, and its error. *)
Definition call (w : World) (e : Event) : M (option string) :=
  λ tr, (tr ++ [e], Next (respond w tr e)).

Definition emit (e : Event) : M unit := λ tr, (tr ++ [e], Next tt).

(** [err := call; if err != nil { return wrap(err) }]. *)
Definition do (w : World) (e : Event) (wrap : string → Error) : M unit :=
  err ← call w e;
  match err with
  | None => mret tt
  | Some cause => return_ (Some (wrap cause))
  end.

(** [for _, a := range l { body }]. *)
Fixpoint forM_ {A} (l : list A) (body : A → M unit) : M unit :=
  match l with
  | [] => mret tt
  | a :: l' => body a;; forM_ l' body
  end.

Definition complete (m : M unit) : list Event * Outcome :=
  match m [] with
  | (tr, Next _) => (tr, Returned None)
  | (tr, Stop o) => (tr, o)
  end.

(** The loop [for { _, err := awsCloud.EC2.DetachVolume(request) ... }],
    followed for at most [attempts] attempts. *)
Fixpoint detachVolume (attempts : nat) (w : World) (VolumeId InstanceId : option string)
    : M unit :=
  match attempts with
  | O => λ tr, (tr, Stop Retrying)
  | S attempts' =>
      err ← call w (EvDetachVolume VolumeId InstanceId);
      match err with
      | Some err =>
          if bool_decide (AWSErrorCode w err = "IncorrectState") then
            emit (EvSleep 5);;
            detachVolume attempts' w VolumeId InstanceId
          else
            return_ (Some (ErrDetachingVolume (StringValue VolumeId)
                                              (StringValue InstanceId) err))
      | None => mret tt
      end
  end.

(** [replaceTags := make(map[string]string);
    replaceTags[awsup.TagClusterName] = newClusterName]. *)
Definition replaceTags (w : World) (newClusterName : string) : gmap string string :=
  <[ TagClusterName w := newClusterName ]> ∅.

(** [func (x *UpgradeCluster) Upgrade() error]: the calls it makes, in
    order, and how it ends, when every loop that retries to detach a volume
    is followed for at most [attempts] attempts. *)
Definition Upgrade (attempts : nat) (w : World) (x : UpgradeCluster)
    : list Event * Outcome :=
  complete (
    let cluster := ClusterConfig x in
    let newClusterName := NewClusterName x in
    if bool_decide (newClusterName = "") then return_ (Some ErrNewClusterNameMissing)
    else
    let oldClusterName := OldClusterName x in
    if bool_decide (oldClusterName = "") then return_ (Some ErrOldClusterNameMissing)
    else
    let oldTags := Tags w in
    let newTags := <[ "KubernetesCluster" := newClusterName ]> (Tags w) in
    (* Try to pre-query as much as possible before doing anything destructive *)
    instances ← ask (λ _, findInstances w) ErrFindingInstances;
    volumes ← ask (λ _, DescribeVolumes w) ErrQuery;
    dhcpOptions ← ask (λ _, DescribeDhcpOptions w) ErrQuery;
    autoscalingGroups ← ask (λ _, findAutoscalingGroups w oldTags) ErrQuery;
    elbs ← ask (λ _, DescribeELBs w) ErrQuery;
    (* Find masters *)
    let masters :=
      filter (λ instance,
                (FindEC2Tag w (Instance_Tags instance) "Role").1
                = oldClusterName +:+ "-master") instances in
    if bool_decide (length masters = 0) then return_ (Some ErrNoMasters) else
    (* Stop autoscalingGroups *)
    forM_ autoscalingGroups (λ group,
      let name := StringValue (AutoScalingGroupName group) in
      do w (EvUpdateAutoScalingGroup (AutoScalingGroupName group) 0 0 0)
         (ErrUpdatingAutoscalingGroup name));;
    (* Stop masters *)
    forM_ masters (λ master,
      let masterState := StringValue (State_Name master) in
      if bool_decide (masterState = "terminated") then mret tt
      else do w (EvStopInstances [InstanceId master]) ErrStoppingMaster);;
    (* Detach volumes from masters *)
    forM_ masters (λ master,
      forM_ (BlockDeviceMappings master) (λ bdm,
        match Ebs bdm with
        | None => mret tt
        | Some ebs =>
            match Ebs_VolumeId ebs with
            | None => mret tt
            | Some _ => detachVolume attempts w (Ebs_VolumeId ebs) (InstanceId master)
            end
        end));;
    (* Retag VPC *)
    (let vpcID := Spec_NetworkID cluster in
     ((if bool_decide (vpcID ≠ "") then
          tags ← ask (λ tr, GetTags w tr vpcID) ErrGettingVPCTags;
          let clusterTag := default "" (tags !! TagClusterName w) in
          if bool_decide (clusterTag ≠ "") then
            if bool_decide (clusterTag ≠ oldClusterName) then
              return_ (Some (ErrVPCOtherCluster clusterTag))
            else
              do w (EvCreateTags vpcID (replaceTags w newClusterName)) ErrRetaggingVPC;;
              (* The VPC was tagged as ours, so make sure the gateway is
                 consistently retagged *)
              mret true
          else mret false
      else mret false) : M bool) ≫= λ retagGateway : bool,
     if retagGateway then
       gateways ← ask (DescribeInternetGatewaysIgnoreTags w) ErrListingGateways;
       forM_ gateways (λ igw,
         let match_ :=
           existsb (λ a, bool_decide (vpcID = StringValue (VpcId a))) (Attachments igw) in
         if negb match_ then mret tt else
         let id := StringValue (InternetGatewayId igw) in
         let clusterTag := (FindEC2Tag w (InternetGateway_Tags igw) (TagClusterName w)).1 in
         if bool_decide (clusterTag = "" ∨ clusterTag = oldClusterName) then
           do w (EvCreateTags id (replaceTags w newClusterName)) ErrRetaggingInternetGateway
         else mret tt)
     else mret tt);;
    (* Retag DHCP options *)
    forM_ dhcpOptions (λ dhcpOption,
      let id := StringValue (DhcpOptionsId dhcpOption) in
      let clusterTag :=
        (FindEC2Tag w (DhcpOptions_Tags dhcpOption) (TagClusterName w)).1 in
      if bool_decide (clusterTag ≠ "") then
        if bool_decide (clusterTag ≠ oldClusterName) then
          return_ (Some (ErrDHCPOtherCluster clusterTag))
        else
          do w (EvCreateTags id (replaceTags w newClusterName)) ErrRetaggingDHCPOptions
      else mret tt);;
    (* Adopt LoadBalancers & LoadBalancer Security Groups *)
    forM_ elbs (λ elb,
      let id := StringValue (LoadBalancerName elb) in
      do w (EvCreateELBTags id (replaceTags w newClusterName)) (ErrRetaggingELB id));;
    forM_ elbs (λ elb,
      forM_ (SecurityGroups elb) (λ sg,
        let id := StringValue sg in
        do w (EvCreateTags id (replaceTags w newClusterName))
           (ErrRetaggingELBSecurityGroup id)));;
    (* Adopt Volumes *)
    forM_ volumes (λ volume,
      let id := StringValue (VolumeId volume) in
      let replaceTags := replaceTags w newClusterName in
      let name := (FindEC2Tag w (Volume_Tags volume) "Name").1 in
      let replaceTags :=
        if bool_decide (name = oldClusterName +:+ "-master-pd") then
          let az := StringValue (AvailabilityZone volume) in
          <[ "Name" := az +:+ ".etcd-main." +:+ newClusterName ]> replaceTags
        else replaceTags in
      do w (EvCreateTags id replaceTags) (ErrRetaggingVolume id));;
    let cluster :=
      {| Name := newClusterName;
         Spec_NetworkID := Spec_NetworkID cluster; Spec_rest := Spec_rest cluster |} in
    do w (EvCreateClusterConfig cluster (InstanceGroups x)) ErrWritingConfiguration;;
    oldCACertPool ← ask (λ tr, KeyStore_CertificatePool w tr oldClusterName) ErrReadingOldCACerts;
    forM_ (Secondary oldCACertPool) (λ ca,
      do w (EvAddCert newClusterName ca) ErrImportingOldCACerts);;
    match Primary oldCACertPool with
    | Some ca => do w (EvAddCert newClusterName ca) ErrImportingOldCACerts
    | None => mret tt
    end;;
    return_ None).

End Upgrade.

(** * Proofs *)

(** ** kutil *)

Module KutilProofs.
Import Kutil.

(** C10: [BuildRestConfig] always returns a nil error. When
    [KubeBearerToken] is not empty the configuration carries it as
    [BearerToken] and leaves [Username] and [Password] empty; when it is
    empty, [Username] and [Password] are [KubeUser] and [KubePassword]. *)
Theorem BuildRestConfig_bearer_token_precedence (c : KubeconfigBuilder) :
  (BuildRestConfig c).2 = None ∧
  (KubeBearerToken c ≠ "" →
     BearerToken (BuildRestConfig c).1 = KubeBearerToken c ∧
     Username (BuildRestConfig c).1 = "" ∧
     Password (BuildRestConfig c).1 = "") ∧
  (KubeBearerToken c = "" →
     BearerToken (BuildRestConfig c).1 = "" ∧
     Username (BuildRestConfig c).1 = KubeUser c ∧
     Password (BuildRestConfig c).1 = KubePassword c).
Proof.
  unfold BuildRestConfig. split; [reflexivity|].
  split; intros Htoken; case_bool_decide; simpl; try done.
Qed.

Definition sampleBuilder : KubeconfigBuilder :=
  {| KubectlPath := "kubectl"; KubeconfigPath := "/root/.kube/config";
     KubeMasterIP := "203.0.113.10"; Context := "prod"; Namespace := "";
     KubeBearerToken := "token"; KubeUser := "admin"; KubePassword := "secret";
     CACert := None; ClientCert := None; ClientKey := None |}.

Lemma BuildRestConfig_bearer_token_precedence_witness :
  BearerToken (BuildRestConfig sampleBuilder).1 = "token" ∧
  Username (BuildRestConfig sampleBuilder).1 = "" ∧
  Password (BuildRestConfig sampleBuilder).1 = "".
Proof.
  destruct (BuildRestConfig_bearer_token_precedence sampleBuilder) as (_ & Htoken & _).
  apply Htoken. done.
Defined.

End KutilProofs.

Module NodeupProofs.
Import Nodeup.

Definition quiet {A} (m : M A) : Prop :=
  (∃ a, m = ([], Next a)) ∨ (∃ e, m = ([], Stop (Returned (Some e)))).

Lemma quiet_mret {A} (a : A) : quiet (mret a).
Proof. left. by exists a. Qed.
Lemma quiet_return {A} (e : Error) : quiet (@return_ A (Some e)).
Proof. right. by exists e. Qed.
Lemma quiet_try {A} (r : Result A) wrap : quiet (try r wrap).
Proof. destruct r; [apply quiet_mret | apply quiet_return]. Qed.
Lemma quiet_bind {A B} (m : M A) (k : A → M B) :
  quiet m → (∀ a, quiet (k a)) → quiet (m ≫= k).
Proof.
  intros [[a ->]|[e ->]] Hk.
  - destruct (Hk a) as [[b Hb]|[e He]]; [left; exists b | right; exists e];
      unfold mbind, M_bind; by rewrite ?Hb, ?He.
  - right. by exists e.
Qed.
Lemma quiet_addAssets w l : quiet (addAssets w l).
Proof.
  induction l as [|a l IH]; simpl; [apply quiet_mret|].
  destruct (assets_Add w a); [apply quiet_return | done].
Qed.

Local Ltac quiet_step :=
  first
    [ apply quiet_mret | apply quiet_return | apply quiet_try | apply quiet_addAssets
    | apply quiet_bind; [|intros ?]
    | case_bool_decide
    | match goal with
      | |- quiet (match ?x with _ => _ end) => destruct x eqn:?
      | |- quiet (let '(_, _) := ?x in _) => destruct x eqn:?
      end ].

Lemma quiet_buildTaskMap w c : quiet (buildTaskMap w c).
Proof. unfold buildTaskMap. repeat quiet_step. Qed.

Lemma quiet_selectTarget c : quiet (selectTarget c).
Proof. unfold selectTarget. repeat quiet_step. Qed.


(** The string helpers on the values that [Run] meets. *)
Example LastIndex_cluster_location :
  LastIndex "s3://bucket/cluster/config" "/" = 19%Z ∧
  slice0 "s3://bucket/cluster/config" 19 = "s3://bucket/cluster" ∧
  LastIndex "config" "/" = (-1)%Z.
Proof. by vm_compute. Qed.

Example TrimSpace_ToLower_samples :
  TrimSpace "  ip-10-0-0-1.ec2.internal " = "ip-10-0-0-1.ec2.internal" ∧
  ToLower "@AWS" = "@aws" ∧ TrimSpace "   " = "".
Proof. by vm_compute. Qed.

(** White space of several bytes is trimmed at both ends (U+00A0 in front,
    U+2028 and a line feed behind); bytes that are not a whole code point
    are kept (a lone [c2] in front, a lone [a0] behind). *)
Example TrimSpace_multibyte_samples :
  TrimSpace (String.string_of_list_byte
               [Byte.x20; Byte.xc2; Byte.xa0; Byte.x69; Byte.x70;
                Byte.xe2; Byte.x80; Byte.xa8; Byte.x0a]) = "ip" ∧
  TrimSpace (String.string_of_list_byte [Byte.xc2; Byte.x69; Byte.x70; Byte.xa0])
  = String.string_of_list_byte [Byte.xc2; Byte.x69; Byte.x70; Byte.xa0].
Proof. by vm_compute. Qed.

(** The three values of [Target] that the switch knows. *)
Definition supported (t : string) : Prop :=
  t = "direct" ∨ t = "dryrun" ∨ t = "cloudinit".

Lemma selectTarget_supported c t chk :
  selectTarget c = ([], Next (t, chk)) →
  supported (Target c) ∧ chk = bool_decide (Target c ≠ "cloudinit").
Proof.
  unfold selectTarget, supported.
  repeat case_bool_decide; intros [= <- <-]; (split; [auto | first [done | congruence]]).
Qed.

Lemma selectTarget_unsupported c :
  ¬ supported (Target c) →
  selectTarget c = ([], Stop (Returned (Some (ErrUnsupportedTargetType (Target c))))).
Proof.
  unfold selectTarget, supported. intros Hno.
  repeat case_bool_decide; try done; exfalso; apply Hno; auto.
Qed.

Lemma selectTarget_stop c o :
  selectTarget c = ([], Stop o) → ¬ supported (Target c).
Proof.
  unfold selectTarget, supported.
  repeat case_bool_decide; try done. intros _ [?|[?|?]]; done.
Qed.

(** The ways a call of [Run] can go: the engine calls made, and the end. *)
Inductive RunShape (w : World) (c : NodeUpCommand) : list Event * Outcome → Prop :=
  | ShapeEarly e :
      buildTaskMap w c = ([], Stop (Returned (Some e))) →
      RunShape w c ([], Returned (Some e))
  | ShapeUnsupported tm :
      buildTaskMap w c = ([], Next tm) →
      ¬ supported (Target c) →
      RunShape w c ([], Returned (Some (ErrUnsupportedTargetType (Target c))))
  | ShapeNoContext tm t chk cause :
      buildTaskMap w c = ([], Next tm) →
      selectTarget c = ([], Next (t, chk)) →
      fi_NewContext w t chk = Some cause →
      RunShape w c ([EvNewContext t chk], Exited (ErrBuildingContext cause))
  | ShapeRunFailed tm t chk cause :
      buildTaskMap w c = ([], Next tm) →
      selectTarget c = ([], Next (t, chk)) →
      fi_NewContext w t chk = None →
      context_RunTasks w tm MaxAttemptsWithNoProgress = Some cause →
      RunShape w c ([EvNewContext t chk; EvRunTasks tm MaxAttemptsWithNoProgress],
                    Exited (ErrRunningTasks cause))
  | ShapeFinishFailed tm t chk cause :
      buildTaskMap w c = ([], Next tm) →
      selectTarget c = ([], Next (t, chk)) →
      fi_NewContext w t chk = None →
      context_RunTasks w tm MaxAttemptsWithNoProgress = None →
      target_Finish w t tm = Some cause →
      RunShape w c ([EvNewContext t chk; EvRunTasks tm MaxAttemptsWithNoProgress;
                     EvFinish t tm],
                    Exited (ErrClosingTarget cause))
  | ShapeDone tm t chk :
      buildTaskMap w c = ([], Next tm) →
      selectTarget c = ([], Next (t, chk)) →
      fi_NewContext w t chk = None →
      context_RunTasks w tm MaxAttemptsWithNoProgress = None →
      target_Finish w t tm = None →
      RunShape w c ([EvNewContext t chk; EvRunTasks tm MaxAttemptsWithNoProgress;
                     EvFinish t tm; EvClose],
                    Returned None).

Lemma Run_shape w c : RunShape w c (Run w c).
Proof.
  unfold Run.
  destruct (quiet_buildTaskMap w c) as [[tm Hb]|[e Hb]]; rewrite Hb.
  2: { by apply ShapeEarly. }
  unfold mbind at 1, M_bind at 1.
  destruct (decide (supported (Target c))) as [Hs|Hs].
  2: { unfold converge. rewrite (selectTarget_unsupported c Hs). simpl.
       by eapply ShapeUnsupported. }
  destruct (quiet_selectTarget c) as [[[t chk] Hsel]|[e Hsel]].
  2: { by apply selectTarget_stop in Hsel. }
  unfold converge. rewrite Hsel. simpl.
  destruct (fi_NewContext w t chk) as [cause|] eqn:Hctx; simpl.
  { by eapply ShapeNoContext. }
  destruct (context_RunTasks w tm MaxAttemptsWithNoProgress) as [cause|] eqn:Hrun; simpl.
  { by eapply ShapeRunFailed. }
  destruct (target_Finish w t tm) as [cause|] eqn:Hfin; simpl.
  { by eapply ShapeFinishFailed. }
  by eapply ShapeDone.
Qed.



(** A world in which every collaborator succeeds: the configuration names a
    cluster location and two images, the loader builds one task. *)
Definition sampleConfig : NodeUpConfig :=
  {| Assets := ["asset"]; ConfigBase := None;
     ClusterLocation := Some "s3://bucket/cluster/config";
     InstanceGroupName := "nodes"; Tags := ["_kubernetes_pool"];
     Images := [ {| Source := "image.tar"; Hash := "abc" |} ] |}.
Definition sampleWorld : World :=
  {| vfs_ReadFile := λ _, Ok [];
     YamlUnmarshalConfig := λ _, Ok sampleConfig;
     assets_Add := λ _, None;
     vfs_BuildVfsPath := λ s, Ok s;
     Path_Join := λ p l, foldl (λ a b, a +:+ "/" +:+ b) p l;
     PathClusterCompleted := "cluster.spec";
     Path_ReadFile := λ _, Ok [];
     YamlUnmarshalCluster := λ _,
       Ok {| KubeletHostnameOverride := "@AWS";
             MasterKubeletHostnameOverride := ""; rest := "" |};
     YamlUnmarshalInstanceGroup := λ _, Ok "nodes";
     FindOSTags := λ _, Ok ["_debian_family"];
     newTemplateFunctions := λ _ _ _ _, None;
     loader_Build := λ _ _ _ _, Ok {[ "file" := ModelTask "content" ]};
     fi_NewContext := λ _ _, None;
     context_RunTasks := λ _ _, None;
     target_Finish := λ _ _, None |}.
Definition sampleCommand (target : string) : NodeUpCommand :=
  {| ConfigLocation := "file:///config.yaml"; ModelDir := "/model";
     CacheDir := "/var/cache/nodeup"; Target := target; FSRoot := "/" |}.
Definition sampleTaskMap : gmap string Task :=
  <["LoadImage.0" := LoadImageTask "image.tar" "abc"]> {[ "file" := ModelTask "content" ]}.

Lemma sample_run_cloudinit :
  Run sampleWorld (sampleCommand "cloudinit") =
    ([EvNewContext CloudInitTarget false;
      EvRunTasks sampleTaskMap MaxAttemptsWithNoProgress;
      EvFinish CloudInitTarget sampleTaskMap; EvClose], Returned None).
Proof. vm_compute. reflexivity. Qed.

Lemma sample_run_unsupported :
  buildTaskMap sampleWorld (sampleCommand "terraform") = ([], Next sampleTaskMap).
Proof. vm_compute. reflexivity. Qed.

Local Ltac in_trace Hin :=
  repeat (apply elem_of_cons in Hin as [Hin|Hin]; [simplify_eq|]);
  try (by apply elem_of_nil in Hin).




Lemma selectTarget_known c :
  (Target c = "direct" →
   selectTarget c = ([], Next (LocalTarget (CacheDir c), true))) ∧
  (Target c = "dryrun" → selectTarget c = ([], Next (DryRunTarget, true))) ∧
  (Target c = "cloudinit" → selectTarget c = ([], Next (CloudInitTarget, false))).
Proof. unfold selectTarget. repeat split; intros ->; done. Qed.

(** C6: the [checkExisting] flag that [Run] hands to [fi.NewContext] is true
    when the target is [direct] or [dryrun], and it is false exactly when the
    target is [cloudinit]. Every call of [fi.NewContext] that [Run] makes
    carries that flag; and [Run] does make the call, first of its calls into
    the engine, with the local target and [true] for [direct], the dry-run
    target and [true] for [dryrun] and the cloud-init target and [false] for
    [cloudinit], whenever its steps before the switch succeed, so that the
    task map is built. *)
Theorem Run_checkExisting_by_target (w : World) (c : NodeUpCommand) :
  (∀ t checkExisting, EvNewContext t checkExisting ∈ (Run w c).1 →
     (Target c = "direct" ∨ Target c = "dryrun" → checkExisting = true) ∧
     (checkExisting = false ↔ Target c = "cloudinit") ∧
     (Target c = "direct" ∨ Target c = "dryrun" ∨ Target c = "cloudinit")) ∧
  (∀ taskMap, buildTaskMap w c = ([], Next taskMap) →
     (Target c = "direct" →
      ∃ tr, (Run w c).1 = EvNewContext (LocalTarget (CacheDir c)) true :: tr) ∧
     (Target c = "dryrun" →
      ∃ tr, (Run w c).1 = EvNewContext DryRunTarget true :: tr) ∧
     (Target c = "cloudinit" →
      ∃ tr, (Run w c).1 = EvNewContext CloudInitTarget false :: tr)).
Proof.
  split.
  - intros t checkExisting Hin.
    assert (∃ t' chk', selectTarget c = ([], Next (t', chk')) ∧ chk' = checkExisting)
      as (t' & chk' & Hsel & <-).
    { destruct (Run_shape w c); simpl in Hin; in_trace Hin; eauto. }
    apply selectTarget_supported in Hsel as [Hs ->].
    split; [|split; [|exact Hs]].
    + intros [H|H]; apply bool_decide_eq_true; rewrite H; done.
    + rewrite bool_decide_eq_false. split; [apply dec_stable | auto].
  - intros taskMap Hbuilt.
    assert (∀ t chk, selectTarget c = ([], Next (t, chk)) →
              ∃ tr, (Run w c).1 = EvNewContext t chk :: tr) as Hcalled.
    { intros t chk Hsel.
      destruct (Run_shape w c) as [e Hb|tm Hb Hno|tm t' chk' cause Hb Hsel'
        |tm t' chk' cause Hb Hsel'|tm t' chk' cause Hb Hsel'|tm t' chk' Hb Hsel'];
        simpl.
      - congruence.
      - by apply selectTarget_supported in Hsel as [? _].
      - rewrite Hsel in Hsel'. injection Hsel' as <- <-. by eexists.
      - rewrite Hsel in Hsel'. injection Hsel' as <- <-. by eexists.
      - rewrite Hsel in Hsel'. injection Hsel' as <- <-. by eexists.
      - rewrite Hsel in Hsel'. injection Hsel' as <- <-. by eexists. }
    destruct (selectTarget_known c) as (Hdirect & Hdryrun & Hcloudinit).
    repeat split; intros Ht; apply Hcalled; auto.
Qed.

Lemma sample_built target : buildTaskMap sampleWorld (sampleCommand target)
                            = ([], Next sampleTaskMap).
Proof. vm_compute. reflexivity. Qed.

Lemma Run_checkExisting_by_target_witness :
  (∃ tr, (Run sampleWorld (sampleCommand "direct")).1
         = EvNewContext (LocalTarget "/var/cache/nodeup") true :: tr) ∧
  (∃ tr, (Run sampleWorld (sampleCommand "dryrun")).1
         = EvNewContext DryRunTarget true :: tr) ∧
  (∃ tr, (Run sampleWorld (sampleCommand "cloudinit")).1
         = EvNewContext CloudInitTarget false :: tr) ∧
  (true = false ↔ Target (sampleCommand "direct") = "cloudinit") ∧
  (false = false ↔ Target (sampleCommand "cloudinit") = "cloudinit").
Proof.
  destruct (Run_checkExisting_by_target sampleWorld (sampleCommand "direct"))
    as [Hflag1 Hcall1].
  destruct (Run_checkExisting_by_target sampleWorld (sampleCommand "dryrun"))
    as [_ Hcall2].
  destruct (Run_checkExisting_by_target sampleWorld (sampleCommand "cloudinit"))
    as [Hflag3 Hcall3].
  destruct (Hcall1 _ (sample_built "direct")) as (Hdirect & _ & _).
  destruct (Hcall2 _ (sample_built "dryrun")) as (_ & Hdryrun & _).
  destruct (Hcall3 _ (sample_built "cloudinit")) as (_ & _ & Hcloudinit).
  split; [by apply Hdirect|]. split; [by apply Hdryrun|].
  split; [by apply Hcloudinit|]. split.
  - apply (Hflag1 (LocalTarget "/var/cache/nodeup") true).
    destruct (Hdirect eq_refl) as [tr ->]. apply list_elem_of_here.
  - apply (Hflag3 CloudInitTarget false).
    destruct (Hcloudinit eq_refl) as [tr ->]. apply list_elem_of_here.
Defined.

(** C7: the budget that [Run] passes to [RunTasks] is the constant
    [MaxAttemptsWithNoProgress], which is 100 and so positive. *)
Theorem Run_passes_MaxAttemptsWithNoProgress (w : World) (c : NodeUpCommand)
    (taskMap : gmap string Task) (n : Z) :
  EvRunTasks taskMap n ∈ (Run w c).1 →
  n = MaxAttemptsWithNoProgress ∧ n = 100%Z ∧ (0 < n)%Z.
Proof.
  intros Hin.
  assert (n = MaxAttemptsWithNoProgress) as ->.
  { destruct (Run_shape w c); simpl in Hin; in_trace Hin; done. }
  done.
Qed.

Lemma Run_passes_MaxAttemptsWithNoProgress_witness :
  MaxAttemptsWithNoProgress = MaxAttemptsWithNoProgress ∧
  MaxAttemptsWithNoProgress = 100%Z ∧ (0 < MaxAttemptsWithNoProgress)%Z.
Proof.
  apply (Run_passes_MaxAttemptsWithNoProgress sampleWorld (sampleCommand "cloudinit")
           sampleTaskMap MaxAttemptsWithNoProgress).
  rewrite sample_run_cloudinit. simpl. apply list_elem_of_further, list_elem_of_here.
Defined.

(** C8, as amended: when [Target] is none of [direct], [dryrun] and
    [cloudinit], [Run] returns an error and makes no call into the engine:
    no context is built and no task is run. The error is the unsupported
    target type, with the value of [Target], when the steps of [Run] before
    the switch succeed, so that the task map is built; when one of them
    fails, [Run] returns the error of that step and does not look at
    [Target]. *)
Theorem Run_unsupported_target (w : World) (c : NodeUpCommand) :
  Target c ≠ "direct" → Target c ≠ "dryrun" → Target c ≠ "cloudinit" →
  (Run w c).1 = [] ∧
  (∃ e, (Run w c).2 = Returned (Some e)) ∧
  (∀ taskMap, buildTaskMap w c = ([], Next taskMap) →
     (Run w c).2 = Returned (Some (ErrUnsupportedTargetType (Target c)))) ∧
  (∀ e, buildTaskMap w c = ([], Stop (Returned (Some e))) →
     (Run w c).2 = Returned (Some e)).
Proof.
  intros H1 H2 H3.
  assert (¬ supported (Target c)) as Hs by (intros [?|[?|?]]; done).
  destruct (Run_shape w c) as [e Hb|tm Hb _|tm t chk cause Hb Hsel
    |tm t chk cause Hb Hsel|tm t chk cause Hb Hsel|tm t chk Hb Hsel]; simpl.
  3-6: by apply selectTarget_supported in Hsel as [? _].
  - split; [done|]. split; [by exists e|]. split; intros ? Hb'; congruence.
  - split; [done|]. split; [by eexists|]. split; [done|]. intros e Hb'. congruence.
Qed.

Lemma Run_unsupported_target_witness :
  (Run sampleWorld (sampleCommand "terraform")).1 = [] ∧
  (∃ e, (Run sampleWorld (sampleCommand "terraform")).2 = Returned (Some e)) ∧
  (Run sampleWorld (sampleCommand "terraform")).2 =
    Returned (Some (ErrUnsupportedTargetType "terraform")).
Proof.
  destruct (Run_unsupported_target sampleWorld (sampleCommand "terraform"))
    as (Htr & He & Hu & _); [done..|].
  split; [exact Htr|]. split; [exact He|].
  exact (Hu sampleTaskMap sample_run_unsupported).
Defined.

(** A command with an unknown target and no [FSRoot]. *)
Definition rootlessCommand : NodeUpCommand :=
  {| ConfigLocation := "file:///config.yaml"; ModelDir := "/model";
     CacheDir := "/var/cache/nodeup"; Target := "terraform"; FSRoot := "" |}.

(** C8 as stated fails: with an unknown target and an empty [FSRoot], the
    error that [Run] returns is that [FSRoot] is required, not the
    unsupported target type: the check of [FSRoot] comes first. *)
Lemma Run_unsupported_target_counterexample :
  Target rootlessCommand ≠ "direct" ∧ Target rootlessCommand ≠ "dryrun" ∧
  Target rootlessCommand ≠ "cloudinit" ∧
  Run sampleWorld rootlessCommand = ([], Returned (Some ErrFSRootRequired)) ∧
  (Run sampleWorld rootlessCommand).2
  ≠ Returned (Some (ErrUnsupportedTargetType (Target rootlessCommand))).
Proof. repeat split; done. Qed.

(** C9: [evaluateHostnameOverride] returns its argument unchanged, with a
    nil error, for every argument other than the literal [@aws]; this
    includes the arguments whose trimmed, lower-cased copy is [@aws], such
    as the upper-case spelling and the one with spaces around it: the copy
    is not what the comparison reads. *)
Theorem evaluateHostnameOverride_only_literal_aws (w : World) (hostnameOverride : string) :
  hostnameOverride ≠ "@aws" →
  evaluateHostnameOverride w hostnameOverride = (hostnameOverride, None) ∧
  normalizedKey "@AWS" = "@aws" ∧ normalizedKey " @aws " = "@aws" ∧
  evaluateHostnameOverride w "@AWS" = ("@AWS", None) ∧
  evaluateHostnameOverride w " @aws " = (" @aws ", None).
Proof.
  intros Hne. unfold evaluateHostnameOverride.
  rewrite (bool_decide_eq_true_2 _ Hne). done.
Qed.

Lemma evaluateHostnameOverride_only_literal_aws_witness :
  evaluateHostnameOverride sampleWorld "@Aws" = ("@Aws", None) ∧
  normalizedKey "@AWS" = "@aws" ∧ normalizedKey " @aws " = "@aws" ∧
  evaluateHostnameOverride sampleWorld "@AWS" = ("@AWS", None) ∧
  evaluateHostnameOverride sampleWorld " @aws " = (" @aws ", None).
Proof.
  apply (evaluateHostnameOverride_only_literal_aws sampleWorld "@Aws"). done.
Defined.

End NodeupProofs.

(** ** fi: the run loop modelled from the specification *)

Module FiProofs.
Import Fi.

Section graph.
Context (all : gmap string Task).

Lemma dependenciesOf_dom x y :
  y ∈ dependenciesOf all x → x ∈ dom all ∧ y ∈ dom all.
Proof.
  unfold dependenciesOf. destruct (all !! x) as [t|] eqn:Hx; simpl;
    [|by intros ?%not_elem_of_empty].
  unfold Dependencies. intros [_ Hy]%elem_of_intersection. split; [|done].
  apply elem_of_dom. eauto.
Qed.

Lemma dependenciesOf_lookup x t :
  all !! x = Some t → dependenciesOf all x = Dependencies all t.
Proof. unfold dependenciesOf. by intros ->. Qed.

Lemma elem_of_expand y X :
  y ∈ expand all X ↔ y ∈ X ∨ ∃ z, z ∈ X ∧ depends all z y.
Proof.
  unfold expand, depends. rewrite elem_of_union, elem_of_union_list.
  split; (intros [?|H]; [by left|right]).
  - destruct H as (Y & HY & Hy). apply list_elem_of_fmap in HY as (z & -> & Hz).
    exists z. split; [by apply elem_of_elements|done].
  - destruct H as (z & Hz & Hy). exists (dependenciesOf all z). split; [|done].
    apply list_elem_of_fmap. exists z. split; [done|by apply elem_of_elements].
Qed.

Lemma expand_incl X : X ⊆ expand all X.
Proof. intros y Hy. apply elem_of_expand. by left. Qed.

Lemma expand_dom X : X ⊆ dom all → expand all X ⊆ dom all.
Proof.
  intros HX y [Hy|(z & _ & Hy)]%elem_of_expand; [by apply HX|].
  by apply dependenciesOf_dom in Hy as [_ ?].
Qed.

Lemma iter_expand_incl n X : X ⊆ Nat.iter n (expand all) X.
Proof.
  induction n as [|n IH]; simpl; [done|].
  etrans; [exact IH|apply expand_incl].
Qed.

Lemma iter_expand_dom n X : X ⊆ dom all → Nat.iter n (expand all) X ⊆ dom all.
Proof. intros HX. induction n as [|n IH]; simpl; [done|by apply expand_dom]. Qed.

Lemma iter_expand_sound n x y :
  y ∈ Nat.iter n (expand all) (dependenciesOf all x) → tc (depends all) x y.
Proof.
  revert y. induction n as [|n IH]; simpl; intros y Hy.
  - by apply tc_once.
  - apply elem_of_expand in Hy as [Hy|(z & Hz & Hzy)]; [by apply IH|].
    eapply tc_r; [by apply IH|done].
Qed.

(** After as many rounds as there are tasks, nothing new is reached. *)
Lemma iter_expand_saturates n X :
  X ⊆ dom all →
  expand all (Nat.iter n (expand all) X) = Nat.iter n (expand all) X ∨
  n ≤ size (Nat.iter n (expand all) X).
Proof.
  intros HX. induction n as [|n IH]; simpl; [right; lia|].
  destruct IH as [Hfix|Hsize]; [left; by rewrite !Hfix|].
  destruct (decide (expand all (Nat.iter n (expand all) X) = Nat.iter n (expand all) X))
    as [Hfix|Hne]; [left; by rewrite !Hfix|].
  right. apply Nat.le_succ_l. eapply Nat.le_lt_trans; [exact Hsize|].
  apply subset_size. split; [apply expand_incl|].
  intros Hsub. apply Hne. apply set_eq. intros y. split; [apply Hsub|apply expand_incl].
Qed.

Lemma closure_fixpoint x : expand all (closure all x) = closure all x.
Proof.
  unfold closure.
  assert (dependenciesOf all x ⊆ dom all) as Hdom.
  { intros y Hy. by apply dependenciesOf_dom in Hy as [_ ?]. }
  destruct (iter_expand_saturates (size all) _ Hdom) as [Hfix|Hsize]; [done|].
  pose proof (iter_expand_dom (size all) _ Hdom) as Hsub.
  assert (Nat.iter (size all) (expand all) (dependenciesOf all x) = dom all) as Heq.
  { apply set_subseteq_size_eq; [done|]. by rewrite size_dom. }
  rewrite Heq. apply set_eq. intros y. split; [|apply expand_incl].
  by apply expand_dom.
Qed.

Lemma tc_inv_r {A} (R : relation A) x z : tc R x z → ∃ y, rtc R x y ∧ R y z.
Proof.
  induction 1 as [x y HR|x y z HR _ (y' & Hrtc & HR')].
  - exists x. split; [apply rtc_refl|done].
  - exists y'. split; [by eapply rtc_l|done].
Qed.

Lemma closure_spec x y : y ∈ closure all x ↔ tc (depends all) x y.
Proof.
  split; [apply iter_expand_sound|].
  intros (z & Hxz & Hzy)%tc_inv_r.
  assert (z = x ∨ z ∈ closure all x) as [->|Hz].
  { clear y Hzy. revert z Hxz. apply rtc_ind_r; [by left|].
    intros y z _ Hyz [->|Hy]; right.
    - by apply iter_expand_incl.
    - rewrite <- closure_fixpoint. apply elem_of_expand. right. eauto. }
  - by apply iter_expand_incl.
  - rewrite <- closure_fixpoint. apply elem_of_expand. right. eauto.
Qed.

Lemma tc_depends_dom x y : tc (depends all) x y → x ∈ dom all ∧ y ∈ dom all.
Proof.
  induction 1 as [x y H|x y z H _ [_ IH]];
    apply dependenciesOf_dom in H as [? ?]; done.
Qed.

Lemma elem_of_cyclic x : x ∈ cyclic all ↔ tc (depends all) x x.
Proof.
  unfold cyclic. rewrite list_elem_of_filter, elem_of_elements, closure_spec.
  split; [by intros [? _]|]. intros H. split; [done|].
  by apply tc_depends_dom in H as [? _].
Qed.

Lemma cyclic_nil : cyclic all = [] ↔ acyclic all.
Proof.
  split.
  - intros Hnil x Hx. apply elem_of_cyclic in Hx. rewrite Hnil in Hx.
    by apply elem_of_nil in Hx.
  - intros Hac. destruct (cyclic all) as [|x l] eqn:Hc; [done|].
    exfalso. apply (Hac x), elem_of_cyclic. rewrite Hc. apply list_elem_of_here.
Qed.

End graph.



(** *** The run loop *)

(** The number of calls of the [Run] of task [k] so far. *)
Definition att (st : State) (k : string) : nat := default 0 (attempts st !! k).

Lemma elem_of_runnable all d k :
  k ∈ runnable all d ↔ ∃ t, all !! k = Some t ∧ ready all d (k, t).
Proof.
  unfold runnable. rewrite list_elem_of_fmap. split.
  - intros ([k' t] & -> & [Hr Hin%elem_of_map_to_list]%list_elem_of_filter). eauto.
  - intros (t & Hk & Hr). exists (k, t). split; [done|].
    apply list_elem_of_filter. split; [done|by apply elem_of_map_to_list].
Qed.

Lemma NoDup_runnable all d : NoDup (runnable all d).
Proof.
  unfold runnable. eapply sublist_NoDup; [apply (NoDup_fst_map_to_list all)|].
  apply fmap_sublist, sublist_filter.
Qed.

Lemma runnable_dom all d k : k ∈ runnable all d → k ∈ dom all.
Proof. intros (t & Hk & _)%elem_of_runnable. apply elem_of_dom. eauto. Qed.

Lemma runnable_ready all d k :
  k ∈ runnable all d → (k ∉ d) ∧ (dependenciesOf all k ⊆ d).
Proof.
  intros (t & Hk & Hnd & Hdeps)%elem_of_runnable.
  by rewrite (dependenciesOf_lookup all k t Hk).
Qed.

Lemma att_attempt_eq run k st : att (attempt run k st).1 k = S (att st k).
Proof. unfold att, attempt. cbn. by rewrite lookup_insert_eq. Qed.

Lemma att_attempt_ne run k k' st : k ≠ k' → att (attempt run k st).1 k' = att st k'.
Proof. intros Hne. unfold att, attempt. cbn. by rewrite lookup_insert_ne. Qed.

Lemma done_attempt run k st :
  done (attempt run k st).1 =
    if bool_decide (run k (att st k) = Succeeded) then {[k]} ∪ done st else done st.
Proof. done. Qed.

Lemma attempt_result run k st : (attempt run k st).2 = run k (att st k).
Proof. done. Qed.

Lemma attempt_frame run k st :
  done st ⊆ done (attempt run k st).1 ∧
  done (attempt run k st).1 ⊆ done st ∪ {[k]} ∧
  noProgress (attempt run k st).1 = noProgress st ∧
  budget (attempt run k st).1 = budget st ∧
  passes (attempt run k st).1 = passes st.
Proof. unfold attempt. simpl. case_bool_decide; repeat split; try done; set_solver. Qed.

Lemma attemptAll_cons run k ks st :
  attemptAll run (k :: ks) st =
    match run k (att st k) with
    | PermanentError => ((attempt run k st).1, Some k)
    | _ => attemptAll run ks (attempt run k st).1
    end.
Proof. done. Qed.

(** What a pass does not touch, and how far the done set moves. *)
Lemma attemptAll_frame run ks st st' failed :
  attemptAll run ks st = (st', failed) →
  done st ⊆ done st' ∧ done st' ⊆ done st ∪ list_to_set ks ∧
  noProgress st' = noProgress st ∧ budget st' = budget st ∧ passes st' = passes st.
Proof.
  revert st. induction ks as [|k ks IH]; intros st Heq.
  { injection Heq as <- <-. repeat split; try done. set_solver. }
  rewrite attemptAll_cons in Heq.
  pose proof (attempt_frame run k st) as (H1 & H2 & H3 & H4 & H5).
  set (st1 := (attempt run k st).1) in *. clearbody st1.
  assert (done st1 ⊆ done st ∪ list_to_set (k :: ks)) as H2'.
  { simpl. clear -H2. set_solver. }
  destruct (run k (att st k)).
  3: { injection Heq as <- <-. repeat split; assumption. }
  all: apply IH in Heq as (H6 & H7 & H8 & H9 & H10);
    (split; [by etrans|]); (split; [|split; [|split]; congruence]);
    clear -H2 H7; simpl; set_solver.
Qed.

(** A pass in which no call of [Run] fails permanently attempts every task
    of its list once. *)
Lemma attemptAll_no_permanent run ks st :
  NoDup ks →
  (∀ k, k ∈ ks → run k (att st k) ≠ PermanentError) →
  ∃ st', attemptAll run ks st = (st', None) ∧
    (∀ k, k ∈ done st' ↔ k ∈ done st ∨ (k ∈ ks ∧ run k (att st k) = Succeeded)) ∧
    (∀ k, att st' k = if decide (k ∈ ks) then S (att st k) else att st k).
Proof.
  revert st. induction ks as [|k ks IH]; intros st Hnd Hrun.
  { exists st. split; [done|]. split.
    - intros k. rewrite elem_of_nil. naive_solver.
    - intros k. by rewrite decide_False by apply not_elem_of_nil. }
  apply NoDup_cons in Hnd as [Hk Hnd]. rewrite attemptAll_cons.
  assert (∀ k', k' ∈ ks → att (attempt run k st).1 k' = att st k') as Hsame.
  { intros k' Hk'. apply att_attempt_ne. by intros ->. }
  pose proof (att_attempt_eq run k st) as Hatt1.
  pose proof (λ k' (Hne : k ≠ k'), att_attempt_ne run k k' st Hne) as Hattn.
  pose proof (done_attempt run k st) as Hdone1.
  set (st1 := (attempt run k st).1) in *. clearbody st1.
  destruct (IH st1 Hnd) as (st' & Heq & Hdone & Hatt').
  { intros k' Hk'. rewrite Hsame by done. apply Hrun. by right. }
  exists st'. split.
  { destruct (run k (att st k)) eqn:Hr; [done..|].
    exfalso. eapply Hrun; [by left|done]. }
  split.
  - intros k'. rewrite Hdone, elem_of_cons, Hdone1.
    case_bool_decide as Hs.
    + rewrite elem_of_union, elem_of_singleton. split.
      * intros [[->|?]|[? ?]]; [right; split; [by left|done]|by left|].
        right. split; [by right|]. by rewrite <- Hsame.
      * intros [?|[[->|?] ?]]; [by left; right|by left; left|].
        right. split; [done|]. by rewrite Hsame.
    + split.
      * intros [?|[? ?]]; [by left|]. right. split; [by right|]. by rewrite <- Hsame.
      * intros [?|[[->|?] ?]]; [by left|done|]. right. split; [done|]. by rewrite Hsame.
  - intros k'. rewrite Hatt'. destruct (decide (k' = k)) as [->|Hne].
    + rewrite decide_False by done. rewrite decide_True by by left. done.
    + destruct (decide (k' ∈ ks)) as [Hin|Hnin].
      * rewrite decide_True by by right. by rewrite Hsame.
      * rewrite decide_False by (rewrite elem_of_cons; naive_solver).
        by apply Hattn.
Qed.

Section loop.
Context (all : gmap string Task) (maxAttempts : nat) (run : Behaviour).

(** The five ways a turn of the loop can go. *)
Inductive PassSpec (st : State) : Step → Prop :=
  | PassSuccess :
      dom all ⊆ done st →
      PassSpec st (Finished st None)
  | PassPermanent st1 k :
      ¬ dom all ⊆ done st →
      attemptAll run (runnable all (done st)) st = (st1, Some k) →
      PassSpec st (Finished (endPass st1 (noProgress st1) (budget st1))
                            (Some (Permanent k)))
  | PassProgress st1 :
      ¬ dom all ⊆ done st →
      attemptAll run (runnable all (done st)) st = (st1, None) →
      size (done st) < size (done st1) →
      PassSpec st (Continue (endPass st1 0 maxAttempts))
  | PassStagnation st1 :
      ¬ dom all ⊆ done st →
      attemptAll run (runnable all (done st)) st = (st1, None) →
      ¬ size (done st) < size (done st1) →
      budget st1 - 1 = 0 →
      PassSpec st (Finished (endPass st1 (S (noProgress st1)) (budget st1 - 1))
                            (Some (Stagnation (unresolved all st1))))
  | PassRetry st1 :
      ¬ dom all ⊆ done st →
      attemptAll run (runnable all (done st)) st = (st1, None) →
      ¬ size (done st) < size (done st1) →
      budget st1 - 1 ≠ 0 →
      PassSpec st (Continue (endPass st1 (S (noProgress st1)) (budget st1 - 1))).

Lemma pass_spec st : PassSpec st (pass all maxAttempts run st).
Proof.
  unfold pass. case_bool_decide as Hdone; [by constructor|].
  destruct (attemptAll run (runnable all (done st)) st) as [st1 [k|]] eqn:Hatt.
  { by constructor. }
  repeat case_bool_decide; by constructor.
Qed.

(** An invariant of the turns holds of the state in which the loop ends. *)
Lemma loop_invariant (I : State → Prop) (Q : State → option RunError → Prop) :
  (∀ st, I st →
     match pass all maxAttempts run st with
     | Continue st' => I st'
     | Finished st' err => Q st' err
     end) →
  ∀ fuel st st' err,
    I st → loop fuel all maxAttempts run st = Some (st', err) → Q st' err.
Proof.
  intros Hstep fuel. induction fuel as [|fuel IH]; intros st st' err HI Hloop;
    simpl in Hloop; [done|].
  specialize (Hstep st HI).
  destruct (pass all maxAttempts run st) as [st1|st1 err1];
    [exact (IH _ _ _ Hstep Hloop)|].
  by simplify_eq.
Qed.

(** What is left to do: the pending tasks, each worth a full budget, and
    the budget that remains. *)
Definition potential (st : State) : nat :=
  size (dom all ∖ done st) * S maxAttempts + budget st.

Lemma pending_shrinks (d d' : gset string) :
  d ⊆ d' → d' ⊆ d ∪ dom all → size d < size d' →
  size (dom all ∖ d') < size (dom all ∖ d).
Proof.
  intros Hsub Hdom Hsize.
  destruct (decide (d' ∖ d = ∅)) as [Hempty|Hne].
  { assert (d' ⊆ d) as Hback by set_solver.
    apply subseteq_size in Hback. lia. }
  apply set_choose_L in Hne as [x Hx]. apply subset_size.
  split; [set_solver|]. intros Hback.
  assert (x ∈ dom all ∖ d) as Hin by set_solver.
  apply Hback in Hin. set_solver.
Qed.

Lemma pass_potential st st' :
  pass all maxAttempts run st = Continue st' → potential st' < potential st.
Proof.
  intros Hpass. pose proof (pass_spec st) as Hspec. rewrite Hpass in Hspec.
  inversion Hspec as [| |st1 _ Hatt Hsize|
                      |st1 _ Hatt Hsize Hbudget]; subst; unfold potential; simpl.
  - apply attemptAll_frame in Hatt as (H1 & H2 & _).
    assert (size (dom all ∖ done st1) < size (dom all ∖ done st)).
    { apply pending_shrinks; [done| |done].
      intros k [Hk|Hk%elem_of_list_to_set]%H2%elem_of_union; [set_solver|].
      apply elem_of_union_r. by eapply runnable_dom. }
    nia.
  - apply attemptAll_frame in Hatt as (H1 & _ & _ & H4 & _).
    assert (size (dom all ∖ done st1) ≤ size (dom all ∖ done st)).
    { apply subseteq_size. set_solver. }
    assert (size (dom all ∖ done st1) * S maxAttempts
            ≤ size (dom all ∖ done st) * S maxAttempts) by nia.
    lia.
Qed.

(** The loop ends before the bound on its turns is reached. *)
Lemma loop_total fuel st :
  potential st < fuel → is_Some (loop fuel all maxAttempts run st).
Proof.
  revert st. induction fuel as [|fuel IH]; intros st Hlt; [lia|]. simpl.
  destruct (pass all maxAttempts run st) as [st1|st1 err] eqn:Hpass; [|eauto].
  apply IH. apply pass_potential in Hpass. lia.
Qed.

Lemma RunTasks_total : is_Some (RunTasks all maxAttempts run).
Proof.
  unfold RunTasks. destruct (cyclic all); [|eauto].
  apply loop_total. unfold potential, turns, initial. simpl.
  rewrite difference_empty_L, size_dom. lia.
Qed.

End loop.

Section order.
Context (all : gmap string Task) (maxAttempts : nat) (run : Behaviour).

(** Every call of [Run] in the log is for a task of the collection, comes
    after a successful call for each of its dependencies, and after no
    successful call for the task itself. *)
Definition ordered (l : list (string * RunResult)) : Prop :=
  ∀ l1 k r l2, l = l1 ++ (k, r) :: l2 →
    k ∈ dom all ∧
    (∀ d, depends all k d → (d, Succeeded) ∈ l1) ∧
    (k, Succeeded) ∉ l1.

(** The done set holds the tasks that have a successful call in the log. *)
Definition Good (st : State) : Prop :=
  done st ⊆ dom all ∧
  (∀ k, k ∈ done st ↔ (k, Succeeded) ∈ log st) ∧
  ordered (log st).

Lemma ordered_snoc l k r :
  ordered l →
  k ∈ dom all → (∀ d, depends all k d → (d, Succeeded) ∈ l) → (k, Succeeded) ∉ l →
  ordered (l ++ [(k, r)]).
Proof.
  intros Hl Hk Hdeps Hfresh l1 k' r' l2 Heq.
  destruct l2 as [|e l2 _] using rev_ind.
  - apply app_inj_tail in Heq as [-> [= -> ->]]. done.
  - rewrite app_comm_cons, app_assoc in Heq.
    apply app_inj_tail in Heq as [-> _]. by eapply Hl.
Qed.

Lemma ordered_prefix l e : ordered (l ++ [e]) → ordered l.
Proof.
  intros Hl l1 k r l2 ->. apply (Hl l1 k r (l2 ++ [e])).
  by rewrite <- app_assoc.
Qed.

Lemma Good_initial : Good (initial maxAttempts).
Proof.
  split; [set_solver|]. split.
  - intros k. simpl. rewrite elem_of_nil. set_solver.
  - intros l1 k r l2 Heq. simpl in Heq. by destruct l1.
Qed.

Lemma Good_attempt k st :
  Good st → k ∈ dom all → k ∉ done st → dependenciesOf all k ⊆ done st →
  Good (attempt run k st).1.
Proof.
  intros (Hdom & Hlog & Hord) Hk Hpending Hdeps.
  split; [|split].
  - rewrite done_attempt. case_bool_decide; set_solver.
  - intros k'. rewrite done_attempt. unfold attempt. cbn.
    rewrite elem_of_app, list_elem_of_singleton.
    case_bool_decide as Hs.
    + rewrite elem_of_union, elem_of_singleton, Hlog. unfold att in Hs.
      split; [intros [->|?]; [right; by rewrite Hs|by left]|].
      intros [?|[= -> _]]; [by right|by left].
    + rewrite Hlog. split; [by left|]. intros [?|[= -> Hr]]; [done|].
      unfold att in Hs. congruence.
  - unfold attempt. cbn. apply ordered_snoc; [done..| |].
    + intros d Hd. apply Hlog, Hdeps, Hd.
    + by rewrite <- Hlog.
Qed.

Lemma Good_attemptAll ks st st' failed :
  Good st → NoDup ks →
  (∀ k, k ∈ ks → k ∈ dom all ∧ (k ∉ done st) ∧ (dependenciesOf all k ⊆ done st)) →
  attemptAll run ks st = (st', failed) → Good st'.
Proof.
  revert st. induction ks as [|k ks IH]; intros st Hgood Hnd Hks Heq.
  { by injection Heq as <- <-. }
  apply NoDup_cons in Hnd as [Hk Hnd]. rewrite attemptAll_cons in Heq.
  destruct (Hks k) as (Hk1 & Hk2 & Hk3); [by left|].
  pose proof (Good_attempt k st Hgood Hk1 Hk2 Hk3) as Hgood1.
  pose proof (attempt_frame run k st) as (H1 & H2 & _).
  assert (∀ k', k' ∈ ks →
            k' ∈ dom all ∧ (k' ∉ done (attempt run k st).1) ∧
            (dependenciesOf all k' ⊆ done (attempt run k st).1)) as Hks'.
  { intros k' Hk'. destruct (Hks k') as (? & ? & ?); [by right|].
    split; [done|]. split; [|by etrans].
    intros [?|Hx%elem_of_singleton]%H2%elem_of_union; [done|by subst]. }
  destruct (run k (att st k)); [by eapply IH..|].
  by injection Heq as <- <-.
Qed.

Lemma Good_endPass st n b : Good st → Good (endPass st n b).
Proof. done. Qed.

Lemma Good_pass st :
  Good st →
  match pass all maxAttempts run st with
  | Continue st' => Good st'
  | Finished st' _ => Good st'
  end.
Proof.
  intros Hgood.
  assert (∀ st1 failed,
            attemptAll run (runnable all (done st)) st = (st1, failed) → Good st1)
    as Hall.
  { intros st1 failed. apply Good_attemptAll; [done|apply NoDup_runnable|].
    intros k Hk. split; [by eapply runnable_dom|by apply runnable_ready]. }
  destruct (pass_spec all maxAttempts run st); try done;
    apply Good_endPass; eauto.
Qed.

Lemma Good_RunTasks st err :
  RunTasks all maxAttempts run = Some (st, err) → Good st.
Proof.
  unfold RunTasks. destruct (cyclic all).
  - apply (loop_invariant all maxAttempts run Good (λ st _, Good st)).
    + intros st0 H0. pose proof (Good_pass st0 H0) as Hp.
      by destruct (pass all maxAttempts run st0).
    + apply Good_initial.
  - intros [= <- _]. apply Good_initial.
Qed.

(** The number of successful calls of the [Run] of task [k] in a log. *)
Definition applications (k : string) (l : list (string * RunResult)) : nat :=
  length (filter (λ e, e = (k, Succeeded)) l).

Lemma applications_absent k l : (k, Succeeded) ∉ l → applications k l = 0.
Proof.
  unfold applications. induction l as [|e l IH]; [done|].
  intros [Hne Hl]%not_elem_of_cons. rewrite filter_cons.
  rewrite decide_False by done. by apply IH.
Qed.

Lemma ordered_applications l k : ordered l → applications k l ≤ 1.
Proof.
  induction l as [|e l IH] using rev_ind; intros Hord; [unfold applications; simpl; lia|].
  specialize (IH (ordered_prefix l e Hord)).
  unfold applications in *. rewrite filter_app, length_app, filter_cons, filter_nil.
  destruct (decide (e = (k, Succeeded))) as [->|Hne]; simpl; [|lia].
  destruct (Hord l k Succeeded []) as (_ & _ & Hfresh); [done|].
  apply (applications_absent k) in Hfresh. unfold applications in Hfresh. lia.
Qed.

End order.

Lemma pass_done_monotone all maxAttempts run st st' :
  pass all maxAttempts run st = Continue st' → done st ⊆ done st'.
Proof.
  intros Hpass. pose proof (pass_spec all maxAttempts run st) as Hspec.
  rewrite Hpass in Hspec.
  inversion Hspec as [| |st1 _ Hatt _| |st1 _ Hatt _ _]; subst; simpl;
    by apply attemptAll_frame in Hatt as [? _].
Qed.

(** C4: in every run, each call of a task's [Run] comes after a successful
    call of the [Run] of every task in its dependency set, and after no
    successful call of its own [Run]: a task is applied at most once. A
    task that has been applied is done when the run ends, and neither a call
    of [Run] nor a pass of the loop takes a task out of the done set. *)
Theorem RunTasks_dependencies_first_applied_once
    (all : gmap string Task) (maxAttemptsWithNoProgress : nat) (run : Behaviour) :
  ∃ st err,
    RunTasks all maxAttemptsWithNoProgress run = Some (st, err) ∧
    (∀ l1 k r l2, log st = l1 ++ (k, r) :: l2 →
       (∃ t, all !! k = Some t ∧
             ∀ d, d ∈ Dependencies all t → (d, Succeeded) ∈ l1) ∧
       (k, Succeeded) ∉ l1) ∧
    (∀ k, applications k (log st) ≤ 1) ∧
    (∀ k, (k, Succeeded) ∈ log st ↔ k ∈ done st) ∧
    (∀ k s, done s ⊆ done (attempt run k s).1) ∧
    (∀ s s', pass all maxAttemptsWithNoProgress run s = Continue s' →
             done s ⊆ done s').
Proof.
  destruct (RunTasks_total all maxAttemptsWithNoProgress run) as [[st err] Hrun].
  exists st, err. split; [done|].
  apply Good_RunTasks in Hrun as (Hdom & Hlog & Hord).
  split; [|split; [|split; [|split]]].
  - intros l1 k r l2 Heq. destruct (Hord l1 k r l2 Heq) as (Hk & Hdeps & Hfresh).
    split; [|done]. apply elem_of_dom in Hk as [t Ht]. exists t. split; [done|].
    intros d Hd. apply Hdeps. unfold depends.
    by rewrite (dependenciesOf_lookup all k t Ht).
  - intros k. by apply (ordered_applications all).
  - intros k. by rewrite Hlog.
  - intros k s. apply attempt_frame.
  - apply pass_done_monotone.
Qed.

(** C2: when the task collection has a dependency cycle, through the task
    [x], [RunTasks] fails with a configuration error; the error names [x],
    every task it names lies on a cycle, and no task's [Run] has been
    called. *)
Theorem RunTasks_cycle_configuration_error
    (all : gmap string Task) (maxAttemptsWithNoProgress : nat) (run : Behaviour)
    (x : string) :
  tc (depends all) x x →
  ∃ st names,
    RunTasks all maxAttemptsWithNoProgress run = Some (st, Some (Configuration names)) ∧
    x ∈ names ∧
    (∀ y, y ∈ names → y ∈ dom all ∧ tc (depends all) y y) ∧
    log st = [] ∧ done st = ∅.
Proof.
  intros Hx. exists (initial maxAttemptsWithNoProgress), (cyclic all).
  assert (x ∈ cyclic all) as Hin by by apply elem_of_cyclic.
  split; [|split; [done|split; [|done]]].
  - unfold RunTasks. destruct (cyclic all); [by apply elem_of_nil in Hin|done].
  - intros y Hy%elem_of_cyclic. split; [|done]. by apply tc_depends_dom in Hy as [? _].
Qed.

Section convergence.
Context (all : gmap string Task) (maxAttempts : nat) (run : Behaviour).

Lemma not_subseteq_choose (X Y : gset string) : ¬ X ⊆ Y → ∃ x, x ∈ X ∧ x ∉ Y.
Proof.
  intros Hno. destruct (decide (X ∖ Y = ∅)) as [Hempty|Hne].
  - exfalso. apply Hno. set_solver.
  - apply set_choose_L in Hne as [x Hx]. exists x. set_solver.
Qed.

Lemma closure_depends k d :
  acyclic all → depends all k d → closure all d ⊂ closure all k.
Proof.
  intros Hac Hkd. split.
  - intros z Hz%closure_spec. apply closure_spec. by eapply tc_l.
  - intros Hsub. apply (Hac d), closure_spec, Hsub, closure_spec. by apply tc_once.
Qed.

(** Without a cycle, some pending task is ready. *)
Lemma exists_ready (d : gset string) k :
  acyclic all → k ∈ dom all → k ∉ d → ∃ r, r ∈ runnable all d.
Proof.
  intros Hac. remember (closure all k) as X eqn:HX. revert k HX.
  induction (set_wf X) as [X _ IH]. intros k -> Hk Hpending.
  apply elem_of_dom in Hk as [t Ht].
  destruct (decide (Dependencies all t ⊆ d)) as [Hready|Hblocked].
  { exists k. apply elem_of_runnable. exists t. by split. }
  apply not_subseteq_choose in Hblocked as (x & Hx & Hxd).
  assert (depends all k x) as Hkx.
  { unfold depends. by rewrite (dependenciesOf_lookup all k t Ht). }
  apply (IH (closure all x)) with x; [by apply closure_depends|done| |done].
  by apply dependenciesOf_dom in Hkx as [_ ?].
Qed.

(** A turn of the loop when no call of [Run] fails permanently: every ready
    task is attempted once, and the turn ends in one of three ways. *)
Lemma pass_no_permanent st :
  (∀ k, k ∈ runnable all (done st) → run k (att st k) ≠ PermanentError) →
  ¬ dom all ⊆ done st →
  ∃ st1,
    (∀ k, k ∈ done st1 ↔
          k ∈ done st ∨ (k ∈ runnable all (done st) ∧ run k (att st k) = Succeeded)) ∧
    (∀ k, att st1 k =
          if decide (k ∈ runnable all (done st)) then S (att st k) else att st k) ∧
    budget st1 = budget st ∧ passes st1 = passes st ∧
    done st ⊆ done st1 ∧
    ((size (done st) < size (done st1) ∧
      pass all maxAttempts run st = Continue (endPass st1 0 maxAttempts)) ∨
     (done st1 = done st ∧ budget st1 - 1 = 0 ∧
      pass all maxAttempts run st =
        Finished (endPass st1 (S (noProgress st1)) (budget st1 - 1))
                 (Some (Stagnation (unresolved all st1)))) ∨
     (done st1 = done st ∧ budget st1 - 1 ≠ 0 ∧
      pass all maxAttempts run st =
        Continue (endPass st1 (S (noProgress st1)) (budget st1 - 1)))).
Proof.
  intros Hrun Hpending.
  destruct (attemptAll_no_permanent run (runnable all (done st)) st)
    as (st1 & Hatt & Hdone & Hcount); [apply NoDup_runnable|done|].
  pose proof (attemptAll_frame _ _ _ _ _ Hatt) as (Hsub & _ & _ & Hb & Hp).
  exists st1. do 5 (split; [done|]).
  assert (¬ size (done st) < size (done st1) → done st1 = done st) as Hsame.
  { intros Hsize. symmetry. apply set_subseteq_size_eq; [done|lia]. }
  destruct (pass_spec all maxAttempts run st)
    as [Hd|st2 k _ Hatt2|st2 _ Hatt2 Hsize|st2 _ Hatt2 Hsize Hz|st2 _ Hatt2 Hsize Hz];
    [done|congruence|..]; rewrite Hatt in Hatt2; injection Hatt2 as <-.
  - by left.
  - right; left. auto.
  - right; right. auto.
Qed.

(** When every call of [Run] succeeds and there is no cycle, a turn with
    tasks pending marks every ready task done and goes on. *)
Lemma pass_all_succeed st :
  acyclic all →
  (∀ k i, k ∈ dom all → run k i = Succeeded) →
  ¬ dom all ⊆ done st →
  ∃ st1,
    pass all maxAttempts run st = Continue (endPass st1 0 maxAttempts) ∧
    (∀ k, k ∈ done st1 ↔ k ∈ done st ∨ k ∈ runnable all (done st)) ∧
    passes st1 = passes st.
Proof.
  intros Hac Hok Hpending.
  destruct (pass_no_permanent st) as (st1 & Hdone & _ & _ & Hp & _ & Hpass);
    [|done|].
  { intros k Hk. rewrite Hok; [done|by eapply runnable_dom]. }
  assert (∀ k, k ∈ done st1 ↔ k ∈ done st ∨ k ∈ runnable all (done st)) as Hdone'.
  { intros k. rewrite Hdone. split; [naive_solver|].
    intros [?|Hk]; [by left|right]. split; [done|].
    apply Hok. by eapply runnable_dom. }
  exists st1.
  destruct (not_subseteq_choose _ _ Hpending) as (k & Hk & Hkd).
  destruct (exists_ready (done st) k Hac Hk Hkd) as [r Hr].
  assert (done st1 ≠ done st) as Hne.
  { intros Heq. apply runnable_ready in Hr as Hr'. destruct Hr' as [Hr' _].
    apply Hr'. rewrite <- Heq. apply Hdone'. by right. }
  destruct Hpass as [[_ Hpass]|[[? _]|[? _]]]; done.
Qed.

(** What holds at every turn of a run in which every call succeeds: each
    pending task heads a dependency chain one longer than the number of
    passes made, and some chain is as long as that number. *)
Definition Layered (st : State) : Prop :=
  done st ⊆ dom all ∧
  (∀ k, k ∈ dom all → k ∉ done st →
        ∃ c, chain all (k :: c) ∧ length (k :: c) = S (passes st)) ∧
  (∃ c, chain all c ∧ length c = passes st).

Lemma Layered_initial : Layered (initial maxAttempts).
Proof.
  split; [set_solver|]. split.
  - intros k Hk _. exists []. by repeat split.
  - by exists [].
Qed.

Lemma Layered_pass st :
  acyclic all →
  (∀ k i, k ∈ dom all → run k i = Succeeded) →
  Layered st →
  match pass all maxAttempts run st with
  | Continue st' => Layered st'
  | Finished st' err => err = None ∧ dom all ⊆ done st' ∧ Layered st'
  end.
Proof.
  intros Hac Hok (Hdom & Hheads & Hlong).
  destruct (decide (dom all ⊆ done st)) as [Hall|Hpending].
  { unfold pass. rewrite bool_decide_eq_true_2 by done. by repeat split. }
  destruct (pass_all_succeed st Hac Hok Hpending) as (st1 & -> & Hdone & Hp).
  split; [|split]; simpl.
  - intros k [Hk|Hk]%Hdone; [by apply Hdom|by eapply runnable_dom].
  - intros k Hk Hkd. rewrite Hp.
    assert (k ∉ done st) as Hkd0 by (intros ?; apply Hkd, Hdone; by left).
    destruct (proj1 (elem_of_dom _ _) Hk) as [t Ht].
    destruct (decide (Dependencies all t ⊆ done st)) as [Hready|Hblocked].
    { exfalso. apply Hkd, Hdone. right. apply elem_of_runnable. exists t. by split. }
    apply not_subseteq_choose in Hblocked as (x & Hx & Hxd).
    assert (depends all k x) as Hkx.
    { unfold depends. by rewrite (dependenciesOf_lookup all k t Ht). }
    destruct (Hheads x) as (c & Hc & Hlen); [|done|].
    { by apply dependenciesOf_dom in Hkx as [_ ?]. }
    exists (x :: c). split; [exact (conj Hk (conj Hkx Hc))|]. simpl in *. lia.
  - rewrite Hp. destruct (not_subseteq_choose _ _ Hpending) as (k & Hk & Hkd).
    destruct (Hheads k Hk Hkd) as (c & Hc & Hlen). by exists (k :: c).
Qed.

(** *** One task that fails transiently before it succeeds *)

(** The task [k] fails transiently exactly [K] times and then succeeds. *)
Definition failsThenSucceeds (run : Behaviour) (k : string) (K : nat) : Prop :=
  (∀ i, i < K → run k i = TransientError) ∧ run k K = Succeeded.

(** The states in which the run loop starts a turn. *)
Inductive reached (all : gmap string Task) (maxAttempts : nat) (run : Behaviour)
    : State → Prop :=
  | reached_initial : reached all maxAttempts run (initial maxAttempts)
  | reached_pass st st' :
      reached all maxAttempts run st →
      pass all maxAttempts run st = Continue st' →
      reached all maxAttempts run st'.

Section transient.
Context (A : string) (K : nat).

Lemma att_endPass st n b k : att (endPass st n b) k = att st k.
Proof. done. Qed.

Lemma att_Some st k n : att st k = S n → attempts st !! k = Some (S n).
Proof. unfold att. destruct (attempts st !! k); simpl; [by intros ->|done]. Qed.

(** Without a cycle, a pending task or one of the tasks it waits on, directly
    or not, is ready. *)
Lemma exists_ready_below (d : gset string) k :
  acyclic all → k ∈ dom all → k ∉ d →
  ∃ r, r ∈ runnable all d ∧ rtc (depends all) k r.
Proof.
  intros Hac. remember (closure all k) as X eqn:HX. revert k HX.
  induction (set_wf X) as [X _ IH]. intros k -> Hk Hpending.
  apply elem_of_dom in Hk as [t Ht].
  destruct (decide (Dependencies all t ⊆ d)) as [Hready|Hblocked].
  { exists k. split; [|done]. apply elem_of_runnable. exists t. by split. }
  apply not_subseteq_choose in Hblocked as (x & Hx & Hxd).
  assert (depends all k x) as Hkx.
  { unfold depends. by rewrite (dependenciesOf_lookup all k t Ht). }
  destruct (IH (closure all x)) with x as (r & Hr & Hxr);
    [by apply closure_depends|done| |done|].
  { by apply dependenciesOf_dom in Hkx as [_ ?]. }
  exists r. split; [done|]. by eapply rtc_l.
Qed.

Lemma unresolved_pending st k :
  k ∈ (unresolved all st).*1 ↔ k ∈ dom all ∧ k ∉ done st.
Proof.
  unfold unresolved. rewrite <- list_fmap_compose. rewrite list_elem_of_fmap. split.
  - intros ([k' t] & -> & [Hnd Hin%elem_of_map_to_list]%list_elem_of_filter).
    split; [|done]. apply elem_of_dom. by exists t.
  - intros [[t Ht]%elem_of_dom Hnd]. exists (k, t). split; [done|].
    apply list_elem_of_filter. split; [done|by apply elem_of_map_to_list].
Qed.

(** The budget is not used up, every ready task has been called in each of
    the passes without progress, and [A] and the tasks it waits on have
    failed no more often than they do before they succeed. *)
Definition Completing (st : State) : Prop :=
  done st ⊆ dom all ∧ 0 < budget st ∧
  (∀ k, k ∈ runnable all (done st) → maxAttempts ≤ budget st + att st k) ∧
  (∀ k Kk, rtc (depends all) A k → failsThenSucceeds run k Kk →
     (k ∉ done st → att st k ≤ Kk) ∧ (k ∈ done st → att st k = S Kk)).

Lemma Completing_pass st :
  acyclic all → A ∈ dom all →
  (∀ k i, k ∈ dom all → run k i ≠ PermanentError) →
  (∀ k, rtc (depends all) A k → ∃ Kk, Kk < maxAttempts ∧ failsThenSucceeds run k Kk) →
  failsThenSucceeds run A K →
  Completing st →
  match pass all maxAttempts run st with
  | Continue st' => Completing st'
  | Finished st' err =>
      A ∈ done st' ∧ att st' A = S K ∧
      (err = None ∨ ∃ rep, err = Some (Stagnation rep) ∧ (A ∉ rep.*1))
  end.
Proof.
  intros Hac HA Hperm Hgood HK (Hdom & Hpos & Hworn & Hcount).
  assert (0 < maxAttempts) as Hmax.
  { destruct (Hgood A) as (KA & ? & _); [done|lia]. }
  destruct (decide (dom all ⊆ done st)) as [Hall|Hpending].
  { unfold pass. rewrite bool_decide_eq_true_2 by done.
    split; [by apply Hall|]. split; [|by left].
    apply (Hcount A K); [done..|]. by apply Hall. }
  destruct (pass_no_permanent st)
    as (st1 & Hdone & Hatt & Hb & Hp & Hsub & Hpass); [|done|].
  { intros k Hk. apply Hperm. by eapply runnable_dom. }
  assert (done st1 ⊆ dom all) as Hdom1.
  { intros k [Hk|[Hk _]]%Hdone; [by apply Hdom|by eapply runnable_dom]. }
  assert (∀ k Kk, rtc (depends all) A k → failsThenSucceeds run k Kk →
            (k ∉ done st1 → att st1 k ≤ Kk) ∧ (k ∈ done st1 → att st1 k = S Kk))
    as Hcount1.
  { intros k Kk Hk [Hfail Hsucc].
    destruct (Hcount k Kk Hk (conj Hfail Hsucc)) as [Hpend Hfin].
    rewrite (Hatt k). destruct (decide (k ∈ runnable all (done st))) as [Hr|Hr].
    - pose proof (runnable_ready all _ _ Hr) as [Hkd _]. specialize (Hpend Hkd).
      destruct (decide (att st k = Kk)) as [Heq|Hne].
      + split; [|intros _; by rewrite Heq].
        intros Hno. exfalso. apply Hno, Hdone. right. split; [done|].
        by rewrite Heq.
      + split; [intros _; lia|]. intros [?|[_ Hs]]%Hdone; [done|].
        rewrite Hfail in Hs by lia. done.
    - split.
      + intros Hno. apply Hpend. intros Hin. apply Hno, Hdone. by left.
      + intros [?|[? _]]%Hdone; [by apply Hfin|done]. }
  destruct Hpass as [[Hgrow ->]|[(Hsame & Hzero & ->)|(Hsame & Hnz & ->)]].
  - split; [done|]. split; [done|]. split; [|done].
    intros k _. simpl. lia.
  - assert (A ∈ done st) as HAdone.
    { destruct (decide (A ∈ done st)) as [|HAd]; [done|]. exfalso.
      destruct (exists_ready_below (done st) A Hac HA HAd) as (r & Hr & HAr).
      pose proof (runnable_ready all _ _ Hr) as [Hrd _].
      destruct (Hgood r HAr) as (Kr & HKr & Hflaky).
      destruct (Hcount r Kr HAr Hflaky) as [Hle _]. specialize (Hle Hrd).
      specialize (Hworn r Hr).
      assert (att st r = Kr) as Heq by lia.
      apply Hrd. rewrite <- Hsame. apply Hdone. right. split; [done|].
      rewrite Heq. apply Hflaky. }
    simpl. rewrite Hsame. split; [done|]. split.
    + rewrite att_endPass. apply (Hcount1 A K); [done..|]. by rewrite Hsame.
    + right. eexists. split; [done|]. rewrite unresolved_pending, Hsame.
      by intros [_ ?].
  - split; [done|]. split; [simpl; lia|]. split; [|done].
    intros k Hk. simpl in *. rewrite Hsame in Hk.
    rewrite att_endPass, (Hatt k), decide_True by done.
    specialize (Hworn k Hk). lia.
Qed.

(** The task [A] is not done; while it is ready, its failures and the
    remaining budget add up to the budget of the run; before that it has not
    been called. *)
Definition Failing (st : State) : Prop :=
  reached all maxAttempts run st ∧ (A ∉ done st) ∧ 0 < budget st ∧
  (A ∈ runnable all (done st) → budget st + att st A = maxAttempts) ∧
  (A ∉ runnable all (done st) → att st A = 0).

Lemma Failing_pass st :
  A ∈ dom all →
  (∀ k i, k ∈ dom all → run k i ≠ PermanentError) →
  (∀ i, i < K → run A i = TransientError) →
  0 < maxAttempts → maxAttempts ≤ K →
  (∀ st k, reached all maxAttempts run st →
     A ∈ runnable all (done st) → att st A < K →
     k ∈ runnable all (done st) → k ≠ A → run k (att st k) ≠ Succeeded) →
  Failing st →
  match pass all maxAttempts run st with
  | Continue st' => Failing st'
  | Finished st' err =>
      ∃ rep, err = Some (Stagnation rep) ∧ (A ∉ done st') ∧ A ∈ rep.*1
  end.
Proof.
  intros HA Hperm Hfail Hmax HK Hquiet (Hreached & HAd & Hpos & Hready & Hnever).
  assert (¬ dom all ⊆ done st) as Hpending by (intros Hsub; by apply HAd, Hsub).
  destruct (pass_no_permanent st)
    as (st1 & Hdone & Hatt & Hb & Hp & Hsub & Hpass); [|done|].
  { intros k Hk. apply Hperm. by eapply runnable_dom. }
  assert (A ∉ done st1) as HAd1.
  { intros [?|[Hr Hs]]%Hdone; [done|].
    specialize (Hready Hr). rewrite Hfail in Hs by lia. done. }
  assert (A ∈ runnable all (done st) → done st1 = done st) as Hstuck.
  { intros Hr. apply set_eq. intros k. rewrite Hdone. split; [|by left].
    intros [?|[Hk Hs]]; [done|]. exfalso.
    specialize (Hready Hr).
    destruct (decide (k = A)) as [->|Hne].
    - rewrite Hfail in Hs by lia. done.
    - eapply (Hquiet st k); [done..|lia|done|done|done]. }
  assert (∀ rep, rep = unresolved all st1 → A ∈ rep.*1) as Hlisted.
  { intros rep ->. by apply unresolved_pending. }
  destruct Hpass as [[Hgrow Hpass]|[(Hsame & Hzero & Hpass)|(Hsame & Hnz & Hpass)]];
    rewrite Hpass.
  - assert (A ∉ runnable all (done st)) as Hblocked.
    { intros Hr. rewrite (Hstuck Hr) in Hgrow. lia. }
    split; [by eapply reached_pass|]. split; [done|]. split; [simpl; lia|].
    simpl. rewrite att_endPass, (Hatt A), decide_False by done.
    rewrite (Hnever Hblocked). split; [intros _; lia|done].
  - eexists. split; [done|]. split; [done|]. by apply Hlisted.
  - split; [by eapply reached_pass|]. split; [done|]. split; [simpl; lia|].
    simpl. rewrite Hsame, att_endPass, (Hatt A).
    destruct (decide (A ∈ runnable all (done st))) as [Hr|Hr].
    + split; [|done]. intros _. specialize (Hready Hr). lia.
    + split; [done|]. intros _. by apply Hnever.
Qed.

End transient.

End convergence.

(** C1: when the dependency relation has no cycle and every call of a
    task's [Run] succeeds, the run ends with success and every task done,
    and the number of passes is the length, counted in tasks, of some
    dependency chain, and so at most the length of the longest one: it is at
    most any bound on the length of the dependency chains. *)
Theorem RunTasks_acyclic_converges
    (all : gmap string Task) (maxAttemptsWithNoProgress : nat) (run : Behaviour) :
  acyclic all →
  (∀ k i, k ∈ dom all → run k i = Succeeded) →
  ∃ st,
    RunTasks all maxAttemptsWithNoProgress run = Some (st, None) ∧
    done st = dom all ∧
    (∃ c, chain all c ∧ passes st = length c) ∧
    (∀ longest, (∀ c, chain all c → length c ≤ longest) → passes st ≤ longest).
Proof.
  intros Hac Hok.
  destruct (RunTasks_total all maxAttemptsWithNoProgress run) as [[st err] Hrun].
  assert (err = None ∧ dom all ⊆ done st ∧ Layered all st)
    as (-> & Hall & Hdom & _ & c & Hc & Hlen).
  { revert Hrun. unfold RunTasks.
    rewrite (proj2 (cyclic_nil all) Hac).
    apply (loop_invariant all maxAttemptsWithNoProgress run (Layered all)
             (λ st err, err = None ∧ dom all ⊆ done st ∧ Layered all st)).
    - intros st0. by apply Layered_pass.
    - apply Layered_initial. }
  exists st. split; [done|]. split; [by apply set_eq; split; auto|].
  split; [by exists c|].
  intros longest Hbound. rewrite <- Hlen. by apply Hbound.
Qed.

(** C3, as amended: a task [A] fails transiently exactly [K] times and then
    succeeds, in a collection without a cycle in which no call of a task
    fails permanently. When [K] is less than the no-progress budget and
    every task that [A] waits on, directly or not, also succeeds after
    fewer transient failures than the budget, the run completes [A], after
    [K + 1] calls of it; if the run then fails, it is with a stagnation
    error that does not list [A]. When [K] is at least the budget, which is
    positive, and no other task is completed in a pass in which [A] is
    called and fails, so that nothing resets the no-progress counter in
    between, the run fails with a stagnation error that lists [A]. *)
Theorem RunTasks_transient_failures
    (all : gmap string Task) (maxAttemptsWithNoProgress : nat) (run : Behaviour)
    (A : string) (K : nat) :
  acyclic all → A ∈ dom all →
  failsThenSucceeds run A K →
  (∀ k i, k ∈ dom all → run k i ≠ PermanentError) →
  (K < maxAttemptsWithNoProgress →
   (∀ k, tc (depends all) A k →
      ∃ Kk, Kk < maxAttemptsWithNoProgress ∧ failsThenSucceeds run k Kk) →
   ∃ st err,
     RunTasks all maxAttemptsWithNoProgress run = Some (st, err) ∧
     A ∈ done st ∧ attempts st !! A = Some (S K) ∧
     (err = None ∨ ∃ unresolved, err = Some (Stagnation unresolved) ∧
                                 (A ∉ unresolved.*1))) ∧
  (0 < maxAttemptsWithNoProgress → maxAttemptsWithNoProgress ≤ K →
   (∀ st k, reached all maxAttemptsWithNoProgress run st →
      A ∈ runnable all (done st) → att st A < K →
      k ∈ runnable all (done st) → k ≠ A → run k (att st k) ≠ Succeeded) →
   ∃ st unresolved,
     RunTasks all maxAttemptsWithNoProgress run = Some (st, Some (Stagnation unresolved)) ∧
     (A ∉ done st) ∧ A ∈ unresolved.*1).
Proof.
  intros Hac HA HAK Hperm.
  destruct (RunTasks_total all maxAttemptsWithNoProgress run) as [[st err] Hrun].
  split.
  - intros HK Hdeps.
    assert (∀ k, rtc (depends all) A k →
              ∃ Kk, Kk < maxAttemptsWithNoProgress ∧ failsThenSucceeds run k Kk)
      as Hgood.
    { intros k [<-|Hk]%rtc_tc; [by exists K|by apply Hdeps]. }
    assert (A ∈ done st ∧ att st A = S K ∧
            (err = None ∨ ∃ rep, err = Some (Stagnation rep) ∧ (A ∉ rep.*1)))
      as (Hdone & Hatt & Herr).
    { revert Hrun. unfold RunTasks. rewrite (proj2 (cyclic_nil all) Hac).
      apply (loop_invariant all maxAttemptsWithNoProgress run
               (Completing all maxAttemptsWithNoProgress run A)
               (λ st err, A ∈ done st ∧ att st A = S K ∧
                  (err = None ∨ ∃ rep, err = Some (Stagnation rep) ∧ (A ∉ rep.*1)))).
      - intros st0. by apply Completing_pass.
      - split; [set_solver|]. split; [simpl; lia|]. split.
        + intros k _. simpl. lia.
        + intros k Kk _ _. split; [|set_solver]. intros _.
          unfold att. simpl. rewrite lookup_empty. simpl. lia. }
    exists st, err. split; [done|]. split; [done|]. split; [by apply att_Some|done].
  - intros Hpos Hle Hquiet.
    assert (∃ rep, err = Some (Stagnation rep) ∧ (A ∉ done st) ∧ A ∈ rep.*1)
      as (rep & -> & Hnd & Hrep).
    { revert Hrun. unfold RunTasks. rewrite (proj2 (cyclic_nil all) Hac).
      apply (loop_invariant all maxAttemptsWithNoProgress run
               (Failing all maxAttemptsWithNoProgress run A)
               (λ st err, ∃ rep, err = Some (Stagnation rep) ∧ (A ∉ done st) ∧
                                 A ∈ rep.*1)).
      - intros st0. apply (Failing_pass all maxAttemptsWithNoProgress run A K);
          try done. by destruct HAK.
      - split; [constructor|]. split; [set_solver|]. split; [done|].
        assert (att (initial maxAttemptsWithNoProgress) A = 0) as Hzero.
        { unfold att. simpl. by rewrite lookup_empty. }
        rewrite Hzero. split; [intros _; simpl; lia|done]. }
    by exists st, rep.
Qed.

(** The scenario of the specification: [X] depends on [Y] and [Y] on [X];
    [W] waits on [X] and [V] on nothing. *)
Definition task (refs : list string) : Task := {| references := refs |}.
Definition cycleXY : gmap string Task :=
  {[ "X" := task ["Y"]; "Y" := task ["X"]; "W" := task ["X"]; "V" := task [] ]}.
Definition succeed : Behaviour := λ _ _, Succeeded.

Lemma cycleXY_cycle : tc (depends cycleXY) "X" "X".
Proof.
  apply tc_l with "Y"; [|apply tc_once];
    unfold depends; apply (bool_decide_unpack _); vm_compute; exact I.
Qed.

Lemma RunTasks_cycle_configuration_error_witness :
  ∃ st names,
    RunTasks cycleXY 100 succeed = Some (st, Some (Configuration names)) ∧
    "X" ∈ names ∧
    (∀ y, y ∈ names → y ∈ dom cycleXY ∧ tc (depends cycleXY) y y) ∧
    log st = [] ∧ done st = ∅.
Proof. exact (RunTasks_cycle_configuration_error cycleXY 100 succeed "X" cycleXY_cycle). Defined.

(** The scenario of the specification: [A] waits on nothing, [B] and [C]
    wait on [A]; [C] also refers to a task that is not in the run. *)
Definition fanOut : gmap string Task :=
  {[ "A" := task []; "B" := task ["A"]; "C" := task ["A"; "Z"] ]}.

(** [A] fails transiently [K] times and then succeeds; the others
    succeed. *)
Definition flaky (K : nat) : Behaviour :=
  λ k i, if bool_decide (k = "A" ∧ i < K) then TransientError else Succeeded.

Lemma fanOut_acyclic : acyclic fanOut.
Proof. apply cyclic_nil. vm_compute. reflexivity. Qed.

Lemma RunTasks_acyclic_converges_witness :
  ∃ st,
    RunTasks fanOut 100 succeed = Some (st, None) ∧
    done st = dom fanOut ∧
    (∃ c, chain fanOut c ∧ passes st = length c) ∧
    (∀ longest, (∀ c, chain fanOut c → length c ≤ longest) → passes st ≤ longest).
Proof.
  exact (RunTasks_acyclic_converges fanOut 100 succeed fanOut_acyclic
           (λ _ _ _, eq_refl)).
Defined.

(** One task waits on another and a third never gets through: [A] waits
    on [B], and [C] on nothing. [A] fails transiently [K] times and then
    succeeds, [B] succeeds, and every call of [C] fails transiently. *)
Definition waiting : gmap string Task :=
  {[ "A" := task ["B"]; "B" := task []; "C" := task [] ]}.

Definition stalled (K : nat) : Behaviour :=
  λ k i,
    if bool_decide (k = "A") then
      if bool_decide (i < K) then TransientError else Succeeded
    else if bool_decide (k = "C") then TransientError
    else Succeeded.

Lemma waiting_acyclic : acyclic waiting.
Proof. apply cyclic_nil. vm_compute. reflexivity. Qed.

Lemma waiting_in : "A" ∈ dom waiting.
Proof. apply (bool_decide_unpack _). vm_compute. exact I. Qed.

Lemma waiting_dom k : k ∈ dom waiting → k = "A" ∨ k = "B" ∨ k = "C".
Proof. unfold waiting. rewrite !dom_insert_L, dom_singleton_L. set_solver. Qed.

Lemma waiting_on k d :
  depends waiting k d → k = "A" ∧ d = "B".
Proof.
  intros Hd. assert (k ∈ dom waiting) as Hk by (by apply dependenciesOf_dom in Hd as [? _]).
  unfold depends in Hd.
  apply waiting_dom in Hk as [->|[->| ->]].
  - assert (dependenciesOf waiting "A" = {[ "B" ]}) as Heq by (vm_compute; reflexivity).
    rewrite Heq in Hd. set_solver.
  - assert (dependenciesOf waiting "B" = ∅) as Heq by (vm_compute; reflexivity).
    rewrite Heq in Hd. set_solver.
  - assert (dependenciesOf waiting "C" = ∅) as Heq by (vm_compute; reflexivity).
    rewrite Heq in Hd. set_solver.
Qed.

Lemma waiting_below k : tc (depends waiting) "A" k → k = "B".
Proof.
  intros Htc. inversion Htc as [? ? Hd|? y ? Hd Hrest]; subst.
  - by apply waiting_on in Hd as [_ ?].
  - apply waiting_on in Hd as [_ ->].
    inversion Hrest as [? ? Hd|? ? ? Hd _]; subst; by apply waiting_on in Hd as [? _].
Qed.

Lemma stalled_A K : failsThenSucceeds (stalled K) "A" K.
Proof.
  unfold failsThenSucceeds, stalled. split.
  - intros i Hi. rewrite bool_decide_eq_true_2 by done.
    by rewrite bool_decide_eq_true_2.
  - rewrite bool_decide_eq_true_2 by done. rewrite bool_decide_eq_false_2; [done|lia].
Qed.

Lemma stalled_B K : failsThenSucceeds (stalled K) "B" 0.
Proof. split; [intros i Hi; lia|done]. Qed.

Lemma stalled_no_permanent K k i : stalled K k i ≠ PermanentError.
Proof. unfold stalled. by repeat case_bool_decide. Qed.

Lemma stalled_quiet K st k :
  "A" ∈ runnable waiting (done st) → k ∈ runnable waiting (done st) → k ≠ "A" →
  stalled K k (att st k) ≠ Succeeded.
Proof.
  intros HA Hk Hne.
  pose proof (runnable_dom _ _ _ Hk) as [->|[->| ->]]%waiting_dom; [done| |done].
  exfalso. apply runnable_ready in HA as [_ Hdeps]. apply runnable_ready in Hk as [Hk _].
  apply Hk, Hdeps. apply (bool_decide_unpack _). vm_compute. exact I.
Qed.

Lemma RunTasks_transient_failures_witness :
  (∃ st err,
     RunTasks waiting 5 (stalled 4) = Some (st, err) ∧
     "A" ∈ done st ∧ attempts st !! "A" = Some 5 ∧
     (err = None ∨ ∃ unresolved, err = Some (Stagnation unresolved) ∧
                                 ("A" ∉ unresolved.*1))) ∧
  (∃ st unresolved,
     RunTasks waiting 5 (stalled 5) = Some (st, Some (Stagnation unresolved)) ∧
     ("A" ∉ done st) ∧ "A" ∈ unresolved.*1).
Proof.
  split.
  - apply (RunTasks_transient_failures waiting 5 (stalled 4) "A" 4 waiting_acyclic
             waiting_in (stalled_A 4) (λ k i _, stalled_no_permanent 4 k i)); [lia|].
    intros k ->%waiting_below. exists 0. split; [lia|apply stalled_B].
  - apply (RunTasks_transient_failures waiting 5 (stalled 5) "A" 5 waiting_acyclic
             waiting_in (stalled_A 5) (λ k i _, stalled_no_permanent 5 k i));
      [lia|lia|].
    intros st k _ HA _ Hk Hne. by apply stalled_quiet.
Defined.

(** Two tasks that wait on nothing: [A] fails transiently [K] times and then
    succeeds, and the call of [Z] fails permanently. *)
Definition aborting : gmap string Task := {[ "A" := task []; "Z" := task [] ]}.

Definition failing (K : nat) : Behaviour :=
  λ k i,
    if bool_decide (k = "A") then
      if bool_decide (i < K) then TransientError else Succeeded
    else PermanentError.

(** Every call of [B] fails transiently; the calls of the other tasks
    succeed. *)
Definition blocked : Behaviour :=
  λ k i, if bool_decide (k = "B") then TransientError else Succeeded.

Lemma failing_A K : failsThenSucceeds (failing K) "A" K.
Proof.
  unfold failsThenSucceeds, failing. split.
  - intros i Hi. rewrite bool_decide_eq_true_2 by done.
    by rewrite bool_decide_eq_true_2.
  - rewrite bool_decide_eq_true_2 by done. rewrite bool_decide_eq_false_2; [done|lia].
Qed.

(** C3 as stated fails, in both halves. [A] fails transiently once and then
    succeeds, and once is less than the budget of five, yet the run does not
    complete [A]: the permanent failure of [Z] in the first pass aborts it.
    [A] succeeds at its first call, yet the run does not complete it when it
    waits on [B] and every call of [B] fails transiently: [A] is never
    called. And [A] fails transiently five times, as often as the budget,
    and no task is completed, yet the run does not fail with a stagnation
    error: it fails with the permanent error of [Z]. *)
Lemma RunTasks_transient_failures_counterexample :
  (acyclic aborting ∧ "A" ∈ dom aborting ∧ failsThenSucceeds (failing 1) "A" 1 ∧
   1 < 5 ∧
   ∃ st, RunTasks aborting 5 (failing 1) = Some (st, Some (Permanent "Z")) ∧
         "A" ∉ done st) ∧
  (acyclic waiting ∧ "A" ∈ dom waiting ∧ failsThenSucceeds blocked "A" 0 ∧ 0 < 5 ∧
   ∃ st unresolved,
     RunTasks waiting 5 blocked = Some (st, Some (Stagnation unresolved)) ∧
     ("A" ∉ done st) ∧ attempts st !! "A" = None) ∧
  (failsThenSucceeds (failing 5) "A" 5 ∧ 5 ≤ 5 ∧
   ∃ st, RunTasks aborting 5 (failing 5) = Some (st, Some (Permanent "Z")) ∧
         done st = ∅).
Proof.
  assert (acyclic aborting) as Hac by (apply cyclic_nil; vm_compute; reflexivity).
  assert ("A" ∈ dom aborting) as HA by (apply (bool_decide_unpack _); vm_compute; exact I).
  split; [|split].
  - split; [done|]. split; [done|]. split; [apply failing_A|]. split; [lia|].
    eexists. split; [vm_compute; reflexivity|].
    apply (bool_decide_unpack _). vm_compute. exact I.
  - split; [apply waiting_acyclic|]. split; [apply waiting_in|].
    split; [split; [intros i Hi; lia|done]|]. split; [lia|].
    eexists _, _. split; [vm_compute; reflexivity|]. split; [|by vm_compute].
    apply (bool_decide_unpack _). vm_compute. exact I.
  - split; [apply failing_A|]. split; [lia|].
    eexists. split; [vm_compute; reflexivity|]. by vm_compute.
Qed.

Lemma RunTasks_dependencies_first_applied_once_witness :
  ∃ st err,
    RunTasks fanOut 5 (flaky 2) = Some (st, err) ∧
    (∀ l1 k r l2, log st = l1 ++ (k, r) :: l2 →
       (∃ t, fanOut !! k = Some t ∧
             ∀ d, d ∈ Dependencies fanOut t → (d, Succeeded) ∈ l1) ∧
       (k, Succeeded) ∉ l1) ∧
    (∀ k, applications k (log st) ≤ 1) ∧
    (∀ k, (k, Succeeded) ∈ log st ↔ k ∈ done st) ∧
    (∀ k s, done s ⊆ done (attempt (flaky 2) k s).1) ∧
    (∀ s s', pass fanOut 5 (flaky 2) s = Continue s' → done s ⊆ done s').
Proof. exact (RunTasks_dependencies_first_applied_once fanOut 5 (flaky 2)). Defined.

(** The run of the scenario: two passes, the no-progress counter
    untouched. *)
Example fanOut_two_passes :
  (λ r, (passes r.1, noProgress r.1, budget r.1, log r.1, r.2))
    <$> RunTasks fanOut 100 succeed =
  Some (2, 0, 100, [("A", Succeeded); ("C", Succeeded); ("B", Succeeded)], None).
Proof. vm_compute. reflexivity. Qed.

End FiProofs.

(** ** awsup *)

Module AwsupProofs.
Import Awsup.

(** The device that the loop builds at index [i]. *)
Definition deviceAt (i : nat) (sizeGB : Z) : EphemeralDevice :=
  {| DeviceName := "/dev/sd" +:+ driveLetter i;
     VirtualName := "ephemeral" +:+ pretty i;
     SizeGB := sizeGB |}.

Lemma ephemeralDevicesFrom_spec i sizes disks :
  ephemeralDevicesFrom i sizes disks =
    if bool_decide (i + length sizes ≤ 20 ∨ sizes = [])
    then Returned (disks ++ imap (λ j, deviceAt (i + j)) sizes)
    else Fatal.
Proof.
  revert i disks. induction sizes as [|s sizes IH]; intros i disks.
  { rewrite bool_decide_eq_true_2 by (by right). cbn. by rewrite app_nil_r. }
  cbn [ephemeralDevicesFrom]. case_bool_decide as Hi.
  { rewrite bool_decide_eq_false_2; [done|]. cbn. intros [?|?]; [lia|done]. }
  rewrite IH. fold (deviceAt i s). rewrite <- app_assoc.
  assert (imap (λ j, deviceAt (i + j)) (s :: sizes)
          = deviceAt i s :: imap (λ j, deviceAt (S i + j)) sizes) as ->.
  { cbn. rewrite Nat.add_0_r. f_equal. apply imap_ext. intros j z _. cbn.
    f_equal; f_equal; lia. }
  repeat case_bool_decide; try done; exfalso; cbn in *.
  - destruct H as [?| ->]; [|cbn in *]; naive_solver lia.
  - apply H. destruct H0 as [?|?]; [|done]. destruct sizes; [by right|left; cbn in *; lia].
Qed.

Lemma EphemeralDevices_spec m :
  EphemeralDevices m =
    if bool_decide (length (EphemeralDisks m) ≤ 20)
    then Returned (imap deviceAt (EphemeralDisks m))
    else Fatal.
Proof.
  unfold EphemeralDevices. rewrite ephemeralDevicesFrom_spec. cbn.
  repeat case_bool_decide; try done; exfalso.
  - destruct H as [?|Hnil]; [done|]. rewrite Hnil in H0. cbn in H0. lia.
  - apply H. by left.
Qed.

Lemma driveLetter_inj i j : i < 20 → j < 20 → driveLetter i = driveLetter j → i = j.
Proof.
  intros Hi Hj [= Heq]. apply (f_equal Ascii.nat_of_ascii) in Heq.
  rewrite !Ascii.nat_ascii_embedding in Heq by lia. lia.
Qed.

(** X1: for a machine type with at most 20 ephemeral disks,
    [EphemeralDevices] returns one device per disk, in the order of the
    disks and with their sizes; the device of disk [i] is named after the
    letter [i] places after [c], and its virtual name ends in [i]. *)
Theorem EphemeralDevices_one_per_disk (m : AWSMachineTypeInfo) :
  length (EphemeralDisks m) ≤ 20 →
  ∃ disks,
    EphemeralDevices m = Returned disks ∧
    length disks = length (EphemeralDisks m) ∧
    SizeGB <$> disks = EphemeralDisks m ∧
    (∀ i d, disks !! i = Some d →
       DeviceName d = "/dev/sd" +:+ String (Ascii.ascii_of_nat (99 + i)) EmptyString ∧
       VirtualName d = "ephemeral" +:+ pretty i ∧
       EphemeralDisks m !! i = Some (SizeGB d)).
Proof.
  intros Hlen. exists (imap deviceAt (EphemeralDisks m)).
  rewrite EphemeralDevices_spec, bool_decide_eq_true_2 by done.
  split; [done|]. split; [by rewrite length_imap|]. split.
  - apply list_eq. intros i. rewrite list_lookup_fmap, list_lookup_imap.
    by destruct (EphemeralDisks m !! i).
  - intros i d. rewrite list_lookup_imap.
    destruct (EphemeralDisks m !! i) as [size|]; [|done]. by intros [= <-].
Qed.

(** X2: [EphemeralDevices] ends the process exactly when the machine type
    has more than 20 ephemeral disks. *)
Theorem EphemeralDevices_fatal_iff (m : AWSMachineTypeInfo) :
  EphemeralDevices m = Fatal ↔ 20 < length (EphemeralDisks m).
Proof.
  rewrite EphemeralDevices_spec. case_bool_decide; split; try done; lia.
Qed.

(** X3: the devices that [EphemeralDevices] returns have pairwise distinct
    device names and pairwise distinct virtual names. *)
Theorem EphemeralDevices_names_distinct (m : AWSMachineTypeInfo)
    (disks : list EphemeralDevice) :
  EphemeralDevices m = Returned disks →
  NoDup (DeviceName <$> disks) ∧ NoDup (VirtualName <$> disks).
Proof.
  rewrite EphemeralDevices_spec. case_bool_decide as Hlen; [|done].
  intros [= <-].
  assert (∀ i d, imap deviceAt (EphemeralDisks m) !! i = Some d →
            i < 20 ∧ DeviceName d = "/dev/sd" +:+ driveLetter i ∧
            VirtualName d = "ephemeral" +:+ pretty i) as Hat.
  { intros i d. rewrite list_lookup_imap.
    destruct (EphemeralDisks m !! i) as [size|] eqn:Hi; [|done].
    intros [= <-]. apply lookup_lt_Some in Hi. split; [lia|done]. }
  split; apply NoDup_alt; intros i j x; rewrite !list_lookup_fmap;
    destruct (imap deviceAt (EphemeralDisks m) !! i) as [di|] eqn:Hi; try done;
    destruct (imap deviceAt (EphemeralDisks m) !! j) as [dj|] eqn:Hj; try done;
    cbn; intros [= <-] [= Heq];
    destruct (Hat i di Hi) as (Hilt & Hin & Hiv);
    destruct (Hat j dj Hj) as (Hjlt & Hjn & Hjv).
  - rewrite Hin, Hjn in Heq. cbn in Heq. injection Heq as Heq.
    apply (f_equal Ascii.nat_of_ascii) in Heq.
    rewrite !Ascii.nat_ascii_embedding in Heq by lia. lia.
  - rewrite Hiv, Hjv in Heq. cbn in Heq. injection Heq as Heq.
    symmetry. by apply (inj pretty).
Qed.

Lemma lookupMachineType_Some table machineType m :
  lookupMachineType table machineType = Some m →
  ∃ before after,
    table = before ++ m :: after ∧ Name m = machineType ∧
    ∀ m', m' ∈ before → Name m' ≠ machineType.
Proof.
  induction table as [|m0 table IH]; [done|]. cbn. case_bool_decide as Hn.
  - intros [= <-]. exists [], table. split; [done|]. split; [done|].
    by intros m' ?%elem_of_nil.
  - intros (before & after & -> & Hname & Hbefore)%IH.
    exists (m0 :: before), after. split; [done|]. split; [done|].
    intros m' [->|?]%elem_of_cons; auto.
Qed.

Lemma lookupMachineType_None table machineType :
  lookupMachineType table machineType = None ↔
  ∀ m, m ∈ table → Name m ≠ machineType.
Proof.
  induction table as [|m0 table IH]; cbn.
  { split; [by intros _ m ?%elem_of_nil|done]. }
  case_bool_decide as Hn.
  - split; [done|]. intros Hall. exfalso. by apply (Hall m0); [left|].
  - rewrite IH. split.
    + intros Hall m [->|?]%elem_of_cons; auto.
    + intros Hall m Hm. apply Hall. by right.
Qed.

(** X4: over any table, [GetMachineTypeInfo] returns the first entry whose
    name is the one asked for, and it returns the error, which carries that
    name, exactly when no entry has it. *)
Theorem GetMachineTypeInfo_first_match
    (table : list AWSMachineTypeInfo) (machineType : string) :
  (∀ m, GetMachineTypeInfoIn table machineType = inl m →
        ∃ before after,
          table = before ++ m :: after ∧ Name m = machineType ∧
          ∀ m', m' ∈ before → Name m' ≠ machineType) ∧
  (∀ e, GetMachineTypeInfoIn table machineType = inr e →
        e = ErrInstanceTypeNotHandled machineType ∧
        ∀ m, m ∈ table → Name m ≠ machineType) ∧
  ((∀ m, m ∈ table → Name m ≠ machineType) →
   GetMachineTypeInfoIn table machineType = inr (ErrInstanceTypeNotHandled machineType)).
Proof.
  unfold GetMachineTypeInfoIn.
  destruct (lookupMachineType table machineType) as [m0|] eqn:Hl.
  - split; [|split].
    + intros m [= <-]. by apply lookupMachineType_Some.
    + done.
    + intros Hall%lookupMachineType_None. congruence.
  - split; [done|]. split; [|done].
    intros e [= <-]. split; [done|]. by apply lookupMachineType_None.
Qed.

Lemma GetMachineTypeInfoIn_own_name table m :
  NoDup (Name <$> table) → m ∈ table →
  GetMachineTypeInfoIn table (Name m) = inl m.
Proof.
  intros Hnd Hm. unfold GetMachineTypeInfoIn.
  destruct (lookupMachineType table (Name m)) as [m0|] eqn:Hl.
  2: { exfalso. by eapply (proj1 (lookupMachineType_None _ _) Hl m). }
  f_equal. apply lookupMachineType_Some in Hl as (before & after & -> & Hname & _).
  apply list_elem_of_lookup in Hm as [i Hi].
  assert ((before ++ m0 :: after) !! length before = Some m0) as H0.
  { by rewrite lookup_app_r, Nat.sub_diag by lia. }
  assert (i = length before) as ->.
  { eapply (proj1 (NoDup_alt _) Hnd); rewrite list_lookup_fmap.
    - by rewrite Hi.
    - rewrite H0. cbn. by rewrite Hname. }
  congruence.
Qed.

Lemma MachineTypes_names_distinct : NoDup (Name <$> MachineTypes).
Proof. apply (bool_decide_unpack _). vm_compute. exact I. Qed.

(** X5: the names of the catalog are pairwise distinct, and so
    [GetMachineTypeInfo] returns every machine type of the catalog when it
    is asked for the name of that machine type. *)
Theorem GetMachineTypeInfo_catalog_own_name (m : AWSMachineTypeInfo) :
  m ∈ MachineTypes →
  NoDup (Name <$> MachineTypes) ∧ GetMachineTypeInfo (Name m) = inl m.
Proof.
  intros Hm. split; [apply MachineTypes_names_distinct|].
  by apply GetMachineTypeInfoIn_own_name; [apply MachineTypes_names_distinct|].
Qed.

(** X6: no machine type of the catalog makes [EphemeralDevices] end the
    process: each has at most 20 ephemeral disks, and the burstable ones
    have none. *)
Theorem EphemeralDevices_catalog (m : AWSMachineTypeInfo) :
  m ∈ MachineTypes →
  (∃ disks, EphemeralDevices m = Returned disks ∧
            length disks = length (EphemeralDisks m)) ∧
  (Burstable m = true → EphemeralDevices m = Returned []).
Proof.
  intros Hm.
  assert (Forall (λ m, length (EphemeralDisks m) ≤ 20 ∧
                       (Burstable m = true → EphemeralDisks m = []))
            MachineTypes) as Hall.
  { apply (bool_decide_unpack _). vm_compute. exact I. }
  rewrite Forall_forall in Hall. destruct (Hall m Hm) as [Hlen Hb].
  rewrite EphemeralDevices_spec, bool_decide_eq_true_2 by done. split.
  - eexists. split; [done|]. by rewrite length_imap.
  - intros Hburst. by rewrite (Hb Hburst).
Qed.

Definition m3xlarge : AWSMachineTypeInfo :=
  {| Name := "m3.xlarge"; Cores := 4; EphemeralDisks := [40%Z; 40%Z];
     Burstable := false |}.

Lemma m3xlarge_in_catalog : m3xlarge ∈ MachineTypes.
Proof. apply (bool_decide_unpack _). vm_compute. exact I. Qed.

Lemma EphemeralDevices_one_per_disk_witness :
  ∃ disks,
    EphemeralDevices m3xlarge = Returned disks ∧
    length disks = length (EphemeralDisks m3xlarge) ∧
    SizeGB <$> disks = EphemeralDisks m3xlarge ∧
    (∀ i d, disks !! i = Some d →
       DeviceName d = "/dev/sd" +:+ String (Ascii.ascii_of_nat (99 + i)) EmptyString ∧
       VirtualName d = "ephemeral" +:+ pretty i ∧
       EphemeralDisks m3xlarge !! i = Some (SizeGB d)).
Proof. apply (EphemeralDevices_one_per_disk m3xlarge). cbn. lia. Defined.

Example EphemeralDevices_m3xlarge :
  EphemeralDevices m3xlarge =
    Returned [ {| DeviceName := "/dev/sdc"; VirtualName := "ephemeral0"; SizeGB := 40 |};
               {| DeviceName := "/dev/sdd"; VirtualName := "ephemeral1"; SizeGB := 40 |} ].
Proof. vm_compute. reflexivity. Qed.

Lemma EphemeralDevices_names_distinct_witness :
  NoDup (DeviceName <$> imap deviceAt (EphemeralDisks m3xlarge)) ∧
  NoDup (VirtualName <$> imap deviceAt (EphemeralDisks m3xlarge)).
Proof.
  apply (EphemeralDevices_names_distinct m3xlarge). vm_compute. reflexivity.
Defined.

Lemma GetMachineTypeInfo_catalog_own_name_witness :
  NoDup (Name <$> MachineTypes) ∧ GetMachineTypeInfo (Name m3xlarge) = inl m3xlarge.
Proof. exact (GetMachineTypeInfo_catalog_own_name m3xlarge m3xlarge_in_catalog). Defined.

Lemma EphemeralDevices_catalog_witness :
  (∃ disks, EphemeralDevices m3xlarge = Returned disks ∧
            length disks = length (EphemeralDisks m3xlarge)) ∧
  (Burstable m3xlarge = true → EphemeralDevices m3xlarge = Returned []).
Proof. exact (EphemeralDevices_catalog m3xlarge m3xlarge_in_catalog). Defined.

End AwsupProofs.

(** ** nodeup: more of [Run] *)

Module NodeupMore.
Import Nodeup NodeupProofs.

(** X7: the calls that [Run] makes into the engine are an initial part of
    the sequence [NewContext], [RunTasks], [Finish], [Close], on one target
    and one task map; when [Run] returns an error it has made none of
    them. *)
Theorem Run_engine_calls_in_order (w : World) (c : NodeUpCommand) :
  (∃ t checkExisting taskMap,
     (Run w c).1 `prefix_of`
       [EvNewContext t checkExisting;
        EvRunTasks taskMap MaxAttemptsWithNoProgress;
        EvFinish t taskMap; EvClose]) ∧
  (∀ e, (Run w c).2 = Returned (Some e) → (Run w c).1 = []).
Proof.
  destruct (Run_shape w c) as [e Hb|tm Hb _|tm t chk cause Hb Hsel
    |tm t chk cause Hb Hsel|tm t chk cause Hb Hsel|tm t chk Hb Hsel]; cbn.
  1-2: split; [exists CloudInitTarget, false, ∅; apply prefix_nil|done].
  all: split; [exists t, chk, tm|done].
  - by exists [EvRunTasks tm MaxAttemptsWithNoProgress; EvFinish t tm; EvClose].
  - by exists [EvFinish t tm; EvClose].
  - by exists [EvClose].
  - by exists [].
Qed.

(** X8: the deferred [Close] of the context runs exactly when [Run] returns
    nil; when [glog.Exitf] ends the process, [NewContext] has been called
    and [Close] has not. *)
Theorem Run_Close_only_on_return (w : World) (c : NodeUpCommand) :
  (EvClose ∈ (Run w c).1 ↔ (Run w c).2 = Returned None) ∧
  (∀ msg, (Run w c).2 = Exited msg →
     (∃ t checkExisting, EvNewContext t checkExisting ∈ (Run w c).1) ∧
     EvClose ∉ (Run w c).1).
Proof.
  destruct (Run_shape w c); cbn; split.
  all: try (split; [intros Hin; set_solver|done]).
  all: try done.
  all: try (intros msg _; split; [eexists _, _; apply list_elem_of_here|set_solver]).
  split; [done|]. intros _. set_solver.
Qed.

(** The key under which [Run] stores the task of image [i]. *)
Definition imageKey (i : nat) : string := "LoadImage." +:+ pretty i.

Lemma imageKey_inj i j : imageKey i = imageKey j → i = j.
Proof. unfold imageKey. intros [= Heq]. by apply (inj pretty). Qed.

Lemma addImages_lookup_other i images taskMap key :
  (∀ j, j < length images → key ≠ imageKey (i + j)) →
  addImages i images taskMap !! key = taskMap !! key.
Proof.
  revert i taskMap. induction images as [|image images IH]; intros i taskMap Hkey;
    [done|]. cbn [addImages]. rewrite IH.
  - apply lookup_insert_ne. intros Heq. apply (Hkey 0); [cbn; lia|].
    by rewrite Nat.add_0_r.
  - intros j Hj. replace (S i + j) with (i + S j) by lia. apply Hkey. cbn. lia.
Qed.

Lemma addImages_lookup_image i images taskMap j image :
  images !! j = Some image →
  addImages i images taskMap !! imageKey (i + j) =
    Some (LoadImageTask (Source image) (Hash image)).
Proof.
  revert i taskMap j. induction images as [|image0 images IH];
    intros i taskMap j Hj; [done|]. cbn [addImages]. destruct j as [|j].
  - injection Hj as ->. rewrite addImages_lookup_other.
    + rewrite Nat.add_0_r. apply lookup_insert_eq.
    + intros j _ Heq%imageKey_inj. lia.
  - replace (i + S j) with (S i + j) by lia. by apply IH.
Qed.

(** X9: after the loop of [Run] over the images of the configuration, the
    task map holds, for every image, the load task of that image under the
    key of its index, and every other key holds what the loader put
    there. *)
Theorem addImages_lookup (images : list Image) (taskMap : gmap string Task) :
  (∀ i image, images !! i = Some image →
     addImages 0 images taskMap !! ("LoadImage." +:+ pretty i) =
       Some (LoadImageTask (Source image) (Hash image))) ∧
  (∀ key, (∀ i, i < length images → key ≠ "LoadImage." +:+ pretty i) →
     addImages 0 images taskMap !! key = taskMap !! key).
Proof.
  split.
  - intros i image Hi. by apply (addImages_lookup_image 0).
  - intros key Hkey. by apply addImages_lookup_other.
Qed.

(** X10: [evaluateSpec] leaves a cluster in which neither hostname override
    is the literal [@aws] as it is, with a nil error, whatever the metadata
    service would answer. *)
Theorem evaluateSpec_without_aws (w : World) (c : Cluster) :
  KubeletHostnameOverride c ≠ "@aws" →
  MasterKubeletHostnameOverride c ≠ "@aws" →
  evaluateSpec w c = (c, None).
Proof.
  intros Hk Hm. destruct c as [k m r]. cbn in *.
  unfold evaluateSpec, evaluateHostnameOverride. cbn.
  by rewrite !bool_decide_eq_true_2 by done.
Qed.

(** X11: when the metadata service answers, [evaluateSpec] returns nil and
    replaces each hostname override that is the literal [@aws] by the
    trimmed answer; the other override and the other fields keep their
    values. *)
Theorem evaluateSpec_resolves (w : World) (c : Cluster) (vBytes : list Byte.byte) :
  vfs_ReadFile w "metadata://aws/meta-data/local-hostname" = Ok vBytes →
  evaluateSpec w c =
    ({| KubeletHostnameOverride :=
          if bool_decide (KubeletHostnameOverride c = "@aws")
          then TrimSpace (String.string_of_list_byte vBytes)
          else KubeletHostnameOverride c;
        MasterKubeletHostnameOverride :=
          if bool_decide (MasterKubeletHostnameOverride c = "@aws")
          then TrimSpace (String.string_of_list_byte vBytes)
          else MasterKubeletHostnameOverride c;
        rest := rest c |}, None).
Proof.
  intros Hread. destruct c as [k m r]. cbn.
  unfold evaluateSpec, evaluateHostnameOverride. cbn. rewrite Hread.
  destruct (decide (k = "@aws")) as [->|Hk], (decide (m = "@aws")) as [->|Hm];
    cbn; rewrite ?(bool_decide_eq_true_2 (k ≠ _)), ?(bool_decide_eq_true_2 (m ≠ _)),
           ?(bool_decide_eq_false_2 (k = _)), ?(bool_decide_eq_false_2 (m = _)) by done;
    done.
Qed.

(** X12: when the metadata service fails, [evaluateSpec] returns the error
    of reading the local hostname as soon as an override is the literal
    [@aws]; the override that could not be resolved is left empty, and when
    it is the kubelet's, the master kubelet's is not looked at. *)
Theorem evaluateSpec_metadata_failure (w : World) (c : Cluster) (cause : string) :
  vfs_ReadFile w "metadata://aws/meta-data/local-hostname" = Err cause →
  (KubeletHostnameOverride c = "@aws" →
   evaluateSpec w c =
     ({| KubeletHostnameOverride := "";
         MasterKubeletHostnameOverride := MasterKubeletHostnameOverride c;
         rest := rest c |}, Some (ErrReadingLocalHostname cause))) ∧
  (KubeletHostnameOverride c ≠ "@aws" → MasterKubeletHostnameOverride c = "@aws" →
   evaluateSpec w c =
     ({| KubeletHostnameOverride := KubeletHostnameOverride c;
         MasterKubeletHostnameOverride := "";
         rest := rest c |}, Some (ErrReadingLocalHostname cause))).
Proof.
  intros Hread. destruct c as [k m r]. cbn.
  unfold evaluateSpec, evaluateHostnameOverride. cbn. rewrite Hread. split.
  - intros ->. done.
  - intros Hk ->. by rewrite (bool_decide_eq_true_2 (k ≠ _)) by done.
Qed.

(** The byte [sep] does not occur in the string. *)
Fixpoint free (sep : ascii) (s : string) : Prop :=
  match s with
  | EmptyString => True
  | String a s' => a ≠ sep ∧ free sep s'
  end.

Lemma LastIndexFrom_free i s sep : free sep s → LastIndexFrom i s sep = (-1)%Z.
Proof.
  revert i. induction s as [|a s IH]; intros i; cbn; [done|]. intros [Ha Hs].
  rewrite IH by done. cbn. by rewrite (proj2 (Ascii.eqb_neq a sep)).
Qed.

Lemma append_empty (s : string) : "" +:+ s = s.
Proof. done. Qed.

Lemma append_String a (s t : string) : String a s +:+ t = String a (s +:+ t).
Proof. done. Qed.

Lemma LastIndexFrom_last i dir file sep :
  (0 ≤ i)%Z → free sep file →
  LastIndexFrom i (dir +:+ String sep file) sep = (i + Z.of_nat (String.length dir))%Z.
Proof.
  intros Hi Hfile. revert i Hi. induction dir as [|a dir IH]; intros i Hi.
  - rewrite append_empty. cbn. rewrite (LastIndexFrom_free _ file sep Hfile). cbn.
    rewrite Ascii.eqb_refl. lia.
  - rewrite append_String. cbn. rewrite IH by lia.
    destruct (Z.eqb_spec (i + 1 + Z.of_nat (String.length dir)) (-1)); lia.
Qed.

Lemma substring_prefix dir rest :
  String.substring 0 (String.length dir) (dir +:+ rest) = dir.
Proof.
  induction dir as [|a dir IH].
  - rewrite append_empty. by destruct rest.
  - rewrite append_String. cbn. by rewrite IH.
Qed.

Lemma addAssets_ok w assets :
  (∀ asset, asset ∈ assets → assets_Add w asset = None) →
  addAssets w assets = mret tt.
Proof.
  induction assets as [|asset assets IH]; intros Hall; cbn; [done|].
  rewrite (Hall asset) by (by left). apply IH. intros a Ha. apply Hall. by right.
Qed.

(** X13: when the configuration names no [ConfigBase] but a
    [ClusterLocation], the base that [Run] infers is the location up to its
    last slash, and the whole location when it has no slash: that is the
    path handed to [BuildVfsPath], whose failure [Run] returns with that
    path. *)
Theorem Run_inferred_ConfigBase (w : World) (c : NodeUpCommand)
    (bytes : list Byte.byte) (config : NodeUpConfig)
    (location basePath cause : string) :
  FSRoot c ≠ "" → ConfigLocation c ≠ "" → CacheDir c ≠ "" →
  vfs_ReadFile w (ConfigLocation c) = Ok bytes →
  YamlUnmarshalConfig w bytes = Ok config →
  (∀ asset, asset ∈ Assets config → assets_Add w asset = None) →
  StringValue (ConfigBase config) = "" →
  ClusterLocation config = Some location → location ≠ "" →
  ((∃ file, location = basePath +:+ String "/" file ∧ free "/" file) ∨
   (location = basePath ∧ free "/" location)) →
  vfs_BuildVfsPath w basePath = Err cause →
  Run w c = ([], Returned (Some (ErrParseInferredConfigBase basePath cause))).
Proof.
  intros Hroot Hloc Hcache Hread Hyaml Hassets Hbase Hcl Hne Hshape Hbuild.
  assert ((if bool_decide (LastIndex location "/" ≠ (-1)%Z)
           then slice0 location (LastIndex location "/") else location) = basePath)
    as Hinfer.
  { unfold LastIndex, slice0. destruct Hshape as [(file & -> & Hfile)|[-> Hfree]].
    - rewrite LastIndexFrom_last by done.
      rewrite bool_decide_eq_true_2 by lia.
      rewrite Z.add_0_l, Nat2Z.id. apply substring_prefix.
    - rewrite LastIndexFrom_free by done. by rewrite bool_decide_eq_false_2 by auto. }
  unfold Run, buildTaskMap.
  rewrite (bool_decide_eq_false_2 (FSRoot c = "")) by done.
  rewrite (bool_decide_eq_true_2 (ConfigLocation c ≠ "")) by done.
  rewrite Hread. cbn. rewrite Hyaml. cbn.
  rewrite (bool_decide_eq_false_2 (CacheDir c = "")) by done. cbn.
  rewrite (addAssets_ok w _ Hassets). cbn.
  rewrite Hbase, Hcl. cbn.
  rewrite (bool_decide_eq_true_2 (location ≠ "")) by done.
  unfold LastIndex, slice0 in Hinfer. rewrite Hinfer, Hbuild.
  rewrite (bool_decide_eq_false_2 ("" ≠ "")) by auto. done.
Qed.

(** The sample world, with a file system that refuses every path. *)
Definition deniedWorld : World :=
  {| vfs_ReadFile := vfs_ReadFile sampleWorld;
     YamlUnmarshalConfig := YamlUnmarshalConfig sampleWorld;
     assets_Add := assets_Add sampleWorld;
     vfs_BuildVfsPath := λ _, Err "denied";
     Path_Join := Path_Join sampleWorld;
     PathClusterCompleted := PathClusterCompleted sampleWorld;
     Path_ReadFile := Path_ReadFile sampleWorld;
     YamlUnmarshalCluster := YamlUnmarshalCluster sampleWorld;
     YamlUnmarshalInstanceGroup := YamlUnmarshalInstanceGroup sampleWorld;
     FindOSTags := FindOSTags sampleWorld;
     newTemplateFunctions := newTemplateFunctions sampleWorld;
     loader_Build := loader_Build sampleWorld;
     fi_NewContext := fi_NewContext sampleWorld;
     context_RunTasks := context_RunTasks sampleWorld;
     target_Finish := target_Finish sampleWorld |}.

Lemma Run_inferred_ConfigBase_witness :
  Run deniedWorld (sampleCommand "direct") =
    ([], Returned (Some (ErrParseInferredConfigBase "s3://bucket/cluster" "denied"))).
Proof.
  apply (Run_inferred_ConfigBase deniedWorld (sampleCommand "direct") [] sampleConfig
           "s3://bucket/cluster/config" "s3://bucket/cluster" "denied");
    try done.
  left. exists "config". split; [done|]. cbn. by repeat split.
Defined.

(** The sample world, with a metadata service that fails. *)
Definition offlineWorld : World :=
  {| vfs_ReadFile := λ _, Err "no route to host";
     YamlUnmarshalConfig := YamlUnmarshalConfig sampleWorld;
     assets_Add := assets_Add sampleWorld;
     vfs_BuildVfsPath := vfs_BuildVfsPath sampleWorld;
     Path_Join := Path_Join sampleWorld;
     PathClusterCompleted := PathClusterCompleted sampleWorld;
     Path_ReadFile := Path_ReadFile sampleWorld;
     YamlUnmarshalCluster := YamlUnmarshalCluster sampleWorld;
     YamlUnmarshalInstanceGroup := YamlUnmarshalInstanceGroup sampleWorld;
     FindOSTags := FindOSTags sampleWorld;
     newTemplateFunctions := newTemplateFunctions sampleWorld;
     loader_Build := loader_Build sampleWorld;
     fi_NewContext := fi_NewContext sampleWorld;
     context_RunTasks := context_RunTasks sampleWorld;
     target_Finish := target_Finish sampleWorld |}.

Definition awsCluster : Cluster :=
  {| KubeletHostnameOverride := "@aws"; MasterKubeletHostnameOverride := "master";
     rest := "spec" |}.
Definition plainCluster : Cluster :=
  {| KubeletHostnameOverride := "@AWS"; MasterKubeletHostnameOverride := "";
     rest := "spec" |}.

Lemma evaluateSpec_without_aws_witness :
  evaluateSpec offlineWorld plainCluster = (plainCluster, None).
Proof. by apply (evaluateSpec_without_aws offlineWorld plainCluster). Defined.

(** The metadata service answers with the host name, a space in front of
    it, and U+00A0 and a line feed behind it. *)
Definition metadataWorld : World :=
  {| vfs_ReadFile := λ _,
       Ok (String.list_byte_of_string " ip-10-0-0-1.ec2.internal"
           ++ [Byte.xc2; Byte.xa0; Byte.x0a]);
     YamlUnmarshalConfig := YamlUnmarshalConfig sampleWorld;
     assets_Add := assets_Add sampleWorld;
     vfs_BuildVfsPath := vfs_BuildVfsPath sampleWorld;
     Path_Join := Path_Join sampleWorld;
     PathClusterCompleted := PathClusterCompleted sampleWorld;
     Path_ReadFile := Path_ReadFile sampleWorld;
     YamlUnmarshalCluster := YamlUnmarshalCluster sampleWorld;
     YamlUnmarshalInstanceGroup := YamlUnmarshalInstanceGroup sampleWorld;
     FindOSTags := FindOSTags sampleWorld;
     newTemplateFunctions := newTemplateFunctions sampleWorld;
     loader_Build := loader_Build sampleWorld;
     fi_NewContext := fi_NewContext sampleWorld;
     context_RunTasks := context_RunTasks sampleWorld;
     target_Finish := target_Finish sampleWorld |}.

Lemma evaluateSpec_resolves_witness :
  evaluateSpec metadataWorld awsCluster =
    ({| KubeletHostnameOverride := "ip-10-0-0-1.ec2.internal";
        MasterKubeletHostnameOverride := "master";
        rest := "spec" |}, None).
Proof.
  etrans.
  - by apply (evaluateSpec_resolves metadataWorld awsCluster
                (String.list_byte_of_string " ip-10-0-0-1.ec2.internal"
                 ++ [Byte.xc2; Byte.xa0; Byte.x0a])).
  - by vm_compute.
Defined.

Lemma evaluateSpec_metadata_failure_witness :
  evaluateSpec offlineWorld awsCluster =
    ({| KubeletHostnameOverride := "";
        MasterKubeletHostnameOverride := "master";
        rest := "spec" |}, Some (ErrReadingLocalHostname "no route to host")).
Proof.
  by apply (evaluateSpec_metadata_failure offlineWorld awsCluster "no route to host").
Defined.

End NodeupMore.

(** ** kutil: writing the kubecfg file *)

Module KubecfgProofs.
Import Kutil Kubecfg.

(** Every event of a computation satisfies [P]. *)
Definition emits {A} (P : Event → Prop) (m : M A) : Prop := Forall P m.1.

Lemma emits_mret {A} P (a : A) : emits P (mret a).
Proof. apply Forall_nil_2. Qed.
Lemma emits_return {A} P err : emits P (@return_ A err).
Proof. apply Forall_nil_2. Qed.
Lemma emits_check P r wrap : emits P (check r wrap).
Proof. destruct r; apply Forall_nil_2. Qed.
Lemma emits_emit (P : Event → Prop) e : P e → emits P (emit e).
Proof. intros He. by apply Forall_singleton. Qed.
Lemma emits_bind {A B} P (m : M A) (k : A → M B) :
  emits P m → (∀ a, emits P (k a)) → emits P (m ≫= k).
Proof.
  unfold emits. destruct m as [tr [a|err]]; cbn; intros Hm Hk; [|done].
  specialize (Hk a). destruct (k a) as [tr' r]. by apply Forall_app.
Qed.
Lemma emits_defer {A} (P : Event → Prop) e (body : M A) :
  P e → emits P body → emits P (defer e body).
Proof. intros He Hb. apply Forall_app. split; [done|by apply Forall_singleton]. Qed.
Lemma emits_complete P (m : M unit) : emits P m → Forall P (complete m).1.
Proof. by destruct m as [tr [[]|err]]. Qed.

Local Ltac emits_step :=
  first
    [ apply emits_mret | apply emits_return | apply emits_check
    | apply emits_bind; [|intros ?]
    | apply emits_emit
    | apply emits_defer
    | case_bool_decide
    | match goal with
      | |- emits _ (match ?x with _ => _ end) => destruct x eqn:?
      | |- emits _ (if ?x then _ else _) => destruct x eqn:?
      end ].

Local Ltac emits_go := unfold execKubectl, writeFile; repeat emits_step.

(** The footprint that [WriteKubecfg] may leave in world [w] for builder
    [c] when the temporary directory is [tmpdir]. *)
Definition allowed (w : World) (c : KubeconfigBuilder) (tmpdir : string) (e : Event)
    : Prop :=
  match e with
  | EvMkdirAll dir =>
      Stat_IsNotExist w (KubeconfigPath c) = true ∧ dir = path_Dir w (KubeconfigPath c)
  | EvCreateFile path =>
      Stat_IsNotExist w (KubeconfigPath c) = true ∧ path = KubeconfigPath c
  | EvWriteFile path data =>
      (path = path_Join w tmpdir "ca.crt" ∧ CACert c = Some data) ∨
      (path = path_Join w tmpdir "client.crt" ∧ ClientCert c = Some data) ∨
      (path = path_Join w tmpdir "client.key" ∧ ClientKey c = Some data)
  | EvKubectl kubectlPath args kubeconfig =>
      kubectlPath = KubectlPath c ∧ kubeconfig = KubeconfigPath c ∧
      args !! 0 = Some "config"
  | EvPrintf context _ => context = Context c
  | EvRemoveAll dir => dir = tmpdir
  end.

(** X14: [WriteKubecfg] creates the kubeconfig file, and the directory for
    it, only when [os.Stat] says that it does not exist; the only files it
    writes are the CA certificate, the client certificate and the client
    key, each with its own data and inside the temporary directory; every
    [kubectl] run is the program [KubectlPath] with [KUBECONFIG] set to
    [KubeconfigPath] and a [config] subcommand; and the only directory it
    removes is the temporary one. *)
Theorem WriteKubecfg_footprint (w : World) (c : KubeconfigBuilder) (tmpdir : string) :
  TempDir w = Nodeup.Ok tmpdir →
  ∀ e, e ∈ (WriteKubecfg w c).1 →
    match e with
    | EvMkdirAll dir =>
        Stat_IsNotExist w (KubeconfigPath c) = true ∧
        dir = path_Dir w (KubeconfigPath c)
    | EvCreateFile path =>
        Stat_IsNotExist w (KubeconfigPath c) = true ∧ path = KubeconfigPath c
    | EvWriteFile path data =>
        (path = path_Join w tmpdir "ca.crt" ∧ CACert c = Some data) ∨
        (path = path_Join w tmpdir "client.crt" ∧ ClientCert c = Some data) ∨
        (path = path_Join w tmpdir "client.key" ∧ ClientKey c = Some data)
    | EvKubectl kubectlPath args kubeconfig =>
        kubectlPath = KubectlPath c ∧ kubeconfig = KubeconfigPath c ∧
        args !! 0 = Some "config"
    | EvPrintf context _ => context = Context c
    | EvRemoveAll dir => dir = tmpdir
    end.
Proof.
  intros Htmp. change (∀ e, e ∈ (WriteKubecfg w c).1 → allowed w c tmpdir e).
  apply Forall_forall. unfold WriteKubecfg. rewrite Htmp.
  apply emits_complete. emits_go; cbn; auto.
Qed.

(** X15: when [ioutil.TempDir] fails, [WriteKubecfg] does nothing and
    returns the error of creating the temporary directory; otherwise the
    removal of the temporary directory is the last thing it does, once,
    whatever it returns. *)
Theorem WriteKubecfg_removes_tempdir (w : World) (c : KubeconfigBuilder) :
  (∀ cause, TempDir w = Nodeup.Err cause →
     WriteKubecfg w c = ([], Some (ErrCreatingTempDir cause))) ∧
  (∀ tmpdir, TempDir w = Nodeup.Ok tmpdir →
     ∃ tr, (WriteKubecfg w c).1 = tr ++ [EvRemoveAll tmpdir] ∧
           ∀ dir, EvRemoveAll dir ∉ tr).
Proof.
  split.
  - intros cause Htmp. unfold WriteKubecfg. by rewrite Htmp.
  - intros tmpdir Htmp. unfold WriteKubecfg. rewrite Htmp.
    match goal with |- context [defer _ ?b] => set (body := b) end.
    exists body.1. split; [by destruct body as [tr [[]|err]]|].
    assert (emits (λ e, ∀ dir, e ≠ EvRemoveAll dir) body) as Hbody.
    { unfold body. emits_go; done. }
    intros dir Hin. unfold emits in Hbody. rewrite Forall_forall in Hbody.
    by apply (Hbody _ Hin dir).
Qed.

(** The error that [WriteKubecfg] returns when the action [e] fails; [None]
    when it succeeds or cannot fail. *)
Definition failure (w : World) (c : KubeconfigBuilder) (e : Event) : option Error :=
  match e with
  | EvMkdirAll dir => ErrCreatingDirectories (KubeconfigPath c) <$> MkdirAll w dir
  | EvCreateFile path => ErrCreatingConfigFile (KubeconfigPath c) <$> OpenFile w path
  | EvWriteFile path data => ErrWriteFile <$> WriteFile w path data
  | EvKubectl kubectlPath args kubeconfig =>
      ErrRunningKubectl <$> CombinedOutput w kubectlPath args kubeconfig
  | EvPrintf _ _ => None
  | EvRemoveAll _ => None
  end.

(** A computation stops at the first action that fails, with the error of
    that action, and returns an error only then. *)
Definition strict {A} (w : World) (c : KubeconfigBuilder) (m : M A) : Prop :=
  (∀ pre e post, m.1 = pre ++ e :: post → is_Some (failure w c e) →
     post = [] ∧ m.2 = Return (failure w c e)) ∧
  (∀ err, m.2 = Return (Some err) →
     ∃ pre e, m.1 = pre ++ [e] ∧ failure w c e = Some err).

Lemma strict_mret {A} w c (a : A) : strict w c (mret a).
Proof. split; [by intros [] ? ? ?|done]. Qed.

Lemma strict_return_nil {A} w c : strict w c (@return_ A None).
Proof. split; [by intros [] ? ? ?|done]. Qed.

Lemma strict_bind {A B} w c (m : M A) (k : A → M B) :
  strict w c m → (∀ a, strict w c (k a)) → strict w c (m ≫= k).
Proof.
  intros [Hm1 Hm2] Hk. destruct m as [tr [a|err]]; cbn in Hm1, Hm2.
  2: { split; cbn.
       - intros pre e post Heq Hfail.
         destruct (Hm1 pre e post Heq Hfail) as [-> [= ->]]. done.
       - intros err' [= ->]. by apply Hm2. }
  unfold strict, mbind, M_bind.
  destruct (Hk a) as [Hk1 Hk2]. destruct (k a) as [tr' r]. cbn in *. split.
  - intros pre e post Heq Hfail.
    apply app_eq_app in Heq as (mid & [[-> Heq]|[-> Heq]]).
    + destruct mid as [|e' mid]; cbn in Heq.
      * apply (Hk1 [] e post); [by rewrite <- Heq|done].
      * injection Heq as <- ->.
        by destruct (Hm1 pre e mid eq_refl Hfail) as [_ ?].
    + by apply (Hk1 mid e post).
  - intros err Herr. destruct (Hk2 err Herr) as (pre & e & -> & He).
    exists (tr ++ pre), e. by rewrite app_assoc.
Qed.

Lemma strict_emit w c e : failure w c e = None → strict w c (emit e).
Proof.
  intros He. split; [|done]. intros pre e' post Heq Hfail. exfalso.
  destruct pre as [|? [|]]; cbn in Heq; simplify_eq. rewrite He in Hfail.
  by destruct Hfail.
Qed.

Lemma strict_action {B} w c e r wrap (k : unit → M B) :
  failure w c e = wrap <$> r → (∀ u, strict w c (k u)) →
  strict w c (emit e ≫= λ _, check r wrap ≫= k).
Proof.
  intros He Hk. destruct r as [cause|]; cbn in *.
  - split.
    + intros pre e' post Heq _. destruct pre as [|? [|]]; cbn in Heq; simplify_eq.
      by rewrite He.
    + intros err [= <-]. by exists [], e.
  - destruct (Hk tt) as [Hk1 Hk2]. destruct (k tt) as [tr r]. cbn in *. split.
    + intros pre e' post Heq Hfail. destruct pre as [|e0 pre]; cbn in Heq.
      * injection Heq as <- <-. rewrite He in Hfail. by destruct Hfail.
      * injection Heq as <- ->. by apply (Hk1 pre e' post).
    + intros err Herr. destruct (Hk2 err Herr) as (pre & e' & -> & He').
      by exists (e :: pre), e'.
Qed.

Lemma strict_action_last w c e r wrap :
  failure w c e = wrap <$> r → strict w c (emit e ≫= λ _, check r wrap).
Proof.
  intros He. destruct r as [cause|]; cbn in *.
  - split.
    + intros pre e' post Heq _. destruct pre as [|? [|]]; cbn in Heq; simplify_eq.
      by rewrite He.
    + intros err [= <-]. by exists [], e.
  - split; [|done]. intros pre e' post Heq Hfail. exfalso.
    destruct pre as [|? [|]]; cbn in Heq; simplify_eq. rewrite He in Hfail.
    by destruct Hfail.
Qed.

Local Ltac strict_step :=
  first
    [ apply strict_mret | apply strict_return_nil
    | apply strict_action_last; done
    | apply strict_action; [done|intros ?]
    | apply strict_emit; done
    | apply strict_bind; [|intros ?]
    | case_bool_decide
    | match goal with
      | |- strict _ _ (match ?x with _ => _ end) => destruct x eqn:?
      | |- strict _ _ (if ?x then _ else _) => destruct x eqn:?
      end ].

(** X16: [WriteKubecfg] stops at the first action that fails: a failing
    [MkdirAll], file creation, file write or [kubectl] run is the last thing
    done before the temporary directory is removed, and its error is the
    one returned; and an error is returned only when the last action before
    the removal failed. *)
Theorem WriteKubecfg_stops_at_first_failure
    (w : World) (c : KubeconfigBuilder) (tmpdir : string) :
  TempDir w = Nodeup.Ok tmpdir →
  ∃ tr,
    (WriteKubecfg w c).1 = tr ++ [EvRemoveAll tmpdir] ∧
    (∀ pre e post, tr = pre ++ e :: post → is_Some (failure w c e) →
       post = [] ∧ (WriteKubecfg w c).2 = failure w c e) ∧
    (∀ err, (WriteKubecfg w c).2 = Some err →
       ∃ pre e, tr = pre ++ [e] ∧ failure w c e = Some err).
Proof.
  intros Htmp. unfold WriteKubecfg. rewrite Htmp.
  match goal with |- context [defer _ ?b] => set (body := b) end.
  assert (strict w c body) as [H1 H2].
  { unfold body, execKubectl, writeFile. repeat strict_step. }
  exists body.1. destruct body as [tr [[]|err]]; cbn in *.
  - split; [done|]. split; [|done]. intros pre e post Heq Hfail.
    by destruct (H1 pre e post Heq Hfail) as [_ ?].
  - split; [done|]. split.
    + intros pre e post Heq Hfail.
      destruct (H1 pre e post Heq Hfail) as [-> [= ->]]. done.
    + intros e ->. by apply H2.
Qed.

(** The path that the final message of [WriteKubecfg] names. *)
Definition displayPath (kubeconfigPath : string) : string :=
  let split := Split kubeconfigPath ":" in
  if bool_decide (1 < length split) then default kubeconfigPath (head split)
  else kubeconfigPath.

(** The subcommand and the entry name of a [kubectl config] run. *)
Definition subcommand (e : Event) : option (string * string) :=
  match e with
  | EvKubectl _ (_ :: sub :: name :: _) _ => Some (sub, name)
  | _ => None
  end.

(** The builder has credentials for the entry of the context: a bearer
    token, a user with a password, or a client certificate with its key. *)
Definition hasCredentials (c : KubeconfigBuilder) : Prop :=
  KubeBearerToken c ≠ "" ∨ (KubeUser c ≠ "" ∧ KubePassword c ≠ "") ∨
  (is_Some (ClientCert c) ∧ is_Some (ClientKey c)).

Global Instance hasCredentials_dec c : Decision (hasCredentials c).
Proof. unfold hasCredentials. apply _. Defined.

(** The blocks of [WriteKubecfg], one after the other. *)
Definition statPhase (w : World) (c : KubeconfigBuilder) : M unit :=
  if Stat_IsNotExist w (KubeconfigPath c) then
    emit (EvMkdirAll (path_Dir w (KubeconfigPath c)));;
    check (MkdirAll w (path_Dir w (KubeconfigPath c)))
          (ErrCreatingDirectories (KubeconfigPath c));;
    emit (EvCreateFile (KubeconfigPath c));;
    check (OpenFile w (KubeconfigPath c)) (ErrCreatingConfigFile (KubeconfigPath c))
  else mret tt.

Definition clusterPhase (w : World) (c : KubeconfigBuilder) (tmpdir : string)
    : M (list string) :=
  match CACert c with
  | None => mret (([] ++ ["--server=https://" +:+ KubeMasterIP c])
                  ++ ["--insecure-skip-tls-verify=true"])
  | Some data =>
      writeFile w (path_Join w tmpdir "ca.crt") data;;
      mret ((([] ++ ["--server=https://" +:+ KubeMasterIP c])
             ++ ["--certificate-authority=" +:+ path_Join w tmpdir "ca.crt"])
            ++ ["--embed-certs=true"])
  end.

Definition passwordArgs (c : KubeconfigBuilder) : list string :=
  if bool_decide (KubeBearerToken c ≠ "") then
    [] ++ ["--token=" +:+ KubeBearerToken c]
  else if bool_decide (KubeUser c ≠ "" ∧ KubePassword c ≠ "") then
    ([] ++ ["--username=" +:+ KubeUser c]) ++ ["--password=" +:+ KubePassword c]
  else [].

Definition userPhase (w : World) (c : KubeconfigBuilder) (tmpdir : string)
    : M (list string) :=
  match ClientCert c, ClientKey c with
  | Some cert, Some key =>
      writeFile w (path_Join w tmpdir "client.crt") cert;;
      writeFile w (path_Join w tmpdir "client.key") key;;
      mret (((passwordArgs c ++ ["--client-certificate=" +:+ path_Join w tmpdir "client.crt"])
             ++ ["--client-key=" +:+ path_Join w tmpdir "client.key"])
            ++ ["--embed-certs=true"])
  | _, _ => mret (passwordArgs c)
  end.

Definition kubectlPhase (w : World) (c : KubeconfigBuilder)
    (clusterArgs userArgs : list string) : M unit :=
  execKubectl w c (["config"; "set-cluster"; Context c] ++ clusterArgs);;
  (if bool_decide (length userArgs ≠ 0) then
     execKubectl w c (["config"; "set-credentials"; Context c] ++ userArgs)
   else mret tt);;
  execKubectl w c
    (if bool_decide (Namespace c ≠ "")
     then ["config"; "set-context"; Context c;
           "--cluster=" +:+ Context c; "--user=" +:+ Context c]
          ++ ["--namespace"; Namespace c]
     else ["config"; "set-context"; Context c;
           "--cluster=" +:+ Context c; "--user=" +:+ Context c]);;
  execKubectl w c ["config"; "use-context"; Context c;
                   "--cluster=" +:+ Context c; "--user=" +:+ Context c];;
  (if bool_decide (KubeUser c ≠ "" ∧ KubePassword c ≠ "") then
     execKubectl w c ["config"; "set-credentials"; Context c +:+ "-basic-auth";
                      "--username=" +:+ KubeUser c;
                      "--password=" +:+ KubePassword c]
   else mret tt);;
  emit (EvPrintf (Context c) (displayPath (KubeconfigPath c)));;
  return_ None.

Lemma WriteKubecfg_phases w c tmpdir :
  TempDir w = Nodeup.Ok tmpdir →
  WriteKubecfg w c =
    complete (defer (EvRemoveAll tmpdir)
      (statPhase w c;;
       clusterArgs ← clusterPhase w c tmpdir;
       userArgs ← userPhase w c tmpdir;
       kubectlPhase w c clusterArgs userArgs)).
Proof.
  intros Htmp. unfold WriteKubecfg. rewrite Htmp. reflexivity.
Qed.

(** A computation never returns nil by itself: it goes on or returns an
    error. *)
Definition noNil {A} (m : M A) : Prop := m.2 ≠ Return None.

Lemma bind_nil {A B} (m : M A) (k : A → M B) :
  noNil m → (m ≫= k).2 = Return None →
  ∃ a, m = (m.1, Next a) ∧ (k a).2 = Return None ∧ (m ≫= k).1 = m.1 ++ (k a).1.
Proof.
  destruct m as [tr [a|err]]; unfold noNil; cbn; intros Hno Hnil.
  - exists a. destruct (k a) as [tr' r]. by cbn in *.
  - congruence.
Qed.

Lemma noNil_statPhase w c : noNil (statPhase w c).
Proof.
  unfold noNil, statPhase. destruct (Stat_IsNotExist w (KubeconfigPath c)); [|done].
  destruct (MkdirAll w _); [done|]. by destruct (OpenFile w _).
Qed.

Lemma noNil_clusterPhase w c tmpdir : noNil (clusterPhase w c tmpdir).
Proof.
  unfold noNil, clusterPhase, writeFile. destruct (CACert c); [|done].
  by destruct (WriteFile w _ _).
Qed.

Lemma noNil_userPhase w c tmpdir : noNil (userPhase w c tmpdir).
Proof.
  unfold noNil, userPhase, writeFile. destruct (ClientCert c), (ClientKey c); try done.
  repeat (destruct (WriteFile w _ _); cbn; try done).
Qed.

(** An event that is neither a [kubectl] run nor the message. *)
Definition quietEvent (e : Event) : Prop :=
  match e with
  | EvKubectl _ _ _ | EvPrintf _ _ => False
  | _ => True
  end.

Lemma omap_subcommand_quiet tr : Forall quietEvent tr → omap subcommand tr = [].
Proof.
  induction 1 as [|e tr He _ IH]; [done|]. cbn. rewrite IH. by destruct e.
Qed.

Lemma userPhase_length w c tmpdir tr userArgs :
  userPhase w c tmpdir = (tr, Next userArgs) →
  length userArgs ≠ 0 ↔ hasCredentials c.
Proof.
  unfold userPhase, writeFile, hasCredentials, passwordArgs.
  destruct (ClientCert c) as [cert|], (ClientKey c) as [key|];
    repeat case_bool_decide;
    repeat (destruct (WriteFile w _ _)); cbn; intros [= <- <-]; cbn;
    split; try done; try lia; try naive_solver; intros _;
    rewrite ?length_app; cbn; try lia; eauto 10.
Qed.

Lemma execKubectl_nil {B} w c args (k : unit → M B) :
  (execKubectl w c args ≫= k).2 = Return None →
  (k tt).2 = Return None ∧
  (execKubectl w c args ≫= k).1 =
    EvKubectl (KubectlPath c) args (KubeconfigPath c) :: (k tt).1.
Proof.
  unfold execKubectl. destruct (CombinedOutput w _ _ _); cbn; [done|].
  destruct (k tt) as [tr r]. by cbn.
Qed.

Lemma mret_bind {A B} (a : A) (k : A → M B) : (mret a ≫= k) = k a.
Proof. unfold mbind, M_bind, mret, M_ret. by destruct (k a). Qed.

Local Ltac decide_in P H :=
  destruct (decide P);
  [ rewrite !(bool_decide_eq_true_2 P) in H |- * by done
  | rewrite !(bool_decide_eq_false_2 P) in H |- * by done ].

Local Ltac run_in H :=
  repeat first
    [ rewrite mret_bind in H |- *
    | let Htr := fresh in
      apply execKubectl_nil in H as [H Htr]; rewrite Htr; clear Htr; cbv beta in H |- * ].

Lemma kubectlPhase_nil w c clusterArgs userArgs :
  (kubectlPhase w c clusterArgs userArgs).2 = Return None →
  omap subcommand (kubectlPhase w c clusterArgs userArgs).1 =
    [("set-cluster", Context c)] ++
    (if bool_decide (length userArgs ≠ 0) then [("set-credentials", Context c)] else []) ++
    [("set-context", Context c); ("use-context", Context c)] ++
    (if bool_decide (KubeUser c ≠ "" ∧ KubePassword c ≠ "")
     then [("set-credentials", Context c +:+ "-basic-auth")] else []) ∧
  ∃ tr, (kubectlPhase w c clusterArgs userArgs).1 =
          tr ++ [EvPrintf (Context c) (displayPath (KubeconfigPath c))].
Proof.
  unfold kubectlPhase. intros H.
  decide_in (length userArgs ≠ 0) H;
    decide_in (Namespace c ≠ "") H;
    decide_in (KubeUser c ≠ "" ∧ KubePassword c ≠ "") H;
    run_in H; cbn; (split; [done|]);
    match goal with
    | |- ∃ tr, ?l = _ => exists (removelast l); cbn; reflexivity
    end.
Qed.

Lemma bind_never_next {A B} (m : M A) (k : A → M B) :
  (∀ a b, (k a).2 ≠ Next b) → ∀ b, (m ≫= k).2 ≠ Next b.
Proof.
  intros Hk b. destruct m as [tr [a|err]]; cbn; [|done].
  specialize (Hk a b). by destruct (k a).
Qed.

Lemma kubectlPhase_never_next w c clusterArgs userArgs b :
  (kubectlPhase w c clusterArgs userArgs).2 ≠ Next b.
Proof.
  unfold kubectlPhase. revert b.
  repeat (apply bind_never_next; intros ?). done.
Qed.

Lemma quiet_phases w c tmpdir :
  emits quietEvent (statPhase w c) ∧ emits quietEvent (clusterPhase w c tmpdir) ∧
  emits quietEvent (userPhase w c tmpdir).
Proof.
  unfold statPhase, clusterPhase, userPhase. repeat split; emits_go; done.
Qed.

(** X17: when [WriteKubecfg] returns nil, its [kubectl config] runs are, in
    order: [set-cluster] for the context; [set-credentials] for the context,
    when the builder has a bearer token, a user with a password or a client
    certificate with its key, and not otherwise; [set-context] and
    [use-context]; and [set-credentials] for the basic-auth entry exactly
    when user and password are both set, also when there is a bearer token.
    The last thing before the temporary directory is removed is the message,
    which names the context and the display path. *)
Theorem WriteKubecfg_success_runs (w : World) (c : KubeconfigBuilder) (tmpdir : string) :
  TempDir w = Nodeup.Ok tmpdir →
  (WriteKubecfg w c).2 = None →
  omap subcommand (WriteKubecfg w c).1 =
    [("set-cluster", Context c)] ++
    (if bool_decide (hasCredentials c) then [("set-credentials", Context c)] else []) ++
    [("set-context", Context c); ("use-context", Context c)] ++
    (if bool_decide (KubeUser c ≠ "" ∧ KubePassword c ≠ "")
     then [("set-credentials", Context c +:+ "-basic-auth")] else []) ∧
  ∃ tr, (WriteKubecfg w c).1 =
          tr ++ [EvPrintf (Context c) (displayPath (KubeconfigPath c));
                 EvRemoveAll tmpdir].
Proof.
  intros Htmp. rewrite (WriteKubecfg_phases w c tmpdir Htmp).
  destruct (quiet_phases w c tmpdir) as (Hq1 & Hq2 & Hq3).
  set (rest1 := λ _ : unit, clusterPhase w c tmpdir ≫= _).
  intros Hnil.
  assert ((statPhase w c ≫= rest1).2 = Return None) as Hbody.
  { pose proof (bind_never_next (statPhase w c) rest1) as Hnext.
    destruct (statPhase w c ≫= rest1) as [tr [[]|err]]; cbn in Hnil |- *;
      [|congruence].
    exfalso. eapply Hnext; [|done]. intros [] b. unfold rest1.
    apply bind_never_next. intros ca b'. apply bind_never_next.
    intros ua b''. apply kubectlPhase_never_next. }
  assert ((complete (defer (EvRemoveAll tmpdir) (statPhase w c ≫= rest1))).1
          = (statPhase w c ≫= rest1).1 ++ [EvRemoveAll tmpdir]) as ->.
  { by destruct (statPhase w c ≫= rest1) as [tr [[]|err]]. }
  destruct (bind_nil (statPhase w c) rest1 (noNil_statPhase w c) Hbody)
    as ([] & H1 & Hbody1 & Htr1).
  rewrite Htr1. clear Hbody Htr1 Hnil. unfold rest1 in Hbody1 |- *. clear rest1.
  set (rest2 := λ clusterArgs : list string, userPhase w c tmpdir ≫= _) in *.
  destruct (bind_nil (clusterPhase w c tmpdir) rest2 (noNil_clusterPhase w c tmpdir) Hbody1)
    as (ca & H2 & Hbody2 & Htr2).
  rewrite Htr2. clear Hbody1 Htr2. unfold rest2 in Hbody2 |- *. clear rest2.
  cbv beta in Hbody2 |- *.
  set (rest3 := λ userArgs : list string, kubectlPhase w c ca userArgs) in *.
  destruct (bind_nil (userPhase w c tmpdir) rest3 (noNil_userPhase w c tmpdir) Hbody2)
    as (ua & H3 & Hbody3 & Htr3).
  rewrite Htr3. clear Hbody2 Htr3. unfold rest3 in Hbody3 |- *. clear rest3.
  cbv beta in Hbody3 |- *.
  destruct (kubectlPhase_nil w c ca ua Hbody3) as (Hruns & tr & Htr).
  split.
  - rewrite !omap_app, Hruns.
    rewrite (omap_subcommand_quiet _ Hq1), (omap_subcommand_quiet _ Hq2),
      (omap_subcommand_quiet _ Hq3).
    assert (bool_decide (length ua ≠ 0) = bool_decide (hasCredentials c)) as ->.
    { apply bool_decide_ext. by eapply userPhase_length. }
    cbn [omap subcommand app]. by rewrite app_nil_r.
  - rewrite Htr.
    exists ((statPhase w c).1 ++ (clusterPhase w c tmpdir).1 ++
            (userPhase w c tmpdir).1 ++ tr).
    by rewrite <- !app_assoc.
Qed.

(** [strings.Split] of a string without the separator is the string
    itself, and of a string with one it starts with the piece before the
    first separator. *)
Lemma Split_free s sep : NodeupMore.free sep s → Split s sep = [s].
Proof.
  induction s as [|a s IH]; cbn; [done|]. intros [Ha Hs].
  rewrite (proj2 (Ascii.eqb_neq a sep) Ha), (IH Hs). done.
Qed.

Lemma Split_first a b sep :
  NodeupMore.free sep a → Split (a +:+ String sep b) sep = a :: Split b sep.
Proof.
  induction a as [|x a IH]; intros Ha.
  - rewrite NodeupMore.append_empty. cbn. by rewrite Ascii.eqb_refl.
  - destruct Ha as [Hx Ha]. rewrite NodeupMore.append_String. cbn.
    rewrite (proj2 (Ascii.eqb_neq x sep) Hx), (IH Ha). done.
Qed.

Lemma Split_nonempty s sep : 0 < length (Split s sep).
Proof.
  destruct s as [|a s]; cbn; [lia|].
  destruct (Ascii.eqb a sep); [cbn; lia|]. destruct (Split s sep); cbn; lia.
Qed.

(** X18: the message that [WriteKubecfg] prints names the context of the
    builder and one file: [KubeconfigPath] itself when it holds no colon,
    and otherwise its first entry, the part before the first colon. *)
Theorem WriteKubecfg_message_names_first_path
    (w : World) (c : KubeconfigBuilder) (context path : string) :
  EvPrintf context path ∈ (WriteKubecfg w c).1 →
  context = Context c ∧
  (NodeupMore.free ":" (KubeconfigPath c) → path = KubeconfigPath c) ∧
  (∀ first others,
     KubeconfigPath c = first +:+ ":" +:+ others → NodeupMore.free ":" first →
     path = first).
Proof.
  intros Hin.
  assert (context = Context c ∧ path = displayPath (KubeconfigPath c)) as [-> ->].
  { cut (Forall (λ e, ∀ ctx p, e = EvPrintf ctx p →
                   ctx = Context c ∧ p = displayPath (KubeconfigPath c))
               (WriteKubecfg w c).1).
    { intros H. rewrite Forall_forall in H. by eapply H. }
    clear Hin. unfold WriteKubecfg. apply emits_complete.
    destruct (TempDir w) as [tmpdir|cause]; [|apply emits_return].
    emits_go; intros ctx p Heq; try discriminate Heq; injection Heq as <- <-;
      (split; [done|]); unfold displayPath; by case_bool_decide. }
  split; [done|]. unfold displayPath. split.
  - intros Hfree. rewrite (Split_free _ _ Hfree). done.
  - intros first others -> Hfree.
    change (":" +:+ others) with (String ":" others).
    rewrite (Split_first _ _ _ Hfree). cbn [length head default].
    pose proof (Split_nonempty others ":").
    rewrite bool_decide_eq_true_2 by lia. done.
Qed.

Lemma append_neq (s t : string) : t ≠ "" → s +:+ t ≠ s.
Proof.
  intros Ht. induction s as [|a s IH].
  - by rewrite NodeupMore.append_empty.
  - rewrite NodeupMore.append_String. by intros [= ?].
Qed.

(** The options of a [kubectl] run carry no user name and no password. *)
Definition withoutPassword (args : list string) : Prop :=
  Forall (λ a, String.prefix "--username=" a = false ∧
               String.prefix "--password=" a = false) args.

Lemma emits_bind_value {A B} P (m : M A) (k : A → M B) :
  emits P m → (∀ a, m.2 = Next a → emits P (k a)) → emits P (m ≫= k).
Proof.
  unfold emits. destruct m as [tr [a|err]]; cbn; intros Hm Hk; [|done].
  specialize (Hk a eq_refl). destruct (k a) as [tr' r]. by apply Forall_app.
Qed.

Lemma userPhase_token w c tmpdir userArgs :
  KubeBearerToken c ≠ "" → (userPhase w c tmpdir).2 = Next userArgs →
  head userArgs = Some ("--token=" +:+ KubeBearerToken c) ∧ withoutPassword userArgs.
Proof.
  intros Htoken. unfold userPhase, passwordArgs, writeFile.
  rewrite (bool_decide_eq_true_2 _ Htoken).
  destruct (ClientCert c) as [cert|], (ClientKey c) as [key|]; cbn;
    repeat match goal with |- context [check ?r _] => destruct r; cbn end;
    intros [= <-]; (split; [done|]);
    repeat (apply Forall_cons; split; [done|]); apply Forall_nil_2.
Qed.

(** X19: with a bearer token, the credentials that [WriteKubecfg] sets for
    the context of the builder start with the token and hold no user name
    and no password, whatever [KubeUser] and [KubePassword] are; these go
    only into the separate entry for basic authentication. *)
Theorem WriteKubecfg_token_precedence
    (w : World) (c : KubeconfigBuilder) (kubectlPath kubeconfig : string)
    (args : list string) :
  KubeBearerToken c ≠ "" →
  EvKubectl kubectlPath ("config" :: "set-credentials" :: Context c :: args) kubeconfig
    ∈ (WriteKubecfg w c).1 →
  head args = Some ("--token=" +:+ KubeBearerToken c) ∧ withoutPassword args.
Proof.
  intros Htoken Hin.
  pose (P := λ e : Event, ∀ kp l kc,
          e = EvKubectl kp ("config" :: "set-credentials" :: Context c :: l) kc →
          head l = Some ("--token=" +:+ KubeBearerToken c) ∧ withoutPassword l).
  cut (Forall P (WriteKubecfg w c).1).
  { intros H. rewrite Forall_forall in H. by eapply H. }
  clear Hin. destruct (TempDir w) as [tmpdir|cause] eqn:Htmp.
  2: { unfold WriteKubecfg. rewrite Htmp. apply Forall_nil_2. }
  rewrite (WriteKubecfg_phases w c tmpdir Htmp).
  apply emits_complete, emits_defer; [done|].
  apply emits_bind; [unfold statPhase; emits_go; done|intros _].
  apply emits_bind; [unfold clusterPhase; emits_go; done|intros clusterArgs].
  apply emits_bind_value; [unfold userPhase; emits_go; done|].
  intros userArgs Hargs. apply (userPhase_token _ _ _ _ Htoken) in Hargs.
  unfold kubectlPhase. emits_go; intros ? ? ? Heq; try discriminate Heq;
    cbn [app] in Heq; try discriminate Heq.
  - by injection Heq as _ <- _.
  - injection Heq as _ Hname. by apply append_neq in Hname.
Qed.

(** A world where every call succeeds, and builders with a bearer token, a
    user with a password and a CA certificate. *)
Definition okWorld : World :=
  {| TempDir := Nodeup.Ok "/tmp/k8s1";
     Stat_IsNotExist := λ _, true;
     path_Dir := λ _, "/home/admin/.kube";
     path_Join := λ dir name, dir +:+ "/" +:+ name;
     MkdirAll := λ _, None;
     OpenFile := λ _, None;
     WriteFile := λ _ _, None;
     CombinedOutput := λ _ _ _, None |}.

Definition tokenBuilder : KubeconfigBuilder :=
  {| KubectlPath := "kubectl";
     KubeconfigPath := "/home/admin/.kube/config:/etc/kube/config";
     KubeMasterIP := "203.0.113.10"; Context := "example"; Namespace := "";
     KubeBearerToken := "secret"; KubeUser := "admin"; KubePassword := "pw";
     CACert := Some [Byte.x63; Byte.x61]; ClientCert := None; ClientKey := None |}.

Lemma WriteKubecfg_footprint_witness :
  EvWriteFile "/tmp/k8s1/ca.crt" [Byte.x63; Byte.x61]
    ∈ (WriteKubecfg okWorld tokenBuilder).1 ∧
  (("/tmp/k8s1/ca.crt" = path_Join okWorld "/tmp/k8s1" "ca.crt" ∧
    CACert tokenBuilder = Some [Byte.x63; Byte.x61]) ∨
   ("/tmp/k8s1/ca.crt" = path_Join okWorld "/tmp/k8s1" "client.crt" ∧
    ClientCert tokenBuilder = Some [Byte.x63; Byte.x61]) ∨
   ("/tmp/k8s1/ca.crt" = path_Join okWorld "/tmp/k8s1" "client.key" ∧
    ClientKey tokenBuilder = Some [Byte.x63; Byte.x61])).
Proof.
  assert (EvWriteFile "/tmp/k8s1/ca.crt" [Byte.x63; Byte.x61]
            ∈ (WriteKubecfg okWorld tokenBuilder).1) as Hin.
  { apply (list_elem_of_lookup_2 _ 2). reflexivity. }
  split; [exact Hin|].
  exact (WriteKubecfg_footprint okWorld tokenBuilder "/tmp/k8s1" eq_refl _ Hin).
Defined.

(** The same world, except that [kubectl config set-context] fails. *)
Definition failingWorld : World :=
  {| TempDir := TempDir okWorld;
     Stat_IsNotExist := Stat_IsNotExist okWorld;
     path_Dir := path_Dir okWorld;
     path_Join := path_Join okWorld;
     MkdirAll := MkdirAll okWorld;
     OpenFile := OpenFile okWorld;
     WriteFile := WriteFile okWorld;
     CombinedOutput := λ _ args _,
       if bool_decide (args !! 1 = Some "set-context") then Some "exit status 1"
       else None |}.

Lemma WriteKubecfg_stops_at_first_failure_witness :
  ∃ pre e,
    (WriteKubecfg failingWorld tokenBuilder).1 = pre ++ [e; EvRemoveAll "/tmp/k8s1"] ∧
    failure failingWorld tokenBuilder e = Some (ErrRunningKubectl "exit status 1") ∧
    (WriteKubecfg failingWorld tokenBuilder).2 = failure failingWorld tokenBuilder e.
Proof.
  destruct (WriteKubecfg_stops_at_first_failure failingWorld tokenBuilder "/tmp/k8s1"
              eq_refl) as (tr & Htr & Hstop & Herr).
  destruct (Herr (ErrRunningKubectl "exit status 1")) as (pre & e & -> & He).
  { vm_compute. reflexivity. }
  exists pre, e. split; [by rewrite Htr, <- app_assoc|]. split; [done|].
  apply (Hstop pre e []); [done|]. by rewrite He.
Defined.

Lemma WriteKubecfg_success_runs_witness :
  omap subcommand (WriteKubecfg okWorld tokenBuilder).1 =
    [("set-cluster", "example"); ("set-credentials", "example");
     ("set-context", "example"); ("use-context", "example");
     ("set-credentials", "example-basic-auth")] ∧
  ∃ tr, (WriteKubecfg okWorld tokenBuilder).1 =
          tr ++ [EvPrintf "example" (displayPath (KubeconfigPath tokenBuilder));
                 EvRemoveAll "/tmp/k8s1"].
Proof.
  exact (WriteKubecfg_success_runs okWorld tokenBuilder "/tmp/k8s1" eq_refl eq_refl).
Defined.

Lemma WriteKubecfg_message_names_first_path_witness :
  "example" = Context tokenBuilder ∧
  (NodeupMore.free ":" (KubeconfigPath tokenBuilder) →
   "/home/admin/.kube/config" = KubeconfigPath tokenBuilder) ∧
  (∀ first others,
     KubeconfigPath tokenBuilder = first +:+ ":" +:+ others →
     NodeupMore.free ":" first → "/home/admin/.kube/config" = first).
Proof.
  apply (WriteKubecfg_message_names_first_path okWorld tokenBuilder).
  apply (list_elem_of_lookup_2 _ 8). reflexivity.
Defined.

Lemma WriteKubecfg_token_precedence_witness :
  head ["--token=secret"] = Some ("--token=" +:+ KubeBearerToken tokenBuilder) ∧
  withoutPassword ["--token=secret"].
Proof.
  apply (WriteKubecfg_token_precedence okWorld tokenBuilder "kubectl"
           "/home/admin/.kube/config:/etc/kube/config").
  - done.
  - apply (list_elem_of_lookup_2 _ 4). reflexivity.
Defined.

End KubecfgProofs.

(** ** protokube: tainting the masters *)

Module ProtokubeProofs.
Import Nodeup Protokube.

(** The value of the taints annotation of a node; empty when it has none. *)
Definition nodeTaint (w : World) (node : Node) : string :=
  default "" (Annotations node !! TaintsAnnotationKey w).

(** The node has no taints annotation yet. *)
Definition untainted (w : World) (node : Node) : Prop := nodeTaint w node = "".

Global Instance untainted_dec w node : Decision (untainted w node).
Proof. unfold untainted. apply _. Defined.

(** The node and the body of a patch that was sent. *)
Definition patched (e : Event) : option (string * string) :=
  match e with
  | EvPatch name nodePatchJson => Some (name, nodePatchJson)
  | EvInfoUnexpectedTaint _ _ => None
  end.

(** The patch for a master: the taints annotation, and schedulable. *)
Definition masterPatch (w : World) (taintJSON : string) : nodePatch :=
  {| Metadata := Some {| PatchAnnotations := {[ TaintsAnnotationKey w := taintJSON ]} |};
     Spec := Some {| Unschedulable := Some false |} |}.

Lemma omap_patched_info (b : bool) name json tr :
  omap patched ((if b then [EvInfoUnexpectedTaint name json] else []) ++ tr)
  = omap patched tr.
Proof. by destruct b. Qed.

Lemma taintNodes_patches w taintJSON i items :
  ∃ nodePatchJson,
    omap patched (taintNodes w taintJSON i items).1
      `prefix_of` map (λ node, (Name node, nodePatchJson)) (filter (untainted w) items) ∧
    ((taintNodes w taintJSON i items).2 = None →
     omap patched (taintNodes w taintJSON i items).1
     = map (λ node, (Name node, nodePatchJson)) (filter (untainted w) items)).
Proof.
  destruct (Marshal_nodePatch w (masterPatch w taintJSON)) as [json|cause] eqn:Hjson.
  - exists json. revert i. induction items as [|node items IH]; intros i; [done|].
    cbn [taintNodes]. fold (nodeTaint w node). fold (masterPatch w taintJSON).
    rewrite Hjson. destruct (IH (S i)) as [IH1 IH2].
    destruct (taintNodes w taintJSON (S i) items) as [tr err].
    cbn [fst snd] in IH1, IH2.
    destruct (decide (untainted w node)) as [Hnode|Hnode].
    + rewrite filter_cons_True by done.
      rewrite bool_decide_eq_false_2 by (by intros ?).
      destruct (Patch w i (Name node) json) as [cause|]; cbn.
      * split; [|done]. apply (prefix_cons _ []), prefix_nil.
      * split; [by apply prefix_cons|]. intros Herr. by rewrite (IH2 Herr).
    + rewrite filter_cons_False by done. rewrite bool_decide_eq_true_2 by done.
      cbn [fst snd]. by rewrite omap_patched_info.
  - exists "". revert i. induction items as [|node items IH]; intros i; [done|].
    cbn [taintNodes]. fold (nodeTaint w node). fold (masterPatch w taintJSON).
    rewrite Hjson. destruct (IH (S i)) as [IH1 IH2].
    destruct (taintNodes w taintJSON (S i) items) as [tr err].
    cbn [fst snd] in IH1, IH2.
    destruct (decide (untainted w node)) as [Hnode|Hnode].
    + rewrite bool_decide_eq_false_2 by (by intros ?). cbn.
      split; [apply prefix_nil|done].
    + rewrite filter_cons_False by done. rewrite bool_decide_eq_true_2 by done.
      cbn [fst snd]. by rewrite omap_patched_info.
Qed.

(** X20: the patches that [ApplyMasterTaints] sends go to the listed master
    nodes without a taints annotation, in the order of the list and all
    with the same body; a node that has a taints annotation, expected or
    not, is never patched; and when nil is returned every node without the
    annotation has been patched. *)
Theorem ApplyMasterTaints_patches_untainted (w : World) (nodes : list Node) :
  List w {[ "kubernetes.io/role" := "master" ]} = Ok nodes →
  ∃ nodePatchJson,
    omap patched (ApplyMasterTaints w).1
      `prefix_of` map (λ node, (Name node, nodePatchJson)) (filter (untainted w) nodes) ∧
    ((ApplyMasterTaints w).2 = None →
     omap patched (ApplyMasterTaints w).1
     = map (λ node, (Name node, nodePatchJson)) (filter (untainted w) nodes)).
Proof.
  intros Hlist. unfold ApplyMasterTaints. rewrite Hlist.
  destruct (KubernetesClient w) as [cause|].
  { exists "". split; [apply prefix_nil|done]. }
  destruct (Marshal_taint w _) as [taintJSON|cause].
  - apply taintNodes_patches.
  - exists "". split; [apply prefix_nil|done].
Qed.

Lemma taintNodes_failed w taintJSON i items tr cause :
  taintNodes w taintJSON i items = (tr, Some (ErrApplyingPatch cause)) →
  ∃ k node nodePatchJson pre,
    items !! k = Some node ∧ untainted w node ∧
    Marshal_nodePatch w (masterPatch w taintJSON) = Ok nodePatchJson ∧
    Patch w (i + k) (Name node) nodePatchJson = Some cause ∧
    tr = pre ++ [EvPatch (Name node) nodePatchJson] ∧
    omap patched pre
    = map (λ node, (Name node, nodePatchJson)) (filter (untainted w) (take k items)) ∧
    (∀ j earlier, j < k → items !! j = Some earlier → untainted w earlier →
       Patch w (i + j) (Name earlier) nodePatchJson = None).
Proof.
  revert i tr. induction items as [|node items IH]; intros i tr; [done|].
  cbn [taintNodes]. fold (nodeTaint w node). fold (masterPatch w taintJSON).
  specialize (IH (S i)).
  destruct (taintNodes w taintJSON (S i) items) as [tr' err].
  destruct (decide (untainted w node)) as [Hnode|Hnode].
  - rewrite bool_decide_eq_false_2 by (by intros ?).
    destruct (Marshal_nodePatch w (masterPatch w taintJSON)) as [json|?] eqn:Hjson;
      [|done].
    destruct (Patch w i (Name node) json) as [cause'|] eqn:Hpatch.
    + intros [= <- <-]. exists 0, node, json, []. rewrite Nat.add_0_r.
      repeat split; try done. intros j ? Hj. lia.
    + intros [= <- ->].
      destruct (IH _ eq_refl) as (k & n & json' & pre & Hk & Hn & [= <-] & Hp & -> & Hpre & Hearlier).
      exists (S k), n, json, (EvPatch (Name node) json :: pre).
      rewrite Nat.add_succ_r. repeat split; try done.
      * cbn [take]. rewrite filter_cons_True by done. cbn. by rewrite Hpre.
      * intros [|j] earlier Hj Hlook Hun.
        -- injection Hlook as <-. by rewrite Nat.add_0_r.
        -- rewrite Nat.add_succ_r. apply (Hearlier j); [lia|done..].
  - rewrite bool_decide_eq_true_2 by done. intros [= <- ->].
    destruct (IH _ eq_refl) as (k & n & json & pre & Hk & Hn & Hjson & Hp & -> & Hpre & Hearlier).
    exists (S k), n, json,
      ((if bool_decide (nodeTaint w node ≠ taintJSON)
        then [EvInfoUnexpectedTaint (Name node) (nodeTaint w node)] else []) ++ pre).
    rewrite Nat.add_succ_r. repeat split; try done.
    + by rewrite app_assoc.
    + cbn [take]. rewrite filter_cons_False by done. by rewrite omap_patched_info.
    + intros [|j] earlier Hj Hlook Hun.
      * by injection Hlook as <-.
      * rewrite Nat.add_succ_r. apply (Hearlier j); [lia|done..].
Qed.

(** X21: when [ApplyMasterTaints] returns the error of applying a patch,
    the failed patch is the last thing it did: it was sent for a node
    without the annotation, the patches for all such nodes earlier in the
    list had succeeded, and no node later in the list was patched. *)
Theorem ApplyMasterTaints_stops_at_failed_patch (w : World) (cause : string) :
  (ApplyMasterTaints w).2 = Some (ErrApplyingPatch cause) →
  ∃ nodes k node nodePatchJson pre,
    List w {[ "kubernetes.io/role" := "master" ]} = Ok nodes ∧
    nodes !! k = Some node ∧ untainted w node ∧
    Patch w k (Name node) nodePatchJson = Some cause ∧
    (ApplyMasterTaints w).1 = pre ++ [EvPatch (Name node) nodePatchJson] ∧
    omap patched pre
    = map (λ node, (Name node, nodePatchJson)) (filter (untainted w) (take k nodes)) ∧
    (∀ j earlier, j < k → nodes !! j = Some earlier → untainted w earlier →
       Patch w j (Name earlier) nodePatchJson = None).
Proof.
  unfold ApplyMasterTaints.
  destruct (KubernetesClient w) as [?|]; [done|].
  destruct (List w _) as [nodes|?]; [|done].
  destruct (Marshal_taint w _) as [taintJSON|?]; [|done].
  destruct (taintNodes w taintJSON 0 nodes) as [tr err] eqn:Hrun. cbn.
  intros ->. apply taintNodes_failed in Hrun
    as (k & node & json & pre & Hk & Hn & _ & Hp & -> & Hpre & Hearlier).
  by exists nodes, k, node, json, pre.
Qed.

Lemma taintNodes_tainted w taintJSON i items :
  Forall (λ node, ¬ untainted w node) items →
  taintNodes w taintJSON i items =
    (map (λ node, EvInfoUnexpectedTaint (Name node) (nodeTaint w node))
       (filter (λ node, nodeTaint w node ≠ taintJSON) items), None).
Proof.
  revert i. induction items as [|node items IH]; intros i Hall; [done|].
  apply Forall_cons in Hall as [Hnode Hall].
  cbn [taintNodes]. fold (nodeTaint w node).
  rewrite bool_decide_eq_true_2 by done. rewrite (IH (S i) Hall).
  destruct (decide (nodeTaint w node ≠ taintJSON)) as [Hne|Heq].
  - rewrite filter_cons_True by done. by rewrite bool_decide_eq_true_2 by done.
  - rewrite filter_cons_False by done. by rewrite bool_decide_eq_false_2 by done.
Qed.

(** X22: once every listed master has a taints annotation,
    [ApplyMasterTaints] sends no patch and returns nil, whatever the
    annotations are and without building a patch; all it does is to log
    each node whose annotation is not the expected taint. *)
Theorem ApplyMasterTaints_all_tainted
    (w : World) (nodes : list Node) (taintJSON : string) :
  KubernetesClient w = None →
  List w {[ "kubernetes.io/role" := "master" ]} = Ok nodes →
  Marshal_taint w
    [{| Key := "dedicated"; Value := "master"; Effect := "NoSchedule" |}]
  = Ok taintJSON →
  Forall (λ node, ¬ untainted w node) nodes →
  ApplyMasterTaints w =
    (map (λ node, EvInfoUnexpectedTaint (Name node) (nodeTaint w node))
       (filter (λ node, nodeTaint w node ≠ taintJSON) nodes), None).
Proof.
  intros Hclient Hlist Htaint Hall. unfold ApplyMasterTaints.
  rewrite Hclient, Hlist, Htaint. by apply taintNodes_tainted.
Qed.

(** Four masters, two of them without a taints annotation and one with an
    unexpected one; a cluster where the patch of the last master fails, one
    where every patch succeeds, and one where all masters are tainted. *)
Definition sampleNode (name nodeTaintJSON : string) : Node :=
  {| Name := name;
     Annotations :=
       if bool_decide (nodeTaintJSON = "") then ∅
       else {[ "scheduler.alpha.kubernetes.io/taints" := nodeTaintJSON ]} |}.

Definition sampleNodes : list Node :=
  [sampleNode "master-a" "[dedicated=master:NoSchedule]"; sampleNode "master-b" "";
   sampleNode "master-c" "[dedicated=etcd:NoExecute]"; sampleNode "master-d" ""].

Definition sampleCluster (nodes : list Node) (failing : option nat) : World :=
  {| KubernetesClient := None;
     TaintsAnnotationKey := "scheduler.alpha.kubernetes.io/taints";
     List := λ _, Ok nodes;
     Marshal_taint := λ _, Ok "[dedicated=master:NoSchedule]";
     Marshal_nodePatch := λ _, Ok "{taints,schedulable}";
     Patch := λ i _ _,
       if bool_decide (failing = Some i) then Some "the server is busy" else None |}.

Lemma ApplyMasterTaints_patches_untainted_witness :
  ∃ nodePatchJson,
    omap patched (ApplyMasterTaints (sampleCluster sampleNodes None)).1
      `prefix_of` map (λ node, (Name node, nodePatchJson))
                    (filter (untainted (sampleCluster sampleNodes None)) sampleNodes) ∧
    ((ApplyMasterTaints (sampleCluster sampleNodes None)).2 = None →
     omap patched (ApplyMasterTaints (sampleCluster sampleNodes None)).1
     = map (λ node, (Name node, nodePatchJson))
         (filter (untainted (sampleCluster sampleNodes None)) sampleNodes)).
Proof.
  exact (ApplyMasterTaints_patches_untainted
           (sampleCluster sampleNodes None) sampleNodes eq_refl).
Defined.

Lemma ApplyMasterTaints_stops_at_failed_patch_witness :
  ∃ nodes k node nodePatchJson pre,
    List (sampleCluster sampleNodes (Some 1)) {[ "kubernetes.io/role" := "master" ]}
    = Ok nodes ∧
    nodes !! k = Some node ∧ untainted (sampleCluster sampleNodes (Some 1)) node ∧
    Patch (sampleCluster sampleNodes (Some 1)) k (Name node) nodePatchJson
    = Some "the server is busy" ∧
    (ApplyMasterTaints (sampleCluster sampleNodes (Some 1))).1
    = pre ++ [EvPatch (Name node) nodePatchJson] ∧
    omap patched pre
    = map (λ node, (Name node, nodePatchJson))
        (filter (untainted (sampleCluster sampleNodes (Some 1))) (take k nodes)) ∧
    (∀ j earlier, j < k → nodes !! j = Some earlier →
       untainted (sampleCluster sampleNodes (Some 1)) earlier →
       Patch (sampleCluster sampleNodes (Some 1)) j (Name earlier) nodePatchJson = None).
Proof.
  apply (ApplyMasterTaints_stops_at_failed_patch
           (sampleCluster sampleNodes (Some 1)) "the server is busy").
  vm_compute. reflexivity.
Defined.

Lemma ApplyMasterTaints_all_tainted_witness :
  ApplyMasterTaints
    (sampleCluster [sampleNode "master-a" "[dedicated=master:NoSchedule]";
                    sampleNode "master-c" "[dedicated=etcd:NoExecute]"] None)
  = ([EvInfoUnexpectedTaint "master-c" "[dedicated=etcd:NoExecute]"], None).
Proof.
  apply (ApplyMasterTaints_all_tainted
           (sampleCluster [sampleNode "master-a" "[dedicated=master:NoSchedule]";
                           sampleNode "master-c" "[dedicated=etcd:NoExecute]"] None)
           [sampleNode "master-a" "[dedicated=master:NoSchedule]";
            sampleNode "master-c" "[dedicated=etcd:NoExecute]"]
           "[dedicated=master:NoSchedule]"); [done..|].
  repeat (apply Forall_cons; split; [by vm_compute|]). apply Forall_nil_2.
Defined.

End ProtokubeProofs.

(** ** kutil: upgrading a cluster *)

Module UpgradeProofs.
Import Nodeup Upgrade.

(** A computation only adds calls to those made before it, and every call
    it adds satisfies [P]. *)
Definition calls {A} (P : Event → Prop) (m : M A) : Prop :=
  ∀ tr, ∃ tr', (m tr).1 = tr ++ tr' ∧ Forall P tr'.

Lemma calls_mret {A} P (a : A) : calls P (mret a).
Proof. intros tr. exists []. by rewrite app_nil_r. Qed.

Lemma calls_return {A} P err : calls P (@return_ A err).
Proof. intros tr. exists []. by rewrite app_nil_r. Qed.

Lemma calls_ask {A} P (r : list Event → Result A) wrap : calls P (ask r wrap).
Proof. intros tr. exists []. unfold ask. rewrite app_nil_r. by destruct (r tr). Qed.

Lemma calls_emit (P : Event → Prop) e : P e → calls P (emit e).
Proof. intros He tr. exists [e]. split; [done|]. by apply Forall_singleton. Qed.

Lemma calls_call (P : Event → Prop) w e : P e → calls P (call w e).
Proof. intros He tr. exists [e]. split; [done|]. by apply Forall_singleton. Qed.

Lemma calls_bind {A B} P (m : M A) (k : A → M B) :
  calls P m → (∀ a, calls P (k a)) → calls P (m ≫= k).
Proof.
  intros Hm Hk tr. destruct (Hm tr) as (tr1 & Heq & H1).
  unfold mbind, M_bind. destruct (m tr) as [tr' [a|o]]; cbn in Heq; subst tr'.
  - destruct (Hk a (tr ++ tr1)) as (tr2 & -> & H2). exists (tr1 ++ tr2).
    split; [by rewrite app_assoc|by apply Forall_app].
  - by exists tr1.
Qed.

Lemma calls_do (P : Event → Prop) w e wrap : P e → calls P (do w e wrap).
Proof.
  intros He. apply calls_bind; [by apply calls_call|].
  intros [cause|]; [apply calls_return|apply calls_mret].
Qed.

(** The continuation of a pre-query only runs on its answer. *)
Lemma calls_ask_bind {A B} P (r : Result A) wrap (k : A → M B) :
  (∀ a, r = Ok a → calls P (k a)) → calls P (ask (λ _, r) wrap ≫= k).
Proof.
  intros Hk tr. unfold mbind, M_bind, ask. destruct r as [a|cause].
  - by apply Hk.
  - exists []. by rewrite app_nil_r.
Qed.

Lemma calls_forM {A} P (l : list A) (body : A → M unit) :
  (∀ a, a ∈ l → calls P (body a)) → calls P (forM_ l body).
Proof.
  induction l as [|a l IH]; intros Hbody; cbn; [apply calls_mret|].
  apply calls_bind; [apply Hbody; left|]. intros _. apply IH.
  intros a' Ha'. apply Hbody. by right.
Qed.

Lemma calls_detachVolume (P : Event → Prop) attempts w v i :
  P (EvDetachVolume v i) → P (EvSleep 5) → calls P (detachVolume attempts w v i).
Proof.
  intros Hd Hs. induction attempts as [|n IH]; cbn.
  { intros tr. exists []. by rewrite app_nil_r. }
  apply calls_bind; [by apply calls_call|]. intros [err|]; [|apply calls_mret].
  case_bool_decide; [|apply calls_return].
  apply calls_bind; [by apply calls_emit|]. by intros _.
Qed.

Lemma calls_complete P (m : M unit) : calls P m → Forall P (complete m).1.
Proof.
  intros Hm. destruct (Hm []) as (tr & Heq & Htr). unfold complete.
  destruct (m []) as [tr' [[]|o]]; cbn in *; by subst.
Qed.

Local Ltac calls_step :=
  first
    [ apply calls_mret | apply calls_return | apply calls_ask
    | apply calls_do | apply calls_emit | apply calls_call
    | apply calls_detachVolume
    | apply calls_ask_bind; intros ? ?
    | apply calls_forM; intros ? ?
    | apply calls_bind; [|intros ?]
    | case_bool_decide
    | match goal with
      | |- calls _ (match ?x with _ => _ end) => destruct x eqn:?
      | |- calls _ (if ?x then _ else _) => destruct x eqn:?
      end ].

(** The instance is a master of the old cluster. *)
Definition isMaster (w : World) (x : UpgradeCluster) (instance : Instance) : Prop :=
  (FindEC2Tag w (Instance_Tags instance) "Role").1 = OldClusterName x +:+ "-master".

(** What [Upgrade] may do in world [w] when the instances found are
    [instances]. *)
Definition allowed (w : World) (x : UpgradeCluster) (instances : list Instance)
    (e : Event) : Prop :=
  match e with
  | EvUpdateAutoScalingGroup _ desired min max => desired = 0%Z ∧ min = 0%Z ∧ max = 0%Z
  | EvStopInstances instanceIds =>
      ∃ master, master ∈ instances ∧ isMaster w x master ∧
        StringValue (State_Name master) ≠ "terminated" ∧
        instanceIds = [InstanceId master]
  | EvDetachVolume volumeId instanceId =>
      ∃ master ebs, master ∈ instances ∧ isMaster w x master ∧
        Some ebs ∈ map Ebs (BlockDeviceMappings master) ∧
        volumeId = Ebs_VolumeId ebs ∧ is_Some volumeId ∧
        instanceId = InstanceId master
  | EvSleep seconds => seconds = 5%Z
  | EvCreateTags _ tags | EvCreateELBTags _ tags =>
      tags !! TagClusterName w = Some (NewClusterName x) ∧
      ∀ key, is_Some (tags !! key) → key = TagClusterName w ∨ key = "Name"
  | EvCreateClusterConfig cluster groups =>
      Name cluster = NewClusterName x ∧
      Spec_NetworkID cluster = Spec_NetworkID (ClusterConfig x) ∧
      Spec_rest cluster = Spec_rest (ClusterConfig x) ∧
      groups = InstanceGroups x
  | EvAddCert clusterName _ => clusterName = NewClusterName x
  end.

Lemma allowed_replaceTags w x :
  replaceTags w (NewClusterName x) !! TagClusterName w = Some (NewClusterName x) ∧
  ∀ key, is_Some (replaceTags w (NewClusterName x) !! key) →
         key = TagClusterName w ∨ key = "Name".
Proof.
  unfold replaceTags. split; [by rewrite lookup_insert_eq|].
  intros key [v Hv]. apply lookup_insert_Some in Hv as [[-> _]|[_ Hv]]; [by left|].
  by rewrite lookup_empty in Hv.
Qed.

(** X23: whatever the cloud answers and however long a detach is retried,
    [Upgrade] sets every autoscaling group it updates to size zero; stops
    only instances that are masters of the old cluster and not terminated,
    one per call; detaches only EBS volumes mapped to such masters, from
    that master; sleeps five seconds between attempts; writes only tags
    that name the new cluster (the key of the cluster tag is not [Name]),
    with no other key than [Name]; writes the
    configuration of the cluster under the new name; and adds certificates
    only to the key store of the new cluster. *)
Theorem Upgrade_footprint
    (attempts : nat) (w : World) (x : UpgradeCluster) (instances : list Instance) :
  findInstances w = Ok instances →
  TagClusterName w ≠ "Name" →
  ∀ e, e ∈ (Upgrade attempts w x).1 →
    match e with
    | EvUpdateAutoScalingGroup _ desired min max =>
        desired = 0%Z ∧ min = 0%Z ∧ max = 0%Z
    | EvStopInstances instanceIds =>
        ∃ master, master ∈ instances ∧ isMaster w x master ∧
          StringValue (State_Name master) ≠ "terminated" ∧
          instanceIds = [InstanceId master]
    | EvDetachVolume volumeId instanceId =>
        ∃ master ebs, master ∈ instances ∧ isMaster w x master ∧
          Some ebs ∈ map Ebs (BlockDeviceMappings master) ∧
          volumeId = Ebs_VolumeId ebs ∧ is_Some volumeId ∧
          instanceId = InstanceId master
    | EvSleep seconds => seconds = 5%Z
    | EvCreateTags _ tags | EvCreateELBTags _ tags =>
        tags !! TagClusterName w = Some (NewClusterName x) ∧
        ∀ key, is_Some (tags !! key) → key = TagClusterName w ∨ key = "Name"
    | EvCreateClusterConfig cluster groups =>
        Name cluster = NewClusterName x ∧
        Spec_NetworkID cluster = Spec_NetworkID (ClusterConfig x) ∧
        Spec_rest cluster = Spec_rest (ClusterConfig x) ∧
        groups = InstanceGroups x
    | EvAddCert clusterName _ => clusterName = NewClusterName x
    end.
Proof.
  intros Hfind Hname.
  change (∀ e, e ∈ (Upgrade attempts w x).1 → allowed w x instances e).
  apply Forall_forall. unfold Upgrade. rewrite Hfind. apply calls_complete.
  repeat calls_step; cbn;
    repeat match goal with
           | H : _ ∈ filter _ _ |- _ => apply list_elem_of_filter in H as [? ?]
           | H : Ok _ = Ok _ |- _ => injection H as <-
           end;
    try done; try apply allowed_replaceTags.
  - eexists. by repeat split.
  - match goal with
    | Hb : ?bdm ∈ BlockDeviceMappings ?m, He : Ebs ?bdm = Some ?ebs |- _ =>
        exists m, ebs; repeat split; try done;
        apply list_elem_of_fmap; exists bdm; by rewrite He
    end.
  - destruct (allowed_replaceTags w x) as [Hnew Hkeys]. split.
    + by rewrite lookup_insert_ne.
    + intros key [v Hv]. apply lookup_insert_Some in Hv as [[<- _]|[_ Hv]]; [by right|].
      by apply Hkeys.
Qed.

(** The step of [Upgrade] that a call belongs to: scaling the autoscaling
    groups down, stopping the masters, detaching their volumes, retagging,
    writing the configuration, importing the certificates. *)
Definition phase (e : Event) : nat :=
  match e with
  | EvUpdateAutoScalingGroup _ _ _ _ => 0
  | EvStopInstances _ => 1
  | EvDetachVolume _ _ | EvSleep _ => 2
  | EvCreateTags _ _ | EvCreateELBTags _ _ => 3
  | EvCreateClusterConfig _ _ => 4
  | EvAddCert _ _ => 5
  end.

Definition ordered (tr : list Event) : Prop :=
  ∀ i j e1 e2, tr !! i = Some e1 → tr !! j = Some e2 → i < j → phase e1 ≤ phase e2.

(** A computation adds calls of the steps from [lo] on, in the order of the
    steps. *)
Definition staged {A} (lo : nat) (m : M A) : Prop :=
  ∀ tr, ∃ tr', (m tr).1 = tr ++ tr' ∧ Forall (λ e, lo ≤ phase e) tr' ∧ ordered tr'.

Lemma ordered_app tr1 tr2 mid :
  ordered tr1 → ordered tr2 →
  Forall (λ e, phase e ≤ mid) tr1 → Forall (λ e, mid ≤ phase e) tr2 →
  ordered (tr1 ++ tr2).
Proof.
  intros H1 H2 Hlo Hhi i j e1 e2 Hi Hj Hij.
  rewrite Forall_lookup in Hlo. rewrite Forall_lookup in Hhi.
  apply lookup_app_Some in Hi as [Hi|[Hi1 Hi2]];
    apply lookup_app_Some in Hj as [Hj|[Hj1 Hj2]].
  - by eapply H1.
  - specialize (Hlo _ _ Hi). specialize (Hhi _ _ Hj2). cbn in *. lia.
  - apply lookup_lt_Some in Hj. lia.
  - eapply H2; [done..|lia].
Qed.

Lemma ordered_flat tr p : Forall (λ e, phase e = p) tr → ordered tr.
Proof.
  intros Hp i j e1 e2 Hi Hj _. rewrite Forall_lookup in Hp.
  rewrite (Hp _ _ Hi), (Hp _ _ Hj). done.
Qed.

Lemma staged_return {A} lo err : staged lo (@return_ A err).
Proof.
  intros tr. exists []. rewrite app_nil_r. repeat split; [done|].
  by intros i j e1 e2 Hi.
Qed.

Lemma staged_seq {A B} lo p (m : M A) (k : A → M B) :
  calls (λ e, phase e = p) m → lo ≤ p → (∀ a, staged p (k a)) →
  staged lo (m ≫= k).
Proof.
  intros Hm Hlo Hk tr. destruct (Hm tr) as (tr1 & Heq & H1).
  unfold mbind, M_bind. destruct (m tr) as [tr' [a|o]]; cbn in Heq; subst tr'.
  - destruct (Hk a (tr ++ tr1)) as (tr2 & -> & H2 & Hord). exists (tr1 ++ tr2).
    split; [by rewrite app_assoc|]. split.
    + apply Forall_app. split.
      * eapply Forall_impl; [exact H1|]. cbn. lia.
      * eapply Forall_impl; [exact H2|]. cbn. lia.
    + apply (ordered_app _ _ p); [by eapply ordered_flat|done|..].
      * eapply Forall_impl; [exact H1|]. cbn. lia.
      * eapply Forall_impl; [exact H2|]. cbn. lia.
  - exists tr1. split; [done|]. split; [|by eapply ordered_flat].
    eapply Forall_impl; [exact H1|]. cbn. lia.
Qed.

Local Ltac staged_step :=
  match goal with
  | |- staged _ (return_ _) => apply staged_return
  | |- staged ?lo (_ ≫= _) =>
      first
        [ apply (staged_seq lo lo); [solve [repeat calls_step; done]|lia|intros ?]
        | apply (staged_seq lo (S lo)); [solve [repeat calls_step; done]|lia|intros ?] ]
  | |- staged _ (if _ then _ else _) => case_bool_decide
  end.

(** X24: the calls of [Upgrade] follow the order of its steps, whatever
    fails and however long a detach is retried: no master is stopped
    before the last autoscaling group is scaled down, no volume is
    detached before the last master is stopped, nothing is retagged before
    the last volume is detached, the configuration is written after all
    retagging, and the certificates are imported last. *)
Theorem Upgrade_steps_in_order
    (attempts : nat) (w : World) (x : UpgradeCluster) (i j : nat) (e1 e2 : Event) :
  (Upgrade attempts w x).1 !! i = Some e1 →
  (Upgrade attempts w x).1 !! j = Some e2 →
  i < j →
  phase e1 ≤ phase e2.
Proof.
  revert i j e1 e2. change (ordered (Upgrade attempts w x).1).
  assert (∀ m : M unit, staged 0 m → ordered (complete m).1) as Hcomplete.
  { intros m Hm. destruct (Hm []) as (tr & Heq & _ & Hord). unfold complete.
    destruct (m []) as [tr' [[]|o]]; cbn in *; by subst. }
  apply Hcomplete. cbv zeta. repeat staged_step.
Qed.

(** [Q] holds whenever the computation makes a call. *)
Definition guarded {A} (Q : Prop) (m : M A) : Prop := ∀ tr, (m tr).1 ≠ tr → Q.

Lemma guarded_return {A} Q err : guarded Q (@return_ A err).
Proof. by intros tr Hne. Qed.

Lemma guarded_ask_bind {A B} Q (r : Result A) wrap (k : A → M B) :
  (∀ a, r = Ok a → guarded Q (k a)) → guarded Q (ask (λ _, r) wrap ≫= k).
Proof.
  intros Hk tr. unfold mbind, M_bind, ask. destruct r as [a|cause]; [|done].
  by apply Hk.
Qed.

Lemma guarded_intro {A} (Q : Prop) (m : M A) : Q → guarded Q m.
Proof. by intros HQ tr _. Qed.

(** X25: [Upgrade] pre-queries before it changes anything: if it makes any
    call that changes something, then both cluster names were given, the
    instances, volumes, DHCP options, autoscaling groups and load balancers
    had all been found, and one of the instances is a master of the old
    cluster. *)
Theorem Upgrade_prequeries_first (attempts : nat) (w : World) (x : UpgradeCluster) :
  (Upgrade attempts w x).1 ≠ [] →
  NewClusterName x ≠ "" ∧ OldClusterName x ≠ "" ∧
  (∃ instances master,
     findInstances w = Ok instances ∧ master ∈ instances ∧ isMaster w x master) ∧
  (∃ volumes, DescribeVolumes w = Ok volumes) ∧
  (∃ dhcpOptions, DescribeDhcpOptions w = Ok dhcpOptions) ∧
  (∃ autoscalingGroups, findAutoscalingGroups w (Tags w) = Ok autoscalingGroups) ∧
  (∃ elbs, DescribeELBs w = Ok elbs).
Proof.
  match goal with |- _ → ?Q =>
    assert (∀ m : M unit, guarded Q m → (complete m).1 ≠ [] → Q) as Hcomplete
  end.
  { intros m Hm Hne. apply (Hm []). unfold complete in Hne.
    by destruct (m []) as [tr [[]|o]]. }
  apply Hcomplete. cbv zeta.
  case_bool_decide as Hnew; [apply guarded_return|].
  case_bool_decide as Hold; [apply guarded_return|].
  apply guarded_ask_bind; intros instances Hinstances.
  apply guarded_ask_bind; intros volumes Hvolumes.
  apply guarded_ask_bind; intros dhcpOptions Hdhcp.
  apply guarded_ask_bind; intros autoscalingGroups Hgroups.
  apply guarded_ask_bind; intros elbs Helbs.
  case_bool_decide as Hmasters; [apply guarded_return|].
  apply guarded_intro. repeat split; eauto.
  destruct (filter _ instances) as [|master masters] eqn:Hfilter; [done|].
  assert (master ∈ master :: masters) as Hin by left.
  rewrite <- Hfilter in Hin. apply list_elem_of_filter in Hin as [? ?].
  by exists instances, master.
Qed.

(** The computation does not return the error of a VPC that is tagged
    with a different cluster. *)
Definition otherErrors {A} (m : M A) : Prop :=
  ∀ tr clusterTag, (m tr).2 ≠ Stop (Returned (Some (ErrVPCOtherCluster clusterTag))).

Lemma otherErrors_mret {A} (a : A) : otherErrors (mret a).
Proof. by intros tr t. Qed.

Lemma otherErrors_return {A} err :
  (∀ clusterTag, err ≠ Some (ErrVPCOtherCluster clusterTag)) →
  otherErrors (@return_ A err).
Proof. intros Herr tr t [= Heq]. by eapply Herr. Qed.

Lemma otherErrors_ask {A} (r : list Event → Result A) wrap :
  (∀ cause clusterTag, wrap cause ≠ ErrVPCOtherCluster clusterTag) →
  otherErrors (ask r wrap).
Proof.
  intros Hwrap tr t. unfold ask. destruct (r tr); [done|].
  intros [= Heq]. by eapply Hwrap.
Qed.

Lemma otherErrors_emit e : otherErrors (emit e).
Proof. by intros tr t. Qed.

Lemma otherErrors_bind {A B} (m : M A) (k : A → M B) :
  otherErrors m → (∀ a, otherErrors (k a)) → otherErrors (m ≫= k).
Proof.
  intros Hm Hk tr t. specialize (Hm tr t). unfold mbind, M_bind.
  destruct (m tr) as [tr' [a|o]]; [apply Hk|]. cbn in *. intros [= ->]. by apply Hm.
Qed.

Lemma otherErrors_do w e wrap :
  (∀ cause clusterTag, wrap cause ≠ ErrVPCOtherCluster clusterTag) →
  otherErrors (do w e wrap).
Proof.
  intros Hwrap. apply otherErrors_bind; [by intros tr t|].
  intros [cause|]; [|apply otherErrors_mret].
  apply otherErrors_return. intros t [= Heq]. by eapply Hwrap.
Qed.

Lemma otherErrors_forM {A} (l : list A) (body : A → M unit) :
  (∀ a, otherErrors (body a)) → otherErrors (forM_ l body).
Proof.
  intros Hbody. induction l as [|a l IH]; cbn; [apply otherErrors_mret|].
  by apply otherErrors_bind.
Qed.

Lemma otherErrors_detachVolume attempts w v i :
  otherErrors (detachVolume attempts w v i).
Proof.
  induction attempts as [|n IH]; cbn; [by intros tr t|].
  apply otherErrors_bind; [by intros tr t|]. intros [err|]; [|apply otherErrors_mret].
  case_bool_decide; [|by apply otherErrors_return].
  apply otherErrors_bind; [apply otherErrors_emit|done].
Qed.

Local Ltac otherErrors_step :=
  first
    [ apply otherErrors_mret | apply otherErrors_return; done
    | apply otherErrors_ask; done | apply otherErrors_do; done
    | apply otherErrors_emit | apply otherErrors_detachVolume
    | apply otherErrors_forM; intros ?
    | apply otherErrors_bind; [|intros ?]
    | case_bool_decide
    | match goal with
      | |- otherErrors (match ?x with _ => _ end) => destruct x eqn:?
      | |- otherErrors (if ?x then _ else _) => destruct x eqn:?
      end ].

(** When the computation returns the error of a VPC that is tagged with a
    different cluster, [Q] holds of the tag and of the calls made. *)
Definition vpcChecked {A} (Q : string → list Event → Prop) (m : M A) : Prop :=
  ∀ tr clusterTag,
    Forall (λ e, phase e ≤ 2) tr →
    (m tr).2 = Stop (Returned (Some (ErrVPCOtherCluster clusterTag))) →
    Q clusterTag (m tr).1.

Lemma vpcChecked_before {A B} Q (m : M A) (k : A → M B) :
  calls (λ e, phase e ≤ 2) m → otherErrors m → (∀ a, vpcChecked Q (k a)) →
  vpcChecked Q (m ≫= k).
Proof.
  intros Hm Hother Hk tr t Htr. destruct (Hm tr) as (tr1 & Heq & H1).
  specialize (Hother tr t). unfold mbind, M_bind.
  destruct (m tr) as [tr' [a|o]]; cbn in Heq; subst tr'.
  - apply Hk. by apply Forall_app.
  - cbn in *. intros [= ->]. by destruct Hother.
Qed.

Lemma vpcChecked_after {A B} Q (m : M A) (k : A → M B) :
  vpcChecked Q m → (∀ a, otherErrors (k a)) → vpcChecked Q (m ≫= k).
Proof.
  intros Hm Hk tr t Htr. specialize (Hm tr t Htr). unfold mbind, M_bind.
  destruct (m tr) as [tr' [a|o]].
  - intros Heq. by apply Hk in Heq.
  - cbn in *. intros [= ->]. by apply Hm.
Qed.

(** X26: when [Upgrade] returns the error of a VPC that is tagged with a
    different cluster, the tag it names is the cluster tag that [GetTags]
    gave for the VPC of the cluster, it is neither empty nor the name of
    the old cluster, and nothing has been retagged, written or imported:
    all the calls made by then scale autoscaling groups down, stop masters
    or detach their volumes. *)
Theorem Upgrade_vpc_of_other_cluster
    (attempts : nat) (w : World) (x : UpgradeCluster) (clusterTag : string) :
  (Upgrade attempts w x).2 = Returned (Some (ErrVPCOtherCluster clusterTag)) →
  clusterTag ≠ "" ∧ clusterTag ≠ OldClusterName x ∧
  (∃ tags, GetTags w (Upgrade attempts w x).1 (Spec_NetworkID (ClusterConfig x))
           = Ok tags ∧
           tags !! TagClusterName w = Some clusterTag) ∧
  (∀ e, e ∈ (Upgrade attempts w x).1 → phase e ≤ 2).
Proof.
  pose (Q := λ (t : string) (tr : list Event),
          t ≠ "" ∧ t ≠ OldClusterName x ∧
          (∃ tags, GetTags w tr (Spec_NetworkID (ClusterConfig x)) = Ok tags ∧
                   tags !! TagClusterName w = Some t) ∧
          (∀ e, e ∈ tr → phase e ≤ 2)).
  assert (∀ m : M unit, vpcChecked Q m →
            (complete m).2 = Returned (Some (ErrVPCOtherCluster clusterTag)) →
            Q clusterTag (complete m).1) as Hcomplete.
  { intros m Hm. specialize (Hm [] clusterTag (Forall_nil_2 _)). unfold complete.
    destruct (m []) as [tr [[]|o]]; cbn in *; [done|]. intros ->. by apply Hm. }
  apply Hcomplete. cbv zeta.
  repeat first
    [ case_bool_decide; [by intros tr t _ [= ]|]
    | apply vpcChecked_before;
        [solve [repeat calls_step; cbn; lia]|solve [repeat otherErrors_step]|intros ?] ].
  apply vpcChecked_after; [|intros ?; repeat otherErrors_step].
  apply vpcChecked_after; [|intros ?; repeat otherErrors_step].
  case_bool_decide as Hvpc; [|by intros tr t _ [= ]].
  intros tr t Htr. unfold mbind, M_bind, ask.
  destruct (GetTags w tr _) as [tags|cause] eqn:Htags; [|by intros [= ]].
  case_bool_decide as Htag; [|by intros [= ]].
  case_bool_decide as Hold.
  - cbn. intros [= <-]. split; [done|]. split; [done|]. split.
    + exists tags. split; [done|]. destruct (tags !! TagClusterName w); [done|].
      by destruct Htag.
    + by apply Forall_forall.
  - unfold do, call, mbind, M_bind. by destruct (respond w tr _).
Qed.

(** [n] attempts to detach a volume that were each followed by the sleep. *)
Fixpoint retries (n : nat) (volumeId instanceId : option string) : list Event :=
  match n with
  | O => []
  | S n' => EvDetachVolume volumeId instanceId :: EvSleep 5
            :: retries n' volumeId instanceId
  end.

(** The calls [tr] end with [n] attempts to detach one volume, each of them
    answered with the error code [IncorrectState]. *)
Definition stuck (w : World) (n : nat) (tr : list Event) : Prop :=
  ∃ pre volumeId instanceId,
    tr = pre ++ retries n volumeId instanceId ∧
    ∀ k, k < n →
      ∃ err, respond w (pre ++ retries k volumeId instanceId)
                     (EvDetachVolume volumeId instanceId) = Some err ∧
             AWSErrorCode w err = "IncorrectState".

Definition spins {A} (Q : list Event → Prop) (m : M A) : Prop :=
  ∀ tr, (m tr).2 = Stop Retrying → Q (m tr).1.

Lemma spins_bind {A B} Q (m : M A) (k : A → M B) :
  spins Q m → (∀ a, spins Q (k a)) → spins Q (m ≫= k).
Proof.
  intros Hm Hk tr. specialize (Hm tr). unfold mbind, M_bind.
  destruct (m tr) as [tr' [a|o]]; [apply Hk|]. cbn in *. intros [= ->]. by apply Hm.
Qed.

Lemma spins_mret {A} Q (a : A) : spins Q (mret a).
Proof. by intros tr. Qed.
Lemma spins_return {A} Q err : spins Q (@return_ A err).
Proof. by intros tr. Qed.
Lemma spins_ask {A} Q (r : list Event → Result A) wrap : spins Q (ask r wrap).
Proof. intros tr. unfold ask. by destruct (r tr). Qed.
Lemma spins_do Q w e wrap : spins Q (do w e wrap).
Proof. intros tr. unfold do, call, mbind, M_bind. by destruct (respond w tr e). Qed.

Lemma spins_forM {A} Q (l : list A) (body : A → M unit) :
  (∀ a, spins Q (body a)) → spins Q (forM_ l body).
Proof.
  intros Hbody. induction l as [|a l IH]; cbn; [apply spins_mret|].
  by apply spins_bind.
Qed.

Lemma detachVolume_retrying n w v i tr :
  (detachVolume n w v i tr).2 = Stop Retrying →
  (detachVolume n w v i tr).1 = tr ++ retries n v i ∧
  ∀ k, k < n →
    ∃ err, respond w (tr ++ retries k v i) (EvDetachVolume v i) = Some err ∧
           AWSErrorCode w err = "IncorrectState".
Proof.
  revert tr. induction n as [|n IH]; intros tr; cbn [detachVolume].
  { intros _. cbn. rewrite app_nil_r. split; [done|]. intros k Hk. lia. }
  unfold mbind, M_bind, call, emit. cbn.
  destruct (respond w tr (EvDetachVolume v i)) as [err|] eqn:Hrespond; [|done].
  case_bool_decide as Hcode; [|done]. cbn. intros Hspin.
  destruct (IH _ Hspin) as [Htr Hk]. split.
  - rewrite Htr. by rewrite <- !app_assoc.
  - intros [|k] Hlt.
    + exists err. by rewrite app_nil_r.
    + destruct (Hk k) as (err' & Herr & Hcode'); [lia|]. exists err'.
      split; [|done]. by rewrite <- !app_assoc in Herr.
Qed.

Lemma spins_detachVolume n w v i : spins (stuck w n) (detachVolume n w v i).
Proof.
  intros tr Hspin. destruct (detachVolume_retrying _ _ _ _ _ Hspin) as [Htr Hk].
  by exists tr, v, i.
Qed.

Local Ltac spins_step :=
  first
    [ apply spins_mret | apply spins_return | apply spins_ask | apply spins_do
    | apply spins_detachVolume
    | apply spins_forM; intros ?
    | apply spins_bind; [|intros ?]
    | case_bool_decide
    | match goal with
      | |- spins _ (match ?x with _ => _ end) => destruct x eqn:?
      | |- spins _ (if ?x then _ else _) => destruct x eqn:?
      end ].

(** X27: a run of [Upgrade] is still retrying after [attempts] attempts
    only if its last calls are [attempts] attempts to detach one volume
    from one master, each followed by the sleep, and the cloud answered
    every one of them with the error code [IncorrectState]; the loop has no
    other way to go on and no bound. *)
Theorem Upgrade_retries_while_IncorrectState
    (attempts : nat) (w : World) (x : UpgradeCluster) :
  (Upgrade attempts w x).2 = Retrying →
  ∃ pre volumeId instanceId,
    (Upgrade attempts w x).1 = pre ++ retries attempts volumeId instanceId ∧
    ∀ k, k < attempts →
      ∃ err, respond w (pre ++ retries k volumeId instanceId)
                     (EvDetachVolume volumeId instanceId) = Some err ∧
             AWSErrorCode w err = "IncorrectState".
Proof.
  change ((Upgrade attempts w x).2 = Retrying → stuck w attempts (Upgrade attempts w x).1).
  assert (∀ m : M unit, spins (stuck w attempts) m →
            (complete m).2 = Retrying → stuck w attempts (complete m).1) as Hcomplete.
  { intros m Hm. specialize (Hm []). unfold complete.
    destruct (m []) as [tr [[]|o]]; cbn in *; [done|]. intros ->. by apply Hm. }
  apply Hcomplete. cbv zeta. repeat spins_step.
Qed.

(** The computation does not return nil. *)
Definition noNil {A} (m : M A) : Prop := ∀ tr, (m tr).2 ≠ Stop (Returned None).

Lemma noNil_mret {A} (a : A) : noNil (mret a).
Proof. by intros tr. Qed.
Lemma noNil_return {A} err : noNil (@return_ A (Some err)).
Proof. by intros tr. Qed.
Lemma noNil_ask {A} (r : list Event → Result A) wrap : noNil (ask r wrap).
Proof. intros tr. unfold ask. by destruct (r tr). Qed.
Lemma noNil_do w e wrap : noNil (do w e wrap).
Proof. intros tr. unfold do, call, mbind, M_bind. by destruct (respond w tr e). Qed.

Lemma noNil_bind {A B} (m : M A) (k : A → M B) :
  noNil m → (∀ a, noNil (k a)) → noNil (m ≫= k).
Proof.
  intros Hm Hk tr. specialize (Hm tr). unfold mbind, M_bind.
  destruct (m tr) as [tr' [a|o]]; [apply Hk|]. cbn in *. intros [= ->]. by apply Hm.
Qed.

Lemma noNil_forM {A} (l : list A) (body : A → M unit) :
  (∀ a, noNil (body a)) → noNil (forM_ l body).
Proof.
  intros Hbody. induction l as [|a l IH]; cbn; [apply noNil_mret|].
  by apply noNil_bind.
Qed.

Lemma noNil_detachVolume n w v i : noNil (detachVolume n w v i).
Proof.
  induction n as [|n IH]; cbn; [by intros tr|].
  apply noNil_bind; [by intros tr|]. intros [err|]; [|apply noNil_mret].
  case_bool_decide; [|apply noNil_return].
  apply noNil_bind; [by intros tr|done].
Qed.

Local Ltac noNil_step :=
  first
    [ apply noNil_mret | apply noNil_return | apply noNil_ask | apply noNil_do
    | apply noNil_detachVolume
    | apply noNil_forM; intros ?
    | apply noNil_bind; [|intros ?]
    | case_bool_decide
    | match goal with
      | |- noNil (match ?x with _ => _ end) => destruct x eqn:?
      | |- noNil (if ?x then _ else _) => destruct x eqn:?
      end ].

Section Projection.
Context {X : Type} (proj : Event → option X).

(** When the computation goes on, the calls it made are, under [proj],
    the list [l]. *)
Definition passes {A} (l : list X) (m : M A) : Prop :=
  ∀ tr tr' a, m tr = (tr', Next a) → ∃ d, tr' = tr ++ d ∧ omap proj d = l.

(** The same when the computation goes on or returns nil. *)
Definition finishes {A} (l : list X) (m : M A) : Prop :=
  ∀ tr tr', (m tr = (tr', Stop (Returned None)) ∨ ∃ a, m tr = (tr', Next a)) →
            ∃ d, tr' = tr ++ d ∧ omap proj d = l.

Lemma passes_quiet {A} (m : M A) : calls (λ e, proj e = None) m → passes [] m.
Proof.
  intros Hm tr tr' a Heq. destruct (Hm tr) as (d & Hd & Hquiet).
  rewrite Heq in Hd. exists d. split; [done|]. clear Hd.
  induction Hquiet as [|e d He _ IH]; [done|]. cbn. rewrite He. exact IH.
Qed.

Lemma passes_do w e wrap v : proj e = Some v → passes [v] (do w e wrap).
Proof.
  intros He tr tr' a. unfold do, call, mbind, M_bind.
  destruct (respond w tr e); intros [= <-]. exists [e]. split; [done|].
  cbn. by rewrite He.
Qed.

Lemma passes_bind {A B} l1 l2 (m : M A) (k : A → M B) :
  passes l1 m → (∀ a, passes l2 (k a)) → passes (l1 ++ l2) (m ≫= k).
Proof.
  intros Hm Hk tr tr' b. unfold mbind, M_bind.
  destruct (m tr) as [tr1 [a|o]] eqn:Hm1; [|done]. intros Hk1.
  destruct (Hm _ _ _ Hm1) as (d1 & -> & H1). destruct (Hk _ _ _ _ Hk1) as (d2 & -> & H2).
  exists (d1 ++ d2). split; [by rewrite app_assoc|]. by rewrite omap_app, H1, H2.
Qed.

Lemma passes_forM {A} (f : A → list X) (l : list A) (body : A → M unit) :
  (∀ a, passes (f a) (body a)) → passes (flat_map f l) (forM_ l body).
Proof.
  intros Hbody. induction l as [|a l IH]; cbn.
  - intros tr tr' a [= <-]. exists []. by rewrite app_nil_r.
  - by apply passes_bind.
Qed.

Lemma finishes_bind {A B} l1 l2 (m : M A) (k : A → M B) :
  passes l1 m → noNil m → (∀ a, finishes l2 (k a)) → finishes (l1 ++ l2) (m ≫= k).
Proof.
  intros Hm Hnil Hk tr tr'. specialize (Hnil tr). unfold mbind, M_bind.
  destruct (m tr) as [tr1 [a|o]] eqn:Hm1.
  - intros Hk1. destruct (Hm _ _ _ Hm1) as (d1 & -> & H1).
    destruct (Hk _ _ _ Hk1) as (d2 & -> & H2).
    exists (d1 ++ d2). split; [by rewrite app_assoc|]. by rewrite omap_app, H1, H2.
  - intros [[= -> ->]|[a [= ]]]. by destruct Hnil.
Qed.

Lemma finishes_skip {A B} l (m : M A) (k : A → M B) :
  calls (λ e, proj e = None) m → noNil m → (∀ a, finishes l (k a)) →
  finishes l (m ≫= k).
Proof. intros Hm. apply (finishes_bind [] l). by apply passes_quiet. Qed.

Lemma finishes_here {A B} l (m : M A) (k : A → M B) :
  passes l m → noNil m → (∀ a, finishes [] (k a)) → finishes l (m ≫= k).
Proof.
  intros Hm Hnil Hk. rewrite <- (app_nil_r l). by apply finishes_bind.
Qed.

Lemma finishes_ask_bind {A B} l (r : Result A) wrap (k : A → M B) :
  (∀ a, r = Ok a → finishes l (k a)) → finishes l (ask (λ _, r) wrap ≫= k).
Proof.
  intros Hk tr tr'. unfold mbind, M_bind, ask. destruct r as [a|cause].
  - by apply Hk.
  - by intros [[= ]|[a [= ]]].
Qed.

Lemma finishes_return {A} l err : finishes l (@return_ A (Some err)).
Proof. by intros tr tr' [[= ]|[a [= ]]]. Qed.

Lemma finishes_return_nil {A} : finishes [] (@return_ A None).
Proof. intros tr tr' [[= <-]|[a [= ]]]. exists []. by rewrite app_nil_r. Qed.

Lemma finishes_complete l (m : M unit) :
  finishes l m → (complete m).2 = Returned None → omap proj (complete m).1 = l.
Proof.
  intros Hm. specialize (Hm []). unfold complete.
  destruct (m []) as [tr [[]|o]]; cbn; intros Ho.
  - destruct (Hm tr) as (d & -> & Hd); [right; by exists tt|done].
  - subst o. destruct (Hm tr) as (d & -> & Hd); [by left|done].
Qed.
End Projection.

Global Instance isMaster_dec w x instance : Decision (isMaster w x instance).
Proof. unfold isMaster. apply _. Defined.

(** The autoscaling group of an update, the instances of a stop, and the
    load balancer whose tags are written. *)
Definition scaledDown (e : Event) : option (option string) :=
  match e with EvUpdateAutoScalingGroup name _ _ _ => Some name | _ => None end.

Definition stopped (e : Event) : option (list (option string)) :=
  match e with EvStopInstances instanceIds => Some instanceIds | _ => None end.

Definition adopted (e : Event) : option string :=
  match e with EvCreateELBTags id _ => Some id | _ => None end.

Definition written (e : Event) : option (Cluster * list string) :=
  match e with EvCreateClusterConfig cluster groups => Some (cluster, groups) | _ => None end.

Local Ltac finishes_step block :=
  first
    [ apply finishes_return | apply finishes_return_nil
    | apply finishes_ask_bind; intros ? ?; simplify_eq
    | apply finishes_skip;
        [solve [repeat calls_step; done]|solve [repeat noNil_step]|intros ?]
    | apply finishes_here; [block|solve [repeat noNil_step]|intros ?]
    | match goal with
      | |- finishes _ _ (if bool_decide ?P then _ else _) =>
          destruct (decide P);
          [rewrite (bool_decide_eq_true_2 P) by done
          |rewrite (bool_decide_eq_false_2 P) by done]
      end ].

Lemma flat_map_singleton {A B} (f : A → B) (l : list A) :
  flat_map (λ a, [f a]) l = map f l.
Proof. induction l as [|a l IH]; [done|]. cbn. by rewrite IH. Qed.

Lemma flat_map_filter {A B} (P : A → Prop) `{!∀ a, Decision (P a)} (f : A → B)
    (l : list A) :
  flat_map (λ a, if bool_decide (P a) then [f a] else []) l = map f (filter P l).
Proof.
  induction l as [|a l IH]; [done|]. destruct (decide (P a)).
  - rewrite filter_cons_True by done. cbn [flat_map map].
    by rewrite IH, bool_decide_eq_true_2.
  - rewrite filter_cons_False by done. cbn [flat_map map].
    by rewrite IH, bool_decide_eq_false_2.
Qed.

(** X28: when [Upgrade] returns nil it has scaled down every autoscaling
    group that was found, in order; stopped, one by one and in order, every
    master of the old cluster that was not terminated, and no other
    instance; written the tags of every load balancer that was found; and
    written the configuration once, under the new name. *)
Theorem Upgrade_nil_has_done
    (attempts : nat) (w : World) (x : UpgradeCluster)
    (instances : list Instance) (autoscalingGroups : list Group)
    (elbs : list LoadBalancerDescription) :
  findInstances w = Ok instances →
  findAutoscalingGroups w (Tags w) = Ok autoscalingGroups →
  DescribeELBs w = Ok elbs →
  (Upgrade attempts w x).2 = Returned None →
  omap scaledDown (Upgrade attempts w x).1
    = map AutoScalingGroupName autoscalingGroups ∧
  omap stopped (Upgrade attempts w x).1
    = map (λ master, [InstanceId master])
        (filter (λ master, StringValue (State_Name master) ≠ "terminated")
           (filter (isMaster w x) instances)) ∧
  omap adopted (Upgrade attempts w x).1
    = map (λ elb, StringValue (LoadBalancerName elb)) elbs ∧
  omap written (Upgrade attempts w x).1
    = [({| Name := NewClusterName x;
           Spec_NetworkID := Spec_NetworkID (ClusterConfig x);
           Spec_rest := Spec_rest (ClusterConfig x) |}, InstanceGroups x)].
Proof.
  intros Hinstances Hgroups Helbs Hnil. repeat split.
  - revert Hnil. apply finishes_complete. cbv zeta. rewrite Hinstances, Hgroups, Helbs.
    rewrite <- flat_map_singleton.
    repeat finishes_step
      ltac:(apply passes_forM; intros ?; by apply passes_do).
  - revert Hnil. apply finishes_complete. cbv zeta. rewrite Hinstances, Hgroups, Helbs.
    rewrite <- (flat_map_filter (λ master, StringValue (State_Name master) ≠ "terminated")).
    unfold isMaster_dec, isMaster.
    repeat finishes_step
      ltac:(apply passes_forM; intros master;
            destruct (decide (StringValue (State_Name master) = "terminated")) as [Ht|Ht];
            [rewrite (bool_decide_eq_true_2 _ Ht),
               (bool_decide_eq_false_2 (_ ≠ _)) by (by intros ?);
             apply passes_quiet, calls_mret
            |rewrite (bool_decide_eq_false_2 _ Ht), (bool_decide_eq_true_2 (_ ≠ _)) by done;
             by apply passes_do]).
  - revert Hnil. apply finishes_complete. cbv zeta. rewrite Hinstances, Hgroups, Helbs.
    rewrite <- flat_map_singleton.
    repeat finishes_step
      ltac:(apply passes_forM; intros ?; by apply passes_do).
  - revert Hnil. apply finishes_complete. cbv zeta. rewrite Hinstances, Hgroups, Helbs.
    repeat finishes_step ltac:(by apply passes_do).
Qed.

(** A cloud with one autoscaling group, a running master with one EBS
    volume, a terminated master, a node, a master volume, DHCP options, a
    load balancer with a security group and an internet gateway. Its VPC is
    tagged with the cluster [vpcTag], and it answers the first [busy]
    attempts to detach a volume with [IncorrectState]. *)
Fixpoint findTag (tags : list Tag) (key : string) : string * bool :=
  match tags with
  | [] => ("", false)
  | (k, v) :: tags' =>
      if bool_decide (StringValue k = key) then (StringValue v, true)
      else findTag tags' key
  end.

Definition sampleTag (key value : string) : Tag := (Some key, Some value).

Definition sampleInstances : list Instance :=
  [{| InstanceId := Some "i-master-a";
      Instance_Tags := [sampleTag "Role" "old.example.com-master"];
      State_Name := Some "running";
      BlockDeviceMappings :=
        [{| Ebs := None |}; {| Ebs := Some {| Ebs_VolumeId := Some "vol-etcd" |} |}] |};
   {| InstanceId := Some "i-node";
      Instance_Tags := [sampleTag "Role" "old.example.com-minion"];
      State_Name := Some "running";
      BlockDeviceMappings := [] |};
   {| InstanceId := Some "i-master-b";
      Instance_Tags := [sampleTag "Role" "old.example.com-master"];
      State_Name := Some "terminated";
      BlockDeviceMappings := [] |}].

Definition sampleCloud (vpcTag : string) (busy : nat) : World :=
  {| TagClusterName := "KubernetesCluster";
     Tags := {[ "KubernetesCluster" := "old.example.com" ]};
     FindEC2Tag := findTag;
     AWSErrorCode := λ err, err;
     findInstances := Ok sampleInstances;
     DescribeVolumes :=
       Ok [{| VolumeId := Some "vol-etcd";
              Volume_Tags := [sampleTag "Name" "old.example.com-master-pd"];
              AvailabilityZone := Some "us-east-1a" |}];
     DescribeDhcpOptions :=
       Ok [{| DhcpOptionsId := Some "dopt-1";
              DhcpOptions_Tags := [sampleTag "KubernetesCluster" "old.example.com"] |}];
     findAutoscalingGroups := λ _, Ok [{| AutoScalingGroupName := Some "nodes" |}];
     DescribeELBs :=
       Ok [{| LoadBalancerName := Some "api"; SecurityGroups := [Some "sg-api"] |}];
     GetTags := λ _ _, Ok {[ "KubernetesCluster" := vpcTag ]};
     DescribeInternetGatewaysIgnoreTags := λ _,
       Ok [{| InternetGatewayId := Some "igw-1";
              Attachments := [{| VpcId := Some "vpc-1" |}];
              InternetGateway_Tags := [] |}];
     KeyStore_CertificatePool := λ _ _,
       Ok {| Secondary := ["ca-2015"]; Primary := Some "ca-2016" |};
     respond := λ tr e,
       match e with
       | EvDetachVolume _ _ =>
           if bool_decide (length (filter (λ e', phase e' = 2) tr) < 2 * busy)
           then Some "IncorrectState" else None
       | _ => None
       end |}.

Definition sampleUpgrade : UpgradeCluster :=
  {| OldClusterName := "old.example.com";
     NewClusterName := "new.example.com";
     ClusterConfig :=
       {| Name := "old.example.com"; Spec_NetworkID := "vpc-1"; Spec_rest := "spec" |};
     InstanceGroups := ["masters"; "nodes"] |}.

Lemma Upgrade_footprint_witness :
  ∃ master,
    master ∈ sampleInstances ∧
    isMaster (sampleCloud "old.example.com" 1) sampleUpgrade master ∧
    StringValue (State_Name master) ≠ "terminated" ∧
    [Some "i-master-a"] = [InstanceId master].
Proof.
  apply (Upgrade_footprint 2 (sampleCloud "old.example.com" 1) sampleUpgrade
           sampleInstances eq_refl ltac:(done) (EvStopInstances [Some "i-master-a"])).
  apply (list_elem_of_lookup_2 _ 1). reflexivity.
Defined.

Lemma Upgrade_steps_in_order_witness :
  phase (EvStopInstances [Some "i-master-a"])
  ≤ phase (EvDetachVolume (Some "vol-etcd") (Some "i-master-a")).
Proof.
  apply (Upgrade_steps_in_order 2 (sampleCloud "old.example.com" 1) sampleUpgrade 1 4).
  - reflexivity.
  - reflexivity.
  - lia.
Defined.

Lemma Upgrade_prequeries_first_witness :
  NewClusterName sampleUpgrade ≠ "" ∧ OldClusterName sampleUpgrade ≠ "" ∧
  (∃ instances master,
     findInstances (sampleCloud "old.example.com" 1) = Ok instances ∧
     master ∈ instances ∧
     isMaster (sampleCloud "old.example.com" 1) sampleUpgrade master) ∧
  (∃ volumes, DescribeVolumes (sampleCloud "old.example.com" 1) = Ok volumes) ∧
  (∃ dhcpOptions,
     DescribeDhcpOptions (sampleCloud "old.example.com" 1) = Ok dhcpOptions) ∧
  (∃ autoscalingGroups,
     findAutoscalingGroups (sampleCloud "old.example.com" 1)
       (Tags (sampleCloud "old.example.com" 1)) = Ok autoscalingGroups) ∧
  (∃ elbs, DescribeELBs (sampleCloud "old.example.com" 1) = Ok elbs).
Proof.
  apply (Upgrade_prequeries_first 2 (sampleCloud "old.example.com" 1) sampleUpgrade).
  vm_compute. discriminate.
Defined.

Lemma Upgrade_vpc_of_other_cluster_witness :
  "shared.example.com" ≠ "" ∧ "shared.example.com" ≠ OldClusterName sampleUpgrade ∧
  (∃ tags,
     GetTags (sampleCloud "shared.example.com" 0)
       (Upgrade 1 (sampleCloud "shared.example.com" 0) sampleUpgrade).1
       (Spec_NetworkID (ClusterConfig sampleUpgrade)) = Ok tags ∧
     tags !! TagClusterName (sampleCloud "shared.example.com" 0)
     = Some "shared.example.com") ∧
  (∀ e, e ∈ (Upgrade 1 (sampleCloud "shared.example.com" 0) sampleUpgrade).1 →
        phase e ≤ 2).
Proof.
  apply (Upgrade_vpc_of_other_cluster 1 (sampleCloud "shared.example.com" 0)
           sampleUpgrade "shared.example.com").
  vm_compute. reflexivity.
Defined.

Lemma Upgrade_retries_while_IncorrectState_witness :
  ∃ pre volumeId instanceId,
    (Upgrade 3 (sampleCloud "old.example.com" 7) sampleUpgrade).1
    = pre ++ retries 3 volumeId instanceId ∧
    ∀ k, k < 3 →
      ∃ err, respond (sampleCloud "old.example.com" 7)
               (pre ++ retries k volumeId instanceId)
               (EvDetachVolume volumeId instanceId) = Some err ∧
             AWSErrorCode (sampleCloud "old.example.com" 7) err = "IncorrectState".
Proof.
  apply (Upgrade_retries_while_IncorrectState 3 (sampleCloud "old.example.com" 7)
           sampleUpgrade).
  vm_compute. reflexivity.
Defined.

Lemma Upgrade_nil_has_done_witness :
  omap scaledDown (Upgrade 2 (sampleCloud "old.example.com" 1) sampleUpgrade).1
    = [Some "nodes"] ∧
  omap stopped (Upgrade 2 (sampleCloud "old.example.com" 1) sampleUpgrade).1
    = [[Some "i-master-a"]] ∧
  omap adopted (Upgrade 2 (sampleCloud "old.example.com" 1) sampleUpgrade).1
    = ["api"] ∧
  omap written (Upgrade 2 (sampleCloud "old.example.com" 1) sampleUpgrade).1
    = [({| Name := "new.example.com"; Spec_NetworkID := "vpc-1"; Spec_rest := "spec" |},
        ["masters"; "nodes"])].
Proof.
  apply (Upgrade_nil_has_done 2 (sampleCloud "old.example.com" 1) sampleUpgrade
           sampleInstances [{| AutoScalingGroupName := Some "nodes" |}]
           [{| LoadBalancerName := Some "api"; SecurityGroups := [Some "sg-api"] |}]
           eq_refl eq_refl eq_refl).
  vm_compute. reflexivity.
Defined.

End UpgradeProofs.
